(** * Preconditioning wrappers, weight transfer and sampling loop of the CTM
      code base: a shallow embedding and its properties

    Sources embedded here:
    - [code/cm/networks.py]: [VPPrecond] (with its noise schedule [sigma],
      [sigma_inv]), [VEPrecond], [iDDPMPrecond] (with [round_sigma]),
      [EDMPrecond], [EDMPrecond_CTM] (with [get_c_in]), the argument
      binding of [SongUNet.__init__] / [DhariwalUNet.__init__] and the
      group count of [GroupNorm.__init__];
    - [code/cm_train.py]: the batch size, the teacher-to-student and the
      student-to-target parameter copies of [main];
    - [code/image_sample.py]: the sampling loop of [main] and the counting
      loop of [calculate_inception_stats].

    Numbers.  A floating-point value is held as an exact real or one of the
    three IEEE special values ([ext]); no rounding, overflow or signed zero
    is modelled.  The operations follow torch on the special values
    (log 0 = -inf, log of a negative number = nan, x / 0 = inf, ...).

    Tensors.  A tensor of shape (B, C, H, W) is held as B rows of C*H*W
    entries, a tensor of shape (B, 1, 1, 1) as B rows of one entry and a
    one-dimensional tensor as a single row.  Binary operations broadcast
    on both levels by torch's rule (equal sizes, or one of them 1) and
    raise [RuntimeError] otherwise.  Every tensor carries its dtype and
    device tags, since the wrappers branch and assert on them. *)

From Stdlib Require Import Reals Lra Lia ZArith String.
From stdpp Require Import gmap strings list fin_maps.

Open Scope R_scope.

(* ===================================================================== *)
(** * Exceptions *)
(* ===================================================================== *)

Inductive exn :=
| AssertionError | RuntimeError | NotImplementedError
| KeyError | IndexError | TypeError.

Inductive result (A : Type) :=
| Ok (a : A)
| Raise (e : exn).
Arguments Ok {A} a.
Arguments Raise {A} e.

#[global] Instance result_ret : MRet result := λ A a, Ok a.
#[global] Instance result_bind : MBind result :=
  λ A B f m, match m with Ok a => f a | Raise e => Raise e end.

Definition assert (b : bool) : result unit :=
  if b then Ok tt else Raise AssertionError.

(** A computation that may invoke the backbone: it threads the list of
    invocations made so far (oldest first).  [C] is the type of one
    recorded invocation. *)
Definition M (C A : Type) : Type := list C → result A * list C.

Definition ret_M {C A} (a : A) : M C A := λ w, (Ok a, w).
Definition bind_M {C A B} (m : M C A) (k : A → M C B) : M C B :=
  λ w, match m w with
       | (Ok a, w') => k a w'
       | (Raise e, w') => (Raise e, w')
       end.
Definition lift {C A} (r : result A) : M C A := λ w, (r, w).
Definition raise_M {C A} (e : exn) : M C A := λ w, (Raise e, w).

Notation "'let*' x ':=' m 'in' k" := (bind_M m (λ x, k))
  (at level 10, x name, m at level 100, k at level 200).

(* ===================================================================== *)
(** * Extended reals *)
(* ===================================================================== *)

Inductive ext :=
| Fin (r : R)
| PInf
| NInf
| NaN.

#[global] Instance ext_inhabited : Inhabited ext := populate (Fin 0).

Definition isinf (x : ext) : bool :=
  match x with PInf | NInf => true | _ => false end.
Definition isnan (x : ext) : bool :=
  match x with NaN => true | _ => false end.

Definition eneg (x : ext) : ext :=
  match x with
  | Fin a => Fin (- a)
  | PInf => NInf
  | NInf => PInf
  | NaN => NaN
  end.

Definition eadd (x y : ext) : ext :=
  match x, y with
  | NaN, _ | _, NaN => NaN
  | Fin a, Fin b => Fin (a + b)
  | PInf, NInf | NInf, PInf => NaN
  | PInf, _ | _, PInf => PInf
  | NInf, _ | _, NInf => NInf
  end.

Definition esub (x y : ext) : ext := eadd x (eneg y).

(** Product of an infinity with a finite factor. *)
Definition inf_times (pos : bool) (a : R) : ext :=
  if Rlt_dec 0 a then (if pos then PInf else NInf)
  else if Rlt_dec a 0 then (if pos then NInf else PInf)
  else NaN.

Definition emul (x y : ext) : ext :=
  match x, y with
  | NaN, _ | _, NaN => NaN
  | Fin a, Fin b => Fin (a * b)
  | Fin a, PInf | PInf, Fin a => inf_times true a
  | Fin a, NInf | NInf, Fin a => inf_times false a
  | PInf, PInf | NInf, NInf => PInf
  | PInf, NInf | NInf, PInf => NInf
  end.

(** 1 / x; a zero divisor counts as +0. *)
Definition einv (x : ext) : ext :=
  match x with
  | Fin a => if Req_dec_T a 0 then PInf else Fin (/ a)
  | PInf | NInf => Fin 0
  | NaN => NaN
  end.

Definition ediv (x y : ext) : ext := emul x (einv y).

(** [x ** 2] *)
Definition epow2 (x : ext) : ext := emul x x.

(** [x.sqrt()] *)
Definition esqrt (x : ext) : ext :=
  match x with
  | Fin a => if Rlt_dec a 0 then NaN else Fin (sqrt a)
  | PInf => PInf
  | NInf | NaN => NaN
  end.

(** [x ** 0.5]: as [sqrt], except that pow(-inf, 0.5) = +inf. *)
Definition epow_half (x : ext) : ext :=
  match x with
  | NInf => PInf
  | _ => esqrt x
  end.

(** [x.log()] *)
Definition elog (x : ext) : ext :=
  match x with
  | Fin a => if Rlt_dec 0 a then Fin (ln a)
             else if Rlt_dec a 0 then NaN else NInf
  | PInf => PInf
  | NInf | NaN => NaN
  end.

(** [torch.exp(x)] *)
Definition eexp (x : ext) : ext :=
  match x with
  | Fin a => Fin (exp a)
  | PInf => PInf
  | NInf => Fin 0
  | NaN => NaN
  end.

(** [x.sin()] *)
Definition esin (x : ext) : ext :=
  match x with
  | Fin a => Fin (sin a)
  | _ => NaN
  end.

(** [x.clip(min=c)] *)
Definition eclip_min (c : R) (x : ext) : ext :=
  match x with
  | Fin a => Fin (Rmax a c)
  | PInf => PInf
  | NInf => Fin c
  | NaN => NaN
  end.

(* ===================================================================== *)
(** * Tensors *)
(* ===================================================================== *)

Inductive dtype := float16 | bfloat16 | float32 | float64.
Inductive device := cpu | cuda.

#[global] Instance dtype_eq_dec : EqDecision dtype.
Proof. solve_decision. Defined.
#[global] Instance device_eq_dec : EqDecision device.
Proof. solve_decision. Defined.

(** torch's type promotion on the floating dtypes. *)
Definition promote (a b : dtype) : dtype :=
  match a, b with
  | float64, _ | _, float64 => float64
  | float32, _ | _, float32 => float32
  | float16, float16 => float16
  | bfloat16, bfloat16 => bfloat16
  | float16, bfloat16 | bfloat16, float16 => float32
  end.

Record tensor := Tensor {
  t_dtype : dtype;
  t_device : device;
  t_rows : list (list ext);
}.

(** [t.to(d)] *)
Definition to_dtype (d : dtype) (t : tensor) : tensor :=
  Tensor d (t_device t) (t_rows t).

(** Entries in storage order. *)
Definition entries (t : tensor) : list ext := concat (t_rows t).

(** [t.reshape(-1, 1, 1, 1)] *)
Definition reshape_col (t : tensor) : tensor :=
  Tensor (t_dtype t) (t_device t) ((λ v, [v]) <$> entries t).

(** [t.flatten()] *)
Definition flatten (t : tensor) : tensor :=
  Tensor (t_dtype t) (t_device t) [entries t].

(** Cut a list into consecutive rows of [n] entries; [fuel] bounds the
    number of rows. *)
Fixpoint chunks (fuel n : nat) (l : list ext) : list (list ext) :=
  match fuel, l with
  | _, [] => []
  | O, _ => []
  | S fuel', _ => take n l :: chunks fuel' n (drop n l)
  end.

(** [t.reshape(-1, n)] for [n <> 0]: the number of entries has to be a
    multiple of [n]. *)
Definition reshape_rows (n : nat) (t : tensor) : result tensor :=
  if decide (length (entries t) `mod` n = 0)%nat
  then Ok (Tensor (t_dtype t) (t_device t)
             (chunks (length (entries t)) n (entries t)))
  else Raise RuntimeError.

(** [torch.zeros([r, c], device=d)] *)
Definition zeros (r c : nat) (d : device) : tensor :=
  Tensor float32 d (replicate r (replicate c (Fin 0))).

(** Elementwise map: unary operations and operations with a Python
    scalar, which keep the tensor's dtype. *)
Definition tmap (f : ext → ext) (t : tensor) : tensor :=
  Tensor (t_dtype t) (t_device t) (fmap (M:=list) f <$> t_rows t).

(** Broadcasting along one axis. *)
Definition bcast2 {A B C} (f : A → B → result C)
    (l1 : list A) (l2 : list B) : result (list C) :=
  if decide (length l1 = length l2)
  then mapM (λ p, f p.1 p.2) (zip l1 l2)
  else match l1, l2 with
       | [a], _ => mapM (f a) l2
       | _, [b] => mapM (λ a, f a b) l1
       | _, _ => Raise RuntimeError
       end.

(** Elementwise binary operation of two tensors. *)
Definition tbin (op : ext → ext → ext) (t1 t2 : tensor) : result tensor :=
  if decide (t_device t1 = t_device t2)
  then rows ← bcast2 (bcast2 (λ a b, Ok (op a b))) (t_rows t1) (t_rows t2);
       Ok (Tensor (promote (t_dtype t1) (t_dtype t2)) (t_device t1) rows)
  else Raise RuntimeError.

Definition tadd := tbin eadd.
Definition tmul := tbin emul.
Definition tdiv := tbin ediv.

(** Operations with a Python number. *)
Definition tadd_s (t : tensor) (c : R) : tensor := tmap (λ v, eadd v (Fin c)) t.
Definition tsub_s (t : tensor) (c : R) : tensor := tmap (λ v, esub v (Fin c)) t.
Definition tmul_s (t : tensor) (c : R) : tensor := tmap (λ v, emul v (Fin c)) t.
Definition smul_t (c : R) (t : tensor) : tensor := tmap (λ v, emul (Fin c) v) t.
Definition sadd_t (c : R) (t : tensor) : tensor := tmap (λ v, eadd (Fin c) v) t.
Definition tdiv_s (t : tensor) (c : R) : tensor := tmap (λ v, ediv v (Fin c)) t.
Definition sdiv_t (c : R) (t : tensor) : tensor := tmap (λ v, ediv (Fin c) v) t.
Definition ssub_t (c : R) (t : tensor) : tensor := tmap (λ v, esub (Fin c) v) t.
Definition tneg := tmap eneg.
Definition tpow2 := tmap epow2.
Definition tsqrt := tmap esqrt.
Definition tpow_half := tmap epow_half.
Definition tlog := tmap elog.
Definition texp := tmap eexp.

(** [t.isinf().any()], [t.isnan().any()] *)
Definition any_isinf (t : tensor) : bool := existsb isinf (entries t).
Definition any_isnan (t : tensor) : bool := existsb isnan (entries t).

(* ===================================================================== *)
(** * The wrappers with a (x, sigma) interface *)
(* ===================================================================== *)

Section Precond.
(** The type of the extra keyword arguments handed through to the
    backbone. *)
Context {K : Type}.

(** One invocation [self.model(x, noise_labels, class_labels=..., **kw)]. *)
Record call := Call {
  call_x : tensor;
  call_noise_labels : tensor;
  call_class_labels : option tensor;
  call_kwargs : K;
}.

(** The backbone, [self.model]. *)
Variable model : call → result tensor.

Definition invoke (c : call) : M call tensor :=
  λ w, (model c, w ++ [c]).

(** The dtype choice made by each [forward]. *)
Definition select_dtype (use_fp16 use_bf16 force_fp32 : bool) (x : tensor)
  : dtype :=
  if use_fp16 && negb force_fp32 && bool_decide (t_device x = cuda)
  then float16
  else if use_bf16 && negb force_fp32 && bool_decide (t_device x = cuda)
  then bfloat16
  else float32.

(** [None if self.label_dim == 0 else torch.zeros([1, self.label_dim],
    device=x.device) if class_labels is None else
    class_labels.to(torch.float32).reshape(-1, self.label_dim)] *)
Definition prepare_class_labels (label_dim : nat) (x : tensor)
    (class_labels : option tensor) : result (option tensor) :=
  if decide (label_dim = 0%nat) then Ok None
  else match class_labels with
       | None => Ok (Some (zeros 1 label_dim (t_device x)))
       | Some c =>
           c' ← reshape_rows label_dim (to_dtype float32 c); Ok (Some c')
       end.

(** The tail shared by the wrappers: call the backbone, check its dtype,
    combine. [c_skip] and [c_in] are tensors or the Python number 1. *)
Definition scale (c : option tensor) (x : tensor) : result tensor :=
  match c with
  | Some c => tmul c x
  | None => Ok (smul_t 1 x)
  end.

Definition precond_tail (dt : dtype) (c_skip c_out c_in : option tensor)
    (c_noise x : tensor) (class_labels : option tensor) (kw : K)
  : M call tensor :=
  let* cx := lift (scale c_in x) in
  let* F_x := invoke (Call (to_dtype dt cx) (flatten c_noise) class_labels kw) in
  let* _ := lift (assert (bool_decide (t_dtype F_x = dt))) in
  let* a := lift (scale c_skip x) in
  let* b := lift (scale c_out (to_dtype float32 F_x)) in
  lift (tadd a b).

(** ** [EDMPrecond] *)
Record EDMPrecond := {
  edm_label_dim : nat;
  edm_use_fp16 : bool;
  edm_use_bf16 : bool;
  edm_sigma_data : R;
}.

Definition EDMPrecond_forward (self : EDMPrecond) (x sigma : tensor)
    (class_labels : option tensor) (force_fp32 : bool) (kw : K)
  : M call tensor :=
  let x := to_dtype float32 x in
  let sigma := reshape_col (to_dtype float32 sigma) in
  let* class_labels :=
    lift (prepare_class_labels (edm_label_dim self) x class_labels) in
  let dt := select_dtype (edm_use_fp16 self) (edm_use_bf16 self) force_fp32 x in
  let sd := edm_sigma_data self in
  let c_skip := sdiv_t (sd ^ 2) (tadd_s (tpow2 sigma) (sd ^ 2)) in
  let* c_out :=
    lift (tdiv (tmul_s sigma sd) (tsqrt (tadd_s (tpow2 sigma) (sd ^ 2)))) in
  let c_in := sdiv_t 1 (tsqrt (sadd_t (sd ^ 2) (tpow2 sigma))) in
  let c_noise := tdiv_s (tlog sigma) 4 in
  precond_tail dt (Some c_skip) (Some c_out) (Some c_in) c_noise x
    class_labels kw.

(** ** [VPPrecond] *)
Record VPPrecond := {
  vp_label_dim : nat;
  vp_use_fp16 : bool;
  vp_use_bf16 : bool;
  vp_beta_d : R;
  vp_beta_min : R;
  vp_M : Z;
}.

Definition VPPrecond_sigma_inv (self : VPPrecond) (sigma : tensor) : tensor :=
  tdiv_s
    (tsub_s
       (tsqrt (sadd_t (vp_beta_min self ^ 2)
                 (smul_t (2 * vp_beta_d self) (tlog (sadd_t 1 (tpow2 sigma))))))
       (vp_beta_min self))
    (vp_beta_d self).

Definition VPPrecond_forward (self : VPPrecond) (x sigma : tensor)
    (class_labels : option tensor) (force_fp32 : bool) (kw : K)
  : M call tensor :=
  let x := to_dtype float32 x in
  let sigma := reshape_col (to_dtype float32 sigma) in
  let* class_labels :=
    lift (prepare_class_labels (vp_label_dim self) x class_labels) in
  let dt := select_dtype (vp_use_fp16 self) (vp_use_bf16 self) force_fp32 x in
  let c_out := tneg sigma in
  let c_in := sdiv_t 1 (tsqrt (tadd_s (tpow2 sigma) 1)) in
  let c_noise := smul_t (IZR (vp_M self - 1)) (VPPrecond_sigma_inv self sigma) in
  precond_tail dt None (Some c_out) (Some c_in) c_noise x class_labels kw.

(** ** [VEPrecond] *)
Record VEPrecond := {
  ve_label_dim : nat;
  ve_use_fp16 : bool;
  ve_use_bf16 : bool;
}.

Definition VEPrecond_forward (self : VEPrecond) (x sigma : tensor)
    (class_labels : option tensor) (force_fp32 : bool) (kw : K)
  : M call tensor :=
  let x := to_dtype float32 x in
  let sigma := reshape_col (to_dtype float32 sigma) in
  let* class_labels :=
    lift (prepare_class_labels (ve_label_dim self) x class_labels) in
  let dt := select_dtype (ve_use_fp16 self) (ve_use_bf16 self) force_fp32 x in
  let c_out := sigma in
  let c_noise := tlog (smul_t 0.5 sigma) in
  precond_tail dt None (Some c_out) None c_noise x class_labels kw.
End Precond.
Arguments call : clear implicits.

(* ===================================================================== *)
(** * [iDDPMPrecond.__init__]: the noise-level table *)
(* ===================================================================== *)

(** [l[i]] with Python's negative indices. *)
Definition getitem (l : list ext) (i : Z) : result ext :=
  let n := Z.of_nat (length l) in
  let k := if decide (i < 0)%Z then (n + i)%Z else i in
  if decide (0 ≤ k < n)%Z
  then match l !! Z.to_nat k with Some v => Ok v | None => Raise IndexError end
  else Raise IndexError.

(** [(0.5 * np.pi * j / self.M / (self.C_2 + 1)).sin() ** 2] *)
Definition alpha_bar (C_2 : R) (M : nat) (j : nat) : ext :=
  epow2 (esin (ediv (ediv (emul (Fin (0.5 * PI)) (Fin (INR j))) (Fin (INR M)))
                 (Fin (C_2 + 1)))).

(** One pass of the loop body,
    [u[j - 1] = ((u[j] ** 2 + 1) / (alpha_bar(j - 1) / alpha_bar(j)).clip(min=C_1) - 1).sqrt()].
    The loop runs [j] over [M, ..., 1], inside the [M + 1] entries. *)
Definition u_step (C_1 C_2 : R) (M : nat) (u : list ext) (j : nat) : list ext :=
  <[ (j - 1)%nat :=
       esqrt (esub (ediv (eadd (epow2 (u !!! j)) (Fin 1))
                      (eclip_min C_1
                         (ediv (alpha_bar C_2 M (j - 1)) (alpha_bar C_2 M j))))
                (Fin 1)) ]> u.

(** [u = torch.zeros(M + 1)] followed by [for j in range(M, 0, -1)]. *)
Definition u_table (C_1 C_2 : R) (M : nat) : list ext :=
  foldl (u_step C_1 C_2 M) (replicate (M + 1) (Fin 0)) (reverse (seq 1 M)).

Record iDDPMPrecond := {
  iddpm_C_1 : R;
  iddpm_C_2 : R;
  iddpm_M : nat;
  iddpm_u : list ext;
  iddpm_sigma_min : ext;
  iddpm_sigma_max : ext;
}.

Definition iDDPMPrecond_init (C_1 C_2 : R) (M : nat) : result iDDPMPrecond :=
  let u := u_table C_1 C_2 M in
  smin ← getitem u (Z.of_nat M - 1);
  smax ← getitem u 0;
  Ok {| iddpm_C_1 := C_1; iddpm_C_2 := C_2; iddpm_M := M; iddpm_u := u;
        iddpm_sigma_min := smin; iddpm_sigma_max := smax |}.

(* ===================================================================== *)
(** * [EDMPrecond_CTM] *)
(* ===================================================================== *)

(** One invocation [self.model(x=, noise_labels=, noise_labels_s=,
    class_labels=, x_T=)]. *)
Record ctm_call := CtmCall {
  ctm_x : tensor;
  ctm_noise_labels : tensor;
  ctm_noise_labels_s : option tensor;
  ctm_class_labels : option tensor;
  ctm_x_T : option tensor;
}.

Record EDMPrecond_CTM := {
  ctm_teacher : bool;
  ctm_label_dim : nat;
  ctm_use_fp16 : bool;
  ctm_use_bf16 : bool;
  ctm_sigma_min : ext;
  ctm_sigma_max : ext;
  ctm_sigma_data : R;
  ctm_sigma_data_end : option R;
  ctm_cov_xy : option R;
  ctm_inner_parametrization : string;
  ctm_eye_device : device;              (* [dist_util.dev()] *)
}.

(** The bridge coefficient shared by the ['cm_ddbm'] and ['ddbm'] branches
    of [get_c_in], from the line [snrT_div_snrt = ...] on. *)
Definition bridge_c_in (self : EDMPrecond_CTM) (sigma : tensor) : result tensor :=
  match ctm_sigma_data_end self, ctm_cov_xy self with
  | Some sde, Some cov =>
      let snrT_div_snrt :=
        tmap (λ v, ediv v (epow2 (ctm_sigma_max self))) (tpow2 sigma) in
      let a_t := snrT_div_snrt in
      let b_t := ssub_t 1 snrT_div_snrt in
      ab ← tmul (smul_t 2 a_t) b_t;
      sb ← tmul (smul_t (1 ^ 2) (tpow2 sigma)) b_t;
      A1 ← tadd (tmul_s (tpow2 a_t) (sde ^ 2))
                (tmul_s (tpow2 b_t) (ctm_sigma_data self ^ 2));
      A2 ← tadd A1 (tmul_s ab cov);
      A ← tadd A2 sb;
      Ok (sdiv_t 1 (tsqrt A))
  | _, _ => Raise TypeError
  end.

Definition get_c_in (self : EDMPrecond_CTM) (sigma : tensor) : result tensor :=
  if decide (ctm_inner_parametrization self = "edm"%string) then
    Ok (sdiv_t 1 (tpow_half (tadd_s (tpow2 sigma) (ctm_sigma_data self ^ 2))))
  else if decide (ctm_inner_parametrization self = "cm_ddbm"%string) then
    bridge_c_in self (tmap (λ v, esub v (ctm_sigma_min self)) sigma)
  else if decide (ctm_inner_parametrization self = "ddbm"%string) then
    bridge_c_in self sigma
  else Raise NotImplementedError.

(** [torch.exp(rescaled_t / 250.) - 1e-44] *)
Definition unrescaling_t (rescaled_t : tensor) : tensor :=
  tsub_s (texp (tdiv_s rescaled_t 250)) 1e-44.

(** Row [i] of [torch.eye(n)]. *)
Definition eye_row (n i : nat) : list ext :=
  (λ j, if decide (i = j) then Fin 1 else Fin 0) <$> seq 0 n.

(** [self.eye[y]] for an index tensor [y]. *)
Definition eye_index (n : nat) (y : list Z) : result (list (list ext)) :=
  mapM (λ i : Z,
          let k := if decide (i < 0)%Z then (Z.of_nat n + i)%Z else i in
          if decide (0 ≤ k < Z.of_nat n)%Z then Ok (eye_row n (Z.to_nat k))
          else Raise IndexError) y.

(** [None if self.label_dim == 0 else torch.zeros([1, self.label_dim],
    device=rescaled_x.device) if model_kwargs == {} else
    self.eye[model_kwargs['y']].reshape(-1, self.label_dim)].
    The keyword arguments are held with index tensors as values; ['y'] is
    the only entry [forward] reads. *)
Definition ctm_prepare_class_labels (self : EDMPrecond_CTM) (rescaled_x : tensor)
    (model_kwargs : gmap string (list Z)) : result (option tensor) :=
  if decide (ctm_label_dim self = 0%nat) then Ok None
  else if decide (model_kwargs = ∅)
  then Ok (Some (zeros 1 (ctm_label_dim self) (t_device rescaled_x)))
  else match model_kwargs !! "y"%string with
       | None => Raise KeyError
       | Some y =>
           rows ← eye_index (ctm_label_dim self) y;
           c ← reshape_rows (ctm_label_dim self)
                 (Tensor float32 (ctm_eye_device self) rows);
           Ok (Some c)
       end.

Section CTM.
(** The backbone, [self.model]. *)
Variable model : ctm_call → result tensor.

Definition ctm_invoke (c : ctm_call) : M ctm_call tensor :=
  λ w, (model c, w ++ [c]).

(** [(t + 1e-44).log() / 4] after [unrescaling_t]. *)
Definition ctm_noise_label (rescaled : tensor) : tensor :=
  tdiv_s (tlog (tadd_s (unrescaling_t rescaled) 1e-44)) 4.

(** [forward].  The statements that follow [raise NotImplementedError()]
    in the teacher branch are unreachable and have no counterpart here;
    the parameter [teacher] of [forward] is never read. *)
Definition EDMPrecond_CTM_forward (self : EDMPrecond_CTM)
    (rescaled_x rescaled_t : tensor) (s : option tensor) (teacher : bool)
    (x_T : option tensor) (model_kwargs : gmap string (list Z))
  : M ctm_call tensor :=
  let* class_labels :=
    lift (ctm_prepare_class_labels self rescaled_x model_kwargs) in
  let dt := if ctm_use_fp16 self then float16
            else if ctm_use_bf16 self then bfloat16 else float32 in
  if ctm_teacher self then raise_M NotImplementedError
  else
    let t := ctm_noise_label rescaled_t in
    let* _ := lift (assert (negb (any_isinf t))) in
    let* _ := lift (assert (negb (any_isnan t))) in
    let s := ctm_noise_label <$> s in
    ctm_invoke (CtmCall (to_dtype dt rescaled_x) (flatten t) (flatten <$> s)
                  class_labels (to_dtype dt <$> x_T)).
End CTM.

(* ===================================================================== *)
(** * [cm_train.main]: parameter copies *)
(* ===================================================================== *)

(** ** Python string operations used on parameter names *)

(** [s.split(sep)] for a non-empty separator: [skip] counts the characters
    of a separator occurrence still to be dropped, [cur] is the piece
    being read. *)
Fixpoint split_go (sep : string) (skip : nat) (cur : string) (s : string)
  : list string :=
  match s with
  | EmptyString => [cur]
  | String c s' =>
      match skip with
      | S k => split_go sep k cur s'
      | O => if String.prefix sep s
             then cur :: split_go sep (String.length sep - 1) EmptyString s'
             else split_go sep 0 (cur +:+ String c EmptyString) s'
      end
  end.

Definition split (sep s : string) : list string := split_go sep 0 EmptyString s.

(** [sep.join(l)] *)
Definition join (sep : string) (l : list string) : string := String.concat sep l.

(** [sub in s] *)
Fixpoint contains (sub s : string) : bool :=
  String.prefix sub s
  || match s with
     | EmptyString => false
     | String _ s' => contains sub s'
     end.

(** The local function [filter_] of [main]. *)
Definition filter_ (dst_name : string) : string :=
  join "." ((λ name, if contains "_train" name
                     then join "" (split "_train" name) else name)
            <$> split "." dst_name).

(** [['.'.join(src_name.split('.')[1:]), src_name]] *)
Definition src_forms (src_name : string) : list string :=
  [join "." (tail (split "." src_name)); src_name].

(** ** Parameters *)

(** A parameter object: its [data] and its [requires_grad] flag.  Objects
    live in a store and are named by their identity, so that two lists
    that share an object see each other's writes. *)
Record param := Param {
  p_data : tensor;
  p_requires_grad : bool;
}.

(** Broadcasting of the source to the shape of the destination. *)
Definition expand1 {A B C} (f : A → B → result C)
    (dst : list A) (src : list B) : result (list C) :=
  if decide (length dst = length src)
  then mapM (λ p, f p.1 p.2) (zip dst src)
  else match src with
       | [b] => mapM (λ a, f a b) dst
       | _ => Raise RuntimeError
       end.

(** [dst.copy_(src)]: the destination keeps its dtype, device and shape.
    The values are stored as they are, which is what torch does between
    tensors of one dtype; the cast torch applies between different dtypes
    is not modelled, and a shape is known up to its number of rows and
    the length of a row.  The properties below that speak of the values
    copied ask for data of one shape, and for one dtype where the code
    can have converted one side. *)
Definition copy_ (dst src : tensor) : result tensor :=
  rows ← expand1 (expand1 (λ _ b, Ok b)) (t_rows dst) (t_rows src);
  Ok (Tensor (t_dtype dst) (t_device dst) rows).

(** [dst.data.copy_(src.data)] on two objects of the store.  The parameters
    of a module are always in the store; an identity that is not is
    reported as [RuntimeError]. *)
Definition copy_param (dst src : nat) (σ : gmap nat param)
  : result (gmap nat param) :=
  match σ !! dst, σ !! src with
  | Some d, Some s0 =>
      t ← copy_ (p_data d) (p_data s0);
      Ok (<[dst := Param t (p_requires_grad d)]> σ)
  | _, _ => Raise RuntimeError
  end.

(** [p.requires_grad = b] *)
Definition set_requires_grad (b : bool) (p : nat) (σ : gmap nat param)
  : gmap nat param :=
  alter (λ q, Param (p_data q) b) p σ.

(** ** The target model: [for dst, src in zip(target_model.parameters(),
       model.parameters()): dst.data.copy_(src.data)] *)
Fixpoint copy_all (pairs : list (nat * nat)) (σ : gmap nat param)
  : result (gmap nat param) :=
  match pairs with
  | [] => Ok σ
  | (dst, src) :: rest => σ' ← copy_param dst src σ; copy_all rest σ'
  end.

Definition init_target (target_params model_params : list nat)
    (σ : gmap nat param) : result (gmap nat param) :=
  copy_all (zip target_params model_params) σ.

(** ** The teacher: the inner loop over [teacher_model.named_parameters()]
       for one student parameter; it stops at the first teacher parameter
       that takes one of the two [break]s. *)
Fixpoint teacher_scan (linear_probing : bool) (dst_name : string) (dst : nat)
    (teacher : list (string * nat)) (σ : gmap nat param)
  : result (gmap nat param) :=
  match teacher with
  | [] => Ok σ
  | (src_name, src) :: rest =>
      if bool_decide (dst_name ∈ src_forms src_name) then
        σ' ← copy_param dst src σ;
        Ok (if linear_probing then set_requires_grad false dst σ' else σ')
      else if linear_probing && bool_decide (filter_ dst_name ∈ src_forms src_name)
      then copy_param dst src σ
      else teacher_scan linear_probing dst_name dst rest σ
  end.

(** The outer loop over [model.named_parameters()]. *)
Fixpoint student_scan (linear_probing : bool) (student teacher : list (string * nat))
    (σ : gmap nat param) : result (gmap nat param) :=
  match student with
  | [] => Ok σ
  | (dst_name, dst) :: rest =>
      σ' ← teacher_scan linear_probing dst_name dst teacher σ;
      student_scan linear_probing rest teacher σ'
  end.

(** [teacher_model.requires_grad_(False)] *)
Definition requires_grad_ (b : bool) (params : list (string * nat))
    (σ : gmap nat param) : gmap nat param :=
  foldr (λ p, set_requires_grad b p.2) σ params.

(** The branch [if len(args.teacher_model_path) > 0 and not args.self_learn]
    of [main], from the loops to [requires_grad_]; the result tells whether
    there is a teacher.  Loading the teacher's state dict comes before and
    is part of the store the function starts from. *)
Definition setup_teacher (teacher_model_path : string)
    (self_learn linear_probing : bool) (student teacher : list (string * nat))
    (σ : gmap nat param) : result (gmap nat param * bool) :=
  if bool_decide (0 < String.length teacher_model_path)%nat && negb self_learn
  then σ' ← student_scan linear_probing student teacher σ;
       Ok (requires_grad_ false teacher σ', true)
  else Ok (σ, false).

(* ===================================================================== *)
(** * [EDMPrecond_CTM.__init__]: choice of the backbone *)
(* ===================================================================== *)

(** Python values that occur as constructor arguments. *)
Inductive pyval :=
| PNone
| PBool (b : bool)
| PInt (z : Z)
| PFloat (r : R)
| PStr (s : string)
| PList (l : list Z).

(** A constructed backbone, held as its class and the arguments its
    [__init__] was run with (defaults filled in); the layers are built
    from these and are not modelled. *)
Record backbone := Backbone {
  bb_class : string;
  bb_args : gmap string pyval;
}.

(** Binding of keyword arguments to a signature without [**kwargs]: an
    unknown keyword or a missing required parameter is a [TypeError]. *)
Definition bind_args (required : list string) (defaults kwargs : gmap string pyval)
  : result (gmap string pyval) :=
  if decide (dom kwargs ⊆ list_to_set required ∪ dom defaults)
  then if decide (list_to_set (C:=gset string) required ⊆ dom kwargs)
       then Ok (kwargs ∪ defaults)
       else Raise TypeError
  else Raise TypeError.

(** [f(k1=v1, ..., **extra)]: a keyword given twice is a [TypeError]. *)
Definition merge_kwargs (explicit extra : gmap string pyval)
  : result (gmap string pyval) :=
  if decide (explicit ##ₘ extra) then Ok (explicit ∪ extra)
  else Raise TypeError.

(** [v in [s1, s2, ...]] for string literals. *)
Definition py_in (v : option pyval) (l : list string) : bool :=
  match v with
  | Some (PStr s) => bool_decide (s ∈ l)
  | _ => false
  end.

Definition SongUNet_required : list string :=
  ["img_resolution"; "in_channels"; "out_channels"]%string.

Definition SongUNet_defaults : gmap string pyval :=
  list_to_map
    [("label_dim", PInt 0); ("augment_dim", PInt 0);
     ("model_channels", PInt 128); ("channel_mult", PList [2; 2; 2]%Z);
     ("channel_mult_emb", PInt 4); ("num_blocks", PInt 4);
     ("attn_resolutions", PList [16]%Z); ("dropout", PFloat 0.13);
     ("label_dropout", PInt 0);
     ("embedding_type", PStr "fourier"); ("channel_mult_noise", PInt 2);
     ("encoder_type", PStr "residual"); ("decoder_type", PStr "standard");
     ("resample_filter", PList [1; 3; 3; 1]%Z);
     ("training_mode", PStr ""); ("linear_probing", PBool false);
     ("condition_mode", PNone)]%string.

(** [SongUNet.__init__], up to its three assertions. *)
Definition SongUNet_init (kwargs : gmap string pyval) : result backbone :=
  args ← bind_args SongUNet_required SongUNet_defaults kwargs;
  _ ← assert (py_in (args !! "embedding_type"%string) ["fourier"; "positional"]%string);
  _ ← assert (py_in (args !! "encoder_type"%string) ["standard"; "skip"; "residual"]%string);
  _ ← assert (py_in (args !! "decoder_type"%string) ["standard"; "skip"]%string);
  Ok (Backbone "SongUNet" args).

Definition DhariwalUNet_required : list string :=
  ["img_resolution"; "in_channels"; "out_channels"]%string.

Definition DhariwalUNet_defaults : gmap string pyval :=
  list_to_map
    [("label_dim", PInt 0); ("augment_dim", PInt 0);
     ("model_channels", PInt 192); ("channel_mult", PList [1; 2; 3; 4]%Z);
     ("channel_mult_emb", PInt 4); ("num_blocks", PInt 3);
     ("attn_resolutions", PList [32; 16; 8]%Z); ("dropout", PFloat 0.10);
     ("label_dropout", PInt 0);
     ("training_mode", PStr ""); ("linear_probing", PBool false)]%string.

(** [DhariwalUNet.__init__]: its signature only. *)
Definition DhariwalUNet_init (kwargs : gmap string pyval) : result backbone :=
  args ← bind_args DhariwalUNet_required DhariwalUNet_defaults kwargs;
  Ok (Backbone "DhariwalUNet" args).

(** The arguments of [EDMPrecond_CTM.__init__] that reach the backbone. *)
Record ctm_init_args := {
  a_img_resolution : pyval;
  a_img_channels : pyval;
  a_label_dim : pyval;
  a_model_type : string;
  a_teacher : bool;
  a_teacher_model_path : string;
  a_training_mode : pyval;
  a_arch : string;
  a_linear_probing : pyval;
  a_condition_mode : pyval;
  a_model_kwargs : gmap string pyval;
}.

Section Init.
(** [pickle.load(f)['ema']] for the file at a path. *)
Variable load_ema : string → result backbone.
(** The module-level names other than the two backbone classes, with
    what calling them does. *)
Variable other_globals : string → option (gmap string pyval → result backbone).

(** [globals()[model_type]] *)
Definition globals (name : string) : option (gmap string pyval → result backbone) :=
  if decide (name = "SongUNet"%string) then Some SongUNet_init
  else if decide (name = "DhariwalUNet"%string) then Some DhariwalUNet_init
  else other_globals name.

(** [globals()[model_type](k1=v1, ..., **model_kwargs)] *)
Definition construct (model_type : string) (explicit extra : gmap string pyval)
  : result backbone :=
  match globals model_type with
  | None => Raise KeyError
  | Some cls => kw ← merge_kwargs explicit extra; cls kw
  end.

(** The keyword arguments written out in the two constructor calls. *)
Definition arch_call_kwargs (a : ctm_init_args) : gmap string pyval :=
  let ddpmpp := bool_decide (a_arch a = "ddpmpp"%string) in
  let resample_filter := if ddpmpp then PList [1; 1]%Z else PList [1; 3; 3; 1]%Z in
  let channel_mult_noise := if ddpmpp then PInt 1 else PInt 2 in
  let encoder_type := if ddpmpp then PStr "standard" else PStr "residual" in
  let embedding_type := if ddpmpp then PStr "positional" else PStr "fourier" in
  list_to_map
    [("img_resolution", a_img_resolution a); ("in_channels", a_img_channels a);
     ("out_channels", a_img_channels a); ("label_dim", a_label_dim a);
     ("training_mode", a_training_mode a); ("resample_filter", resample_filter);
     ("channel_mult_noise", channel_mult_noise); ("encoder_type", encoder_type);
     ("embedding_type", embedding_type); ("linear_probing", a_linear_probing a);
     ("condition_mode", a_condition_mode a)]%string.

Definition plain_call_kwargs (a : ctm_init_args) : gmap string pyval :=
  list_to_map
    [("img_resolution", a_img_resolution a); ("in_channels", a_img_channels a);
     ("out_channels", a_img_channels a); ("label_dim", a_label_dim a);
     ("training_mode", a_training_mode a); ("linear_probing", a_linear_probing a);
     ("condition_mode", a_condition_mode a)]%string.

(** The value given to [self.model] by [__init__]. *)
Definition EDMPrecond_CTM_init_model (a : ctm_init_args) : result backbone :=
  if a_teacher a then load_ema (a_teacher_model_path a)
  else if bool_decide (a_arch a ∈ ["ddpmpp"; "ncsnpp"]%string)
  then construct (a_model_type a) (arch_call_kwargs a) (a_model_kwargs a)
  else construct (a_model_type a) (plain_call_kwargs a) (a_model_kwargs a).
End Init.

(* ===================================================================== *)
(** * [image_sample.main]: the sampling loop *)
(* ===================================================================== *)

Record sample_args := {
  batch_size : Z;
  eval_num_samples : Z;
  class_cond : bool;
  train_classes : Z;
}.

(** The loop variables [itr] and [eval_num_samples] (the local counter,
    which starts at 0). *)
Record loop_state := LoopState {
  itr : Z;
  num_samples : Z;
}.

Section Sampling.
(** [karras_sample(..., shape=(args.batch_size, ...), ...)], reduced to
    the number of samples [x.shape[0]] it returns at a given iteration. *)
Variable karras_sample : Z → Z → result Z.

(** The 32 classes of the branch [train_classes == -2]. *)
Definition fixed_classes : list Z :=
  [0; 1; 9; 11; 29; 31; 33; 55; 76; 89; 90; 130; 207; 250; 279; 281; 291;
   323; 386; 387; 388; 417; 562; 614; 759; 789; 800; 812; 848; 933; 973; 980]%Z.

(** One pass of the loop body: the noise [x_T] needs a non-negative
    batch size, the class labels are set up, the sampler runs, the two
    counters advance.  Printing and the files written are left out. *)
Definition loop_body (args : sample_args) (st : loop_state) : result loop_state :=
  _ ← (if decide (batch_size args < 0)%Z then Raise RuntimeError else Ok tt);
  _ ← (if class_cond args then
         if decide (0 ≤ train_classes args)%Z then Ok tt
         else if decide (train_classes args = -2)%Z then
           assert (bool_decide
                     (batch_size args `mod` Z.of_nat (length fixed_classes) = 0)%Z)
         else Ok tt
       else Ok tt);
  n ← karras_sample (itr st) (batch_size args);
  Ok (LoopState (itr st + 1) (num_samples st + n)).

(** [while itr * args.batch_size < args.eval_num_samples: ...], with a
    bound on the number of passes; [None] means the bound was reached. *)
Fixpoint sample_loop (fuel : nat) (args : sample_args) (st : loop_state)
  : option (result loop_state) :=
  if decide (itr st * batch_size args < eval_num_samples args)%Z then
    match fuel with
    | O => None
    | S fuel' =>
        match loop_body args st with
        | Ok st' => sample_loop fuel' args st'
        | Raise e => Some (Raise e)
        end
    end
  else Some (Ok st).

(** [itr = 0; eval_num_samples = 0; while ...] *)
Definition sampling (fuel : nat) (args : sample_args) : option (result loop_state) :=
  sample_loop fuel args (LoopState 0 0).
End Sampling.

(* ===================================================================== *)
(** * [VPPrecond]: the noise schedule *)
(* ===================================================================== *)

(** [VPPrecond.sigma]:
    [((0.5 * self.beta_d * (t ** 2) + self.beta_min * t).exp() - 1).sqrt()] *)
Definition VPPrecond_sigma (self : VPPrecond) (t : tensor) : result tensor :=
  e ← tadd (smul_t (0.5 * vp_beta_d self) (tpow2 t)) (smul_t (vp_beta_min self) t);
  Ok (tsqrt (tsub_s (texp e) 1)).

(** [float(t)] of a tensor with a single entry. *)
Definition to_float (t : tensor) : result ext :=
  match entries t with
  | [v] => Ok v
  | _ => Raise RuntimeError
  end.

(** [torch.as_tensor(c)] of a Python float: one entry.  (Kept as float32
    on the cpu; the value is what matters here.) *)
Definition as_tensor (c : R) : tensor := Tensor float32 cpu [[Fin c]].

(** The two lines of [VPPrecond.__init__] that fix the range of noise
    levels: [self.sigma_min = float(self.sigma(epsilon_t))] and
    [self.sigma_max = float(self.sigma(1))].  Over exact reals: the
    float32 exponential overflows to [inf] once its argument passes
    ln(3.4e38), about 88.7, which [eexp] does not do; what is proved of
    this function is stated for arguments below that. *)
Definition VPPrecond_sigma_range (self : VPPrecond) (epsilon_t : R)
  : result (ext * ext) :=
  smin ← (s ← VPPrecond_sigma self (as_tensor epsilon_t); to_float s);
  smax ← (s ← VPPrecond_sigma self (as_tensor 1); to_float s);
  Ok (smin, smax).


(* ===================================================================== *)
(** * [image_sample.calculate_inception_stats]: the counting loop

    The [cifar10] branch walks over the sample files, cuts the images of
    each file into slices of [batch_size] and adds the features of the
    first [remaining_num_samples] images of each slice, until [count]
    reaches [num_samples]; then it asserts [count == num_samples].  The
    detector network and the statistics are left out; the model keeps
    [count] and the list of [remaining_num_samples], one per slice
    processed.  A file is given by the number of its images. *)

(** [//] raises [ZeroDivisionError], which the wrappers never do. *)
Inductive exn_ext := Std (e : exn) | ZeroDivisionError.

Inductive result_ext (A : Type) :=
  | OkE (a : A)
  | RaiseE (e : exn_ext).
Arguments OkE {A} a.
Arguments RaiseE {A} e.

Definition floordiv (a b : Z) : result_ext Z :=
  if decide (b = 0)%Z then RaiseE ZeroDivisionError else OkE (a / b)%Z.

(** [len(seq[a:b])] for a sequence of [n] items: negative bounds count
    from the end, and both bounds are clipped to [0 .. n]. *)
Definition slice_bound (n i : Z) : Z :=
  if decide (i < 0)%Z then Z.max 0 (i + n) else Z.min i n.

Definition slice_len (n a b : Z) : Z :=
  Z.max 0 (slice_bound n b - slice_bound n a).

(** The inner [for k in range(...)] loop, on the sizes of the slices. *)
Fixpoint count_chunks (num_samples : Z) (sizes : list Z) (count : Z)
    (used : list Z) : Z * list Z :=
  match sizes with
  | [] => (count, used)
  | m :: rest =>
      let remaining_num_samples :=
        if decide (count + m > num_samples)%Z then (num_samples - count)%Z
        else m in
      let count := (count + remaining_num_samples)%Z in
      let used := used ++ [remaining_num_samples] in
      if decide (count >= num_samples)%Z then (count, used)
      else count_chunks num_samples rest count used
  end.

Definition slice_sizes (batch_size n q : Z) : list Z :=
  (λ k, slice_len n (k * batch_size) ((k + 1) * batch_size)) <$> seqZ 0 (q + 1).

(** The outer [for file in files] loop. *)
Fixpoint count_files (num_samples batch_size : Z) (files : list Z) (count : Z)
    (used : list Z) : result_ext (Z * list Z) :=
  match files with
  | [] => OkE (count, used)
  | n :: rest =>
      match floordiv (n - 1) batch_size with
      | RaiseE e => RaiseE e
      | OkE q =>
          let '(count, used) :=
            count_chunks num_samples (slice_sizes batch_size n q) count used in
          if decide (count >= num_samples)%Z then OkE (count, used)
          else count_files num_samples batch_size rest count used
      end
  end.

Definition calculate_inception_stats_count (num_samples batch_size : Z)
    (files : list Z) : result_ext (Z * list Z) :=
  match count_files num_samples batch_size files 0 [] with
  | RaiseE e => RaiseE e
  | OkE (count, used) =>
      if decide (count = num_samples) then OkE (count, used)
      else RaiseE (Std AssertionError)
  end.


(* ===================================================================== *)
(** * [iDDPMPrecond.round_sigma] *)
(* ===================================================================== *)

(** [torch.cdist] (p = 2) between two points of one coordinate. *)
Definition cdist1 (a b : ext) : ext := esqrt (epow2 (esub a b)).

(** The order [argmin] goes by; NaN counts as the least value. *)
Definition ext_ltb (a b : ext) : bool :=
  match a, b with
  | NaN, NaN => false
  | NaN, _ => true
  | _, NaN => false
  | NInf, NInf => false
  | NInf, _ => true
  | _, NInf => false
  | Fin x, Fin y => if Rlt_dec x y then true else false
  | Fin _, PInf => true
  | PInf, _ => false
  end.

(** [row.argmin()]: the index of the first least entry. *)
Fixpoint argmin_go (best : ext) (ibest i : nat) (l : list ext) : nat :=
  match l with
  | [] => ibest
  | v :: l' => if ext_ltb v best then argmin_go v i (S i) l'
               else argmin_go best ibest (S i) l'
  end.

Definition argmin (l : list ext) : result nat :=
  match l with
  | [] => Raise IndexError
  | v :: l' => Ok (argmin_go v 0 1 l')
  end.

(** The index of the table entry next to one noise level. *)
Definition nearest_index (self : iDDPMPrecond) (s : ext) : result nat :=
  argmin (cdist1 s <$> iddpm_u self).

(** [round_sigma(sigma, return_index=True)]: the indices, in the shape of
    [sigma]. *)
Definition round_sigma_index (self : iDDPMPrecond) (sigma : tensor)
  : result (list (list nat)) :=
  mapM (mapM (nearest_index self)) (t_rows sigma).

(** [round_sigma(sigma)]: the table entries at these indices, in the
    dtype, the shape and on the device of [sigma]. *)
Definition round_sigma (self : iDDPMPrecond) (sigma : tensor) : result tensor :=
  index ← round_sigma_index self sigma;
  Ok (Tensor (t_dtype sigma) (t_device sigma)
        (fmap (M:=list) (λ i, iddpm_u self !!! i) <$> index)).


(* ===================================================================== *)
(** * Smaller pieces: batch size, class labels, group count *)
(* ===================================================================== *)

(** [cm_train.main], the lines that fix [batch_size]: the value handed to
    [load_data] and [CMTrainLoop], and the number the warning logs, if
    it is logged. *)
Definition train_batch_size (args_batch_size global_batch_size world_size : Z)
    (data_name : string) : result_ext (Z * option Z) :=
  let first :=
    if decide (args_batch_size = -1)%Z then
      match floordiv global_batch_size world_size with
      | RaiseE e => RaiseE e
      | OkE batch_size =>
          OkE (batch_size,
               if decide (global_batch_size `mod` world_size ≠ 0)%Z
               then Some (world_size * batch_size)%Z else None)
      end
    else OkE (args_batch_size, None) in
  match first with
  | RaiseE e => RaiseE e
  | OkE (batch_size, warning) =>
      OkE (if String.prefix "edges2" data_name then args_batch_size
           else batch_size, warning)
  end.

(** [image_sample.main], branch [train_classes == -2]:
    [[x for x in classes for _ in range(args.batch_size // len(classes))]] *)
Definition fixed_class_labels (batch_size : Z) : list Z :=
  x ← fixed_classes;
  replicate (Z.to_nat (batch_size / Z.of_nat (length fixed_classes))) x.

(** [GroupNorm.__init__]:
    [self.num_groups = min(num_groups, num_channels // min_channels_per_group)] *)
Definition GroupNorm_num_groups (num_channels num_groups min_channels_per_group : Z)
  : result_ext Z :=
  match floordiv num_channels min_channels_per_group with
  | RaiseE e => RaiseE e
  | OkE q => OkE (Z.min num_groups q)
  end.


(* ===================================================================== *)
(** * Notions used to state the properties *)
(* ===================================================================== *)

(** ** Coefficients and tensor shapes of the specification *)

Definition c_skip_edm (sd s : R) : R := sd ^ 2 / (s ^ 2 + sd ^ 2).

Definition c_out_edm (sd s : R) : R := s * sd / sqrt (s ^ 2 + sd ^ 2).

Definition c_in_edm (sd s : R) : R := 1 / sqrt (sd ^ 2 + s ^ 2).

Definition c_noise_edm (s : R) : R := ln s / 4.

(** [c * x] for one coefficient per sample, and [a + b] on equal shapes. *)
Definition scale_rows (c : list R) (X : list (list ext)) : list (list ext) :=
  zip_with (λ c r, emul (Fin c) <$> r) c X.

Definition add_rows (X Y : list (list ext)) : list (list ext) :=
  zip_with (zip_with eadd) X Y.

Definition sub_rows (X Y : list (list ext)) : list (list ext) :=
  zip_with (zip_with esub) X Y.

Definition div_rows (X : list (list ext)) (c : list R) : list (list ext) :=
  zip_with (λ r c, (λ v, ediv v (Fin c)) <$> r) X c.

Definition same_shape (X Y : list (list ext)) : Prop :=
  Forall2 (λ r1 r2, length r1 = length r2) X Y.

(** The column tensor holding [g s] for each noise level [s]. *)
Definition col (d : dtype) (dev : device) (g : R → ext) (sg : list R) : tensor :=
  Tensor d dev ((λ s, [g s]) <$> sg).

(** ** Finite entries and the rescaled noise label *)

Definition is_fin (v : ext) : Prop := ∃ r, v = Fin r.

Definition to_real (v : ext) : R :=
  match v with Fin r => r | _ => 0 end.

(** The tensor [rescaled / 1000], flattened. *)
Definition thousandth (rescaled : tensor) : tensor :=
  Tensor (t_dtype rescaled) (t_device rescaled)
    [(λ v, Fin (to_real v / 1000)) <$> entries rescaled].


(** The dtype chosen by [forward]. *)
Definition ctm_dtype (self : EDMPrecond_CTM) : dtype :=
  if ctm_use_fp16 self then float16
  else if ctm_use_bf16 self then bfloat16 else float32.

(** ** The noise-level table over the reals *)

(** The angle whose squared sine is [alpha_bar(j)], and the real value of
    one backward step. *)
Definition theta (C_2 : R) (M j : nat) : R :=
  0.5 * PI * INR j / INR M / (C_2 + 1).

Definition alpha_bar_R (C_2 : R) (M j : nat) : R :=
  sin (theta C_2 M j) * sin (theta C_2 M j).

Definition u_next (C_1 C_2 : R) (M j : nat) (b : R) : R :=
  sqrt ((b * b + 1) / Rmax (alpha_bar_R C_2 M (j - 1) / alpha_bar_R C_2 M j) C_1 - 1).

(** The state of the table once the steps [M, ..., k + 1] are done. *)
Definition table_inv (M k : nat) (ur : list R) : Prop :=
  length ur = (M + 1)%nat
  ∧ Forall (λ r, 0 <= r) ur
  ∧ ur !! M = Some 0
  ∧ ∀ i a b, (k ≤ i)%nat → ur !! i = Some a → ur !! S i = Some b → b <= a.

(** ** Parameter copies *)

(** The parameters [d] and [s] are in the store with data of one shape. *)
Definition copy_ready (σ : gmap nat param) (d s : nat) : Prop :=
  ∃ pd ps, σ !! d = Some pd ∧ σ !! s = Some ps
           ∧ same_shape (t_rows (p_data pd)) (t_rows (p_data ps)).


(** The test that lets a teacher parameter be copied into a student
    parameter: one of the two [if]s of the inner loop. *)
Definition name_match (linear_probing : bool) (dst_name src_name : string) : bool :=
  bool_decide (dst_name ∈ src_forms src_name)
  || (linear_probing && bool_decide (filter_ dst_name ∈ src_forms src_name)).


(** ** Constructor arguments *)

(** The four options that tell DDPM++ from NCSN++. *)
Definition arch_options : list string :=
  ["resample_filter"; "channel_mult_noise"; "encoder_type"; "embedding_type"]%string.




(** ** The sampling loop *)

(** [ceil(n / b)] for a positive [b]. *)
Definition ceil_div (n b : Z) : Z := ((n + b - 1) / b)%Z.

(** The class-label set-up of a pass goes through: the branch with the 32
    fixed classes asks for a batch size that is a multiple of 32. *)
Definition labels_ok (args : sample_args) : Prop :=
  class_cond args = false ∨ train_classes args ≠ (-2)%Z
  ∨ (batch_size args `mod` 32 = 0)%Z.

(** ** Concrete inputs *)

Definition ex_backbone : ctm_call → result tensor := λ c, Ok (ctm_x c).

Definition ex_student : EDMPrecond_CTM :=
  {| ctm_teacher := false; ctm_label_dim := 0; ctm_use_fp16 := false;
     ctm_use_bf16 := false; ctm_sigma_min := Fin 0; ctm_sigma_max := PInf;
     ctm_sigma_data := 0.5; ctm_sigma_data_end := None; ctm_cov_xy := None;
     ctm_inner_parametrization := "edm"; ctm_eye_device := cpu |}.


Definition ex_x : tensor := Tensor float32 cpu [[Fin 1]].

Definition ex_t : tensor := Tensor float32 cpu [[Fin 0]].

(** The value [get_c_in] yields at [sigma = unrescaling_t(0)]. *)
Definition ex_c_in : R :=
  1 / sqrt ((exp (0 / 250) - 1e-44) * (exp (0 / 250) - 1e-44) + 0.5 ^ 2).

Definition ex_F : call unit → result tensor := λ c, Ok (call_x c).

Definition ex_edm : EDMPrecond :=
  {| edm_label_dim := 0; edm_use_fp16 := false; edm_use_bf16 := false;
     edm_sigma_data := 0.5 |}.

Definition ex_vp : VPPrecond :=
  {| vp_label_dim := 0; vp_use_fp16 := false; vp_use_bf16 := false;
     vp_beta_d := 19.9; vp_beta_min := 0.1; vp_M := 1000 |}.

Definition ex_ve : VEPrecond :=
  {| ve_label_dim := 0; ve_use_fp16 := false; ve_use_bf16 := false |}.

Definition ex_sigma : tensor := Tensor float32 cpu [[Fin 1]].

Definition ex_param (v : R) : param :=
  Param (Tensor float32 cpu [[Fin v]]) true.

Definition ex_store : gmap nat param :=
  <[0%nat := ex_param 0]> (<[1%nat := ex_param 1]> (<[2%nat := ex_param 2]> ∅)).

Definition ex_student_params : list (string * nat) := [("w"%string, 0%nat)].

Definition ex_teacher_params : list (string * nat) :=
  [("m.w"%string, 1%nat); ("w"%string, 2%nat)].


Definition ex_load_ema : string → result backbone := λ _, Raise RuntimeError.

Definition ex_other_globals : string → option (gmap string pyval → result backbone) :=
  λ _, None.


Definition ex_sampler : Z → Z → result Z := λ _ b, Ok b.


Definition ex_sample_args_ok : sample_args :=
  {| batch_size := 2; eval_num_samples := 5; class_cond := false;
     train_classes := 0 |}.

(** ** The VP noise schedule over the reals *)

Definition sigma_R (beta_d beta_min t : R) : R :=
  sqrt (exp (0.5 * beta_d * t ^ 2 + beta_min * t) - 1).
Definition sigma_inv_R (beta_d beta_min s : R) : R :=
  (sqrt (beta_min ^ 2 + 2 * beta_d * ln (1 + s ^ 2)) - beta_min) / beta_d.

(** A tensor whose entries are the finite values [X]. *)
Definition fin_tensor (d : dtype) (dev : device) (X : list (list R)) : tensor :=
  Tensor d dev (fmap (M:=list) Fin <$> X).

(** Every entry of [X] satisfies [P]. *)
Definition all_entries (P : R → Prop) (X : list (list R)) : Prop :=
  Forall (Forall P) X.


(** ** [get_c_in] *)

(** The same wrapper with another inner parametrization. *)
Definition with_parametrization (self : EDMPrecond_CTM) (p : string) : EDMPrecond_CTM :=
  {| ctm_teacher := ctm_teacher self; ctm_label_dim := ctm_label_dim self;
     ctm_use_fp16 := ctm_use_fp16 self; ctm_use_bf16 := ctm_use_bf16 self;
     ctm_sigma_min := ctm_sigma_min self; ctm_sigma_max := ctm_sigma_max self;
     ctm_sigma_data := ctm_sigma_data self;
     ctm_sigma_data_end := ctm_sigma_data_end self;
     ctm_cov_xy := ctm_cov_xy self;
     ctm_inner_parametrization := p;
     ctm_eye_device := ctm_eye_device self |}.


(** Sum of a list of integers. *)
Definition Zsum (l : list Z) : Z := foldr Z.add 0%Z l.


(** [s[k:]] *)
Fixpoint string_drop (k : nat) (s : string) : string :=
  match k, s with
  | O, _ => s
  | S k, String _ s' => string_drop k s'
  | S _, EmptyString => EmptyString
  end.


(** The keywords that both constructor calls of [EDMPrecond_CTM.__init__]
    write out. *)
Definition wrapper_keywords : list string :=
  ["img_resolution"; "in_channels"; "out_channels"; "label_dim";
   "training_mode"; "linear_probing"; "condition_mode"]%string.

Definition ex_init_args_dup : ctm_init_args :=
  {| a_img_resolution := PInt 32; a_img_channels := PInt 3; a_label_dim := PInt 0;
     a_model_type := "SongUNet"; a_teacher := false; a_teacher_model_path := "";
     a_training_mode := PStr "ctm"; a_arch := "ddpmpp";
     a_linear_probing := PBool false; a_condition_mode := PNone;
     a_model_kwargs := {[ "resample_filter"%string := PList [1; 1]%Z ]} |}.


Definition ex_init_args_dhariwal : ctm_init_args :=
  {| a_img_resolution := PInt 64; a_img_channels := PInt 3; a_label_dim := PInt 0;
     a_model_type := "DhariwalUNet"; a_teacher := false; a_teacher_model_path := "";
     a_training_mode := PStr "ctm"; a_arch := "adm";
     a_linear_probing := PBool false; a_condition_mode := PNone;
     a_model_kwargs := ∅ |}.


(** The one-hot row of length [n] for the class index [i]; a negative
    index counts from the end. *)
Definition one_hot (n : nat) (i : Z) : list ext :=
  (λ j : nat, if decide (Z.of_nat j = i `mod` Z.of_nat n)%Z then Fin 1 else Fin 0)
    <$> seq 0 n.

(** The same wrapper with another number of classes. *)
Definition with_label_dim (self : EDMPrecond_CTM) (n : nat) : EDMPrecond_CTM :=
  {| ctm_teacher := ctm_teacher self; ctm_label_dim := n;
     ctm_use_fp16 := ctm_use_fp16 self; ctm_use_bf16 := ctm_use_bf16 self;
     ctm_sigma_min := ctm_sigma_min self; ctm_sigma_max := ctm_sigma_max self;
     ctm_sigma_data := ctm_sigma_data self;
     ctm_sigma_data_end := ctm_sigma_data_end self;
     ctm_cov_xy := ctm_cov_xy self;
     ctm_inner_parametrization := ctm_inner_parametrization self;
     ctm_eye_device := ctm_eye_device self |}.


(** A backbone that answers in float16 whatever it is called with. *)
Definition ex_F_half : call unit → result tensor :=
  λ c, Ok (to_dtype float16 (call_x c)).


(** [y] is an entry of the table [u] that is at least as close to [x] as
    every other entry. *)
Definition nearest_in (u : list ext) (x y : R) : Prop :=
  Fin y ∈ u ∧ ∀ v, Fin v ∈ u → Rabs (y - x) <= Rabs (v - x).


(** Whether the first teacher parameter that passes the name test for
    [dst_name] does so by the first [if] of the inner loop (the name
    itself is one of the two forms), rather than through [filter_]. *)
Fixpoint exact_first (linear_probing : bool) (dst_name : string)
    (teacher : list (string * nat)) : bool :=
  match teacher with
  | [] => false
  | (src_name, _) :: rest =>
      if bool_decide (dst_name ∈ src_forms src_name) then true
      else if linear_probing && bool_decide (filter_ dst_name ∈ src_forms src_name)
      then false
      else exact_first linear_probing dst_name rest
  end.


Definition ex_bridge : EDMPrecond_CTM :=
  {| ctm_teacher := false; ctm_label_dim := 0; ctm_use_fp16 := false;
     ctm_use_bf16 := false; ctm_sigma_min := Fin 0; ctm_sigma_max := PInf;
     ctm_sigma_data := 0.5; ctm_sigma_data_end := Some 0.5; ctm_cov_xy := Some 0;
     ctm_inner_parametrization := "ddbm"; ctm_eye_device := cpu |}.

(** The wrapper [__init__] builds for [C_1 = 0.2], [C_2 = 0], [M = 2]:
    [alpha_bar] is 0, 1/2, 1 at [j = 0, 1, 2], so [u = [3, 1, 0]]. *)
Definition ex_iddpm3 : iDDPMPrecond :=
  {| iddpm_C_1 := 0.2; iddpm_C_2 := 0; iddpm_M := 2;
     iddpm_u := [Fin 3; Fin 1; Fin 0];
     iddpm_sigma_min := Fin 1;
     iddpm_sigma_max := Fin 3 |}.


(* ===================================================================== *)
(** * Properties *)
(* ===================================================================== *)

(** ** Arithmetic on finite values *)

Lemma einv_fin (a : R) : a ≠ 0 → einv (Fin a) = Fin (/ a).
Proof. intros Ha. simpl. destruct (Req_dec_T a 0); [done | reflexivity]. Qed.

Lemma ediv_fin (a b : R) : b ≠ 0 → ediv (Fin a) (Fin b) = Fin (a / b).
Proof. intros Hb. unfold ediv. rewrite einv_fin by done. reflexivity. Qed.

Lemma esqrt_fin (a : R) : 0 <= a → esqrt (Fin a) = Fin (sqrt a).
Proof. intros Ha. simpl. destruct (Rlt_dec a 0); [lra | reflexivity]. Qed.

Lemma elog_fin (a : R) : 0 < a → elog (Fin a) = Fin (ln a).
Proof. intros Ha. simpl. destruct (Rlt_dec 0 a); [reflexivity | lra]. Qed.

Lemma emul_comm (x y : ext) : emul x y = emul y x.
Proof. destruct x, y; simpl; try reflexivity. f_equal; lra. Qed.

Lemma emul_1_l (x : ext) : emul (Fin 1) x = x.
Proof.
  destruct x; simpl; unfold inf_times; try reflexivity.
  - f_equal; lra.
  - destruct (Rlt_dec 0 1); [reflexivity | lra].
  - destruct (Rlt_dec 0 1); [reflexivity | lra].
Qed.

Lemma eneg_emul_pos (s : R) (x : ext) :
  emul (Fin (- s)) x = eneg (emul (Fin s) x).
Proof.
  destruct x; simpl; unfold inf_times; try reflexivity.
  - f_equal; lra.
  - destruct (Rlt_dec 0 (- s)), (Rlt_dec (- s) 0), (Rlt_dec 0 s), (Rlt_dec s 0);
      try reflexivity; lra.
  - destruct (Rlt_dec 0 (- s)), (Rlt_dec (- s) 0), (Rlt_dec 0 s), (Rlt_dec s 0);
      try reflexivity; lra.
Qed.

Lemma sqrt_sq_sum_pos (s d : R) : 0 < s → 0 < sqrt (s ^ 2 + d ^ 2).
Proof. intros Hs. apply sqrt_lt_R0. nra. Qed.

(** ** Broadcasting *)

Lemma mapM_Ok {A B} (f : A → B) (l : list A) :
  mapM (λ a, Ok (f a)) l = Ok (f <$> l).
Proof. induction l as [|a l IH]; [reflexivity|]. simpl. rewrite IH. reflexivity. Qed.

Lemma mapM_ext {A B} (f g : A → result B) (l : list A) :
  Forall (λ a, f a = g a) l → mapM f l = mapM g l.
Proof.
  induction 1 as [|a l Ha _ IH]; [reflexivity|]. simpl. rewrite Ha, IH. reflexivity.
Qed.

Lemma bcast2_row_l (op : ext → ext → ext) (a : ext) (r : list ext) :
  bcast2 (λ a b, Ok (op a b)) [a] r = Ok (op a <$> r).
Proof.
  unfold bcast2. case_decide as Hlen.
  - destruct r as [|b [|??]]; simplify_eq/=. reflexivity.
  - apply (mapM_Ok (op a)).
Qed.

Lemma bcast2_row_eq (op : ext → ext → ext) (r1 r2 : list ext) :
  length r1 = length r2 →
  bcast2 (λ a b, Ok (op a b)) r1 r2 = Ok (zip_with op r1 r2).
Proof.
  intros Hlen. unfold bcast2. rewrite decide_True by done.
  rewrite (mapM_Ok (λ p, op p.1 p.2)). f_equal.
  clear Hlen. revert r2. induction r1 as [|a r1 IH]; intros [|b r2]; simpl; try reflexivity.
  f_equal. apply IH.
Qed.

Lemma bcast2_col_batch (op : ext → ext → ext) (g : R → ext) (sg : list R)
    (X : list (list ext)) :
  length sg = length X →
  bcast2 (bcast2 (λ a b, Ok (op a b))) ((λ s, [g s]) <$> sg) X
  = Ok (zip_with (λ s r, op (g s) <$> r) sg X).
Proof.
  intros Hlen. unfold bcast2 at 1. rewrite length_fmap, decide_True by done.
  clear Hlen. revert X. induction sg as [|s sg IH]; intros [|r X]; simpl; try reflexivity.
  rewrite bcast2_row_l. simpl. rewrite IH. reflexivity.
Qed.

Lemma bcast2_batch_batch (op : ext → ext → ext) (X Y : list (list ext)) :
  same_shape X Y →
  bcast2 (bcast2 (λ a b, Ok (op a b))) X Y = Ok (zip_with (zip_with op) X Y).
Proof.
  intros Hs. unfold bcast2 at 1.
  rewrite decide_True by (by eapply Forall2_length).
  induction Hs as [|r1 r2 X Y Hr _ IH]; simpl; [reflexivity|].
  rewrite bcast2_row_eq by done. simpl. rewrite IH. reflexivity.
Qed.

Lemma bcast2_col_col (op : ext → ext → ext) (g h : R → ext) (sg : list R) :
  bcast2 (bcast2 (λ a b, Ok (op a b))) ((λ s, [g s]) <$> sg) ((λ s, [h s]) <$> sg)
  = Ok ((λ s, [op (g s) (h s)]) <$> sg).
Proof.
  rewrite bcast2_col_batch by (by rewrite length_fmap). f_equal.
  induction sg as [|s sg IH]; simpl; [reflexivity|]. f_equal. apply IH.
Qed.

Lemma same_shape_zip_with_l (f : R → list ext → list ext) (sg : list R)
    (X Y : list (list ext)) :
  (∀ s r, length (f s r) = length r) →
  length sg = length X → same_shape X Y →
  same_shape (zip_with f sg X) Y.
Proof.
  intros Hf Hlen Hs. revert sg Hlen.
  induction Hs as [|r1 r2 X Y Hr _ IH]; intros [|s sg] Hlen; simplify_eq/=;
    constructor.
  - by rewrite Hf.
  - by apply IH.
Qed.

Lemma same_shape_refl (X : list (list ext)) : same_shape X X.
Proof. induction X; constructor; done. Qed.

Lemma same_shape_sym (X Y : list (list ext)) : same_shape X Y → same_shape Y X.
Proof. induction 1; constructor; done. Qed.

Lemma fmap_col (f : ext → ext) (g : R → ext) (sg : list R) :
  fmap (M:=list) f <$> ((λ s, [g s]) <$> sg) = (λ s, [f (g s)]) <$> sg.
Proof. induction sg as [|s sg IH]; simpl; [reflexivity|]. f_equal. apply IH. Qed.

Lemma col_ext (g h : R → ext) (sg : list R) :
  Forall (λ s, g s = h s) sg →
  (λ s, [g s]) <$> sg = (λ s, [h s]) <$> sg.
Proof.
  induction 1 as [|s sg Hs _ IH]; simpl; [reflexivity|].
  f_equal; [by rewrite Hs | apply IH].
Qed.

Lemma zip_with_ext_Forall {A} (f g : R → A → A) (sg : list R) (X : list A) :
  Forall (λ s, ∀ r, f s r = g s r) sg →
  zip_with f sg X = zip_with g sg X.
Proof.
  intros H. revert X. induction H as [|s sg Hs _ IH]; intros [|r X]; simpl;
    try reflexivity.
  f_equal; [apply Hs | apply IH].
Qed.

(** ** Tensor operations on per-sample columns *)

Lemma reshape_col_fin (t : tensor) (sg : list R) :
  entries t = Fin <$> sg →
  reshape_col (to_dtype float32 t) = col float32 (t_device t) Fin sg.
Proof.
  intros He. unfold reshape_col, col, to_dtype, entries in *. simpl.
  rewrite He. f_equal. clear He.
  induction sg as [|s sg IH]; simpl; [reflexivity|]. f_equal. apply IH.
Qed.

Lemma tmap_col (f : ext → ext) d dev g sg :
  tmap f (col d dev g sg) = col d dev (λ s, f (g s)) sg.
Proof. unfold tmap, col. simpl. by rewrite fmap_col. Qed.

Lemma col_ext_pos d dev (g h : R → ext) (sg : list R) :
  Forall (λ s, 0 < s) sg → (∀ s, 0 < s → g s = h s) →
  col d dev g sg = col d dev h sg.
Proof.
  intros Hpos Hgh. unfold col. f_equal. apply col_ext.
  eapply Forall_impl; [exact Hpos | exact Hgh].
Qed.

Lemma tbin_col_col op d1 d2 dev g h sg :
  tbin op (col d1 dev g sg) (col d2 dev h sg)
  = Ok (col (promote d1 d2) dev (λ s, op (g s) (h s)) sg).
Proof.
  unfold tbin, col. simpl. rewrite decide_True by done.
  rewrite bcast2_col_col. reflexivity.
Qed.

Lemma tbin_col_batch op d1 d2 dev g sg X :
  length sg = length X →
  tbin op (col d1 dev g sg) (Tensor d2 dev X)
  = Ok (Tensor (promote d1 d2) dev (zip_with (λ s r, op (g s) <$> r) sg X)).
Proof.
  intros Hlen. unfold tbin, col. simpl. rewrite decide_True by done.
  rewrite bcast2_col_batch by done. reflexivity.
Qed.

Lemma tbin_batch_batch op d1 d2 dev X Y :
  same_shape X Y →
  tbin op (Tensor d1 dev X) (Tensor d2 dev Y)
  = Ok (Tensor (promote d1 d2) dev (zip_with (zip_with op) X Y)).
Proof.
  intros Hs. unfold tbin. simpl. rewrite decide_True by done.
  rewrite bcast2_batch_batch by done. reflexivity.
Qed.

Lemma flatten_col d dev g sg :
  flatten (col d dev g sg) = Tensor d dev [g <$> sg].
Proof.
  unfold flatten, col, entries. simpl. do 2 f_equal.
  induction sg as [|s sg IH]; simpl; [reflexivity|]. f_equal. apply IH.
Qed.

Lemma scale_rows_fmap (c : R → R) (sg : list R) (X : list (list ext)) :
  zip_with (λ s r, emul (Fin (c s)) <$> r) sg X = scale_rows (c <$> sg) X.
Proof.
  unfold scale_rows. revert X.
  induction sg as [|s sg IH]; intros [|r X]; simpl; try reflexivity.
  f_equal. apply IH.
Qed.

Lemma same_shape_scale_rows (c : list R) (X Y : list (list ext)) :
  length c = length X → same_shape X Y → same_shape (scale_rows c X) Y.
Proof.
  intros. apply same_shape_zip_with_l; [|done..].
  intros. by rewrite length_fmap.
Qed.

Lemma c_skip_edm_ext (sd s : R) :
  0 < s →
  ediv (Fin (sd ^ 2)) (eadd (epow2 (Fin s)) (Fin (sd ^ 2))) = Fin (c_skip_edm sd s).
Proof.
  intros Hs. unfold epow2, c_skip_edm. cbn [emul eadd].
  rewrite ediv_fin by nra. f_equal. field. nra.
Qed.

Lemma c_out_edm_ext (sd s : R) :
  0 < s →
  ediv (emul (Fin s) (Fin sd)) (esqrt (eadd (epow2 (Fin s)) (Fin (sd ^ 2))))
  = Fin (c_out_edm sd s).
Proof.
  intros Hs. unfold epow2, c_out_edm. cbn [emul eadd].
  pose proof (sqrt_sq_sum_pos s sd Hs) as Hq.
  replace (s * s + sd ^ 2) with (s ^ 2 + sd ^ 2) by ring.
  rewrite esqrt_fin by nra. rewrite ediv_fin by lra. reflexivity.
Qed.

Lemma c_in_edm_ext (sd s : R) :
  0 < s →
  ediv (Fin 1) (esqrt (eadd (Fin (sd ^ 2)) (epow2 (Fin s)))) = Fin (c_in_edm sd s).
Proof.
  intros Hs. unfold epow2, c_in_edm. cbn [emul eadd].
  pose proof (sqrt_sq_sum_pos s sd Hs) as Hq.
  replace (sd ^ 2 + s * s) with (s ^ 2 + sd ^ 2) by ring.
  replace (sd ^ 2 + s ^ 2) with (s ^ 2 + sd ^ 2) by ring.
  rewrite esqrt_fin by nra. rewrite ediv_fin by lra. reflexivity.
Qed.

Lemma c_noise_edm_ext (s : R) :
  0 < s → ediv (elog (Fin s)) (Fin 4) = Fin (c_noise_edm s).
Proof.
  intros Hs. unfold c_noise_edm. rewrite elog_fin by done.
  rewrite ediv_fin by lra. reflexivity.
Qed.

Lemma fmap_emul_1 (r : list ext) : emul (Fin 1) <$> r = r.
Proof.
  induction r as [|v r IH]; simpl; [reflexivity|].
  f_equal; [apply emul_1_l | apply IH].
Qed.

Lemma rows_emul_1 (X : list (list ext)) :
  fmap (M:=list) (λ v, emul (Fin 1) v) <$> X = X.
Proof.
  induction X as [|r X IH]; simpl; [reflexivity|].
  f_equal; [apply fmap_emul_1 | apply IH].
Qed.

Lemma smul_t_1 (x : tensor) : smul_t 1 x = x.
Proof. destruct x as [d dev X]. unfold smul_t, tmap. simpl. by rewrite rows_emul_1. Qed.

Lemma emul_inv_ediv (q : R) (v : ext) :
  0 < q → emul (Fin (1 / q)) v = ediv v (Fin q).
Proof.
  intros Hq. unfold ediv. rewrite einv_fin by lra. rewrite emul_comm.
  do 2 f_equal. unfold Rdiv. lra.
Qed.

Lemma add_neg_rows (sg : list R) (X FX : list (list ext)) :
  add_rows X (zip_with (λ s r, emul (eneg (Fin s)) <$> r) sg FX)
  = sub_rows X (scale_rows sg FX).
Proof.
  unfold add_rows, sub_rows, scale_rows. revert sg FX.
  induction X as [|r X IH]; intros [|s sg] [|f FX]; simpl; try reflexivity.
  f_equal; [|apply IH].
  clear. revert f. induction r as [|v r IH]; intros [|u f]; simpl; try reflexivity.
  f_equal; [|apply IH].
  unfold esub. f_equal. apply eneg_emul_pos.
Qed.

Lemma c_in_vp_ext (s : R) :
  ediv (Fin 1) (esqrt (eadd (epow2 (Fin s)) (Fin 1))) = Fin (1 / sqrt (s ^ 2 + 1)).
Proof.
  assert (Hq : 0 < sqrt (s ^ 2 + 1)) by (apply sqrt_lt_R0; nra).
  unfold epow2. cbn [emul eadd].
  replace (s * s + 1) with (s ^ 2 + 1) by ring.
  rewrite esqrt_fin by nra. rewrite ediv_fin by lra. reflexivity.
Qed.

Lemma c_in_vp_rows (sg : list R) (X : list (list ext)) :
  zip_with (λ s r, emul (ediv (Fin 1) (esqrt (eadd (epow2 (Fin s)) (Fin 1)))) <$> r)
    sg X
  = div_rows X ((λ s, sqrt (s ^ 2 + 1)) <$> sg).
Proof.
  rewrite (zip_with_ext_Forall _ (λ s r, emul (Fin (1 / sqrt (s ^ 2 + 1))) <$> r)).
  2:{ apply Forall_forall. intros s _ r. by rewrite c_in_vp_ext. }
  unfold div_rows. revert X.
  induction sg as [|s sg IH]; intros [|r X]; simpl; try reflexivity.
  f_equal; [|apply IH].
  assert (Hq : 0 < sqrt (s * (s * 1) + 1)) by (apply sqrt_lt_R0; nra).
  induction r as [|v r IHr]; simpl; [reflexivity|].
  f_equal; [by apply emul_inv_ediv | apply IHr].
Qed.

Lemma c_noise_ve_ext (s : R) :
  0 < s → elog (emul (Fin 0.5) (Fin s)) = Fin (ln (s / 2)).
Proof.
  intros Hs. cbn [emul]. rewrite elog_fin by lra. do 2 f_equal. lra.
Qed.

Section PrecondProps.
Context {K : Type} (model : call K → result tensor).

Lemma precond_tail_ok dt c_skip c_out c_in c_noise x cl kw cx F_x a b D w :
  scale c_in x = Ok cx →
  model (Call (to_dtype dt cx) (flatten c_noise) cl kw) = Ok F_x →
  t_dtype F_x = dt →
  scale c_skip x = Ok a →
  scale c_out (to_dtype float32 F_x) = Ok b →
  tadd a b = Ok D →
  precond_tail model dt c_skip c_out c_in c_noise x cl kw w
  = (Ok D, w ++ [Call (to_dtype dt cx) (flatten c_noise) cl kw]).
Proof.
  intros Hcx HF Hdt Ha Hb HD. unfold precond_tail, bind_M, lift, invoke.
  rewrite Hcx, HF, Hdt, bool_decide_eq_true_2 by done. simpl.
  rewrite Ha, Hb, HD. reflexivity.
Qed.

(** C1.  [EDMPrecond.forward]: for noise levels [sigma > 0], one per
    sample of [x], and a backbone [F] that answers in the dtype it was
    called with and in the shape of [x], the call returns
    [c_skip * x + c_out * F(c_in * x, c_noise)] with
    [c_skip = sigma_data^2 / (sigma^2 + sigma_data^2)],
    [c_out = sigma * sigma_data / sqrt(sigma^2 + sigma_data^2)],
    [c_in = 1 / sqrt(sigma_data^2 + sigma^2)] and [c_noise = ln(sigma) / 4];
    the backbone is invoked exactly once, on [c_in * x] and [c_noise]. *)
Theorem EDMPrecond_forward_spec (self : EDMPrecond) (x sigma : tensor)
    (class_labels : option tensor) (force_fp32 : bool) (kw : K)
    (sg : list R) (cl : option tensor) (F_x : tensor) (w : list (call K)) :
  let sd := edm_sigma_data self in
  let dt := select_dtype (edm_use_fp16 self) (edm_use_bf16 self) force_fp32 x in
  let c := Call (Tensor dt (t_device x) (scale_rows (c_in_edm sd <$> sg) (t_rows x)))
                (Tensor float32 (t_device x) [(λ s, Fin (c_noise_edm s)) <$> sg])
                cl kw in
  entries sigma = Fin <$> sg →
  Forall (λ s, 0 < s) sg →
  length sg = length (t_rows x) →
  t_device sigma = t_device x →
  prepare_class_labels (edm_label_dim self) (to_dtype float32 x) class_labels
    = Ok cl →
  model c = Ok F_x →
  t_dtype F_x = dt →
  t_device F_x = t_device x →
  same_shape (t_rows F_x) (t_rows x) →
  EDMPrecond_forward model self x sigma class_labels force_fp32 kw w
  = (Ok (Tensor float32 (t_device x)
           (add_rows (scale_rows (c_skip_edm sd <$> sg) (t_rows x))
                     (scale_rows (c_out_edm sd <$> sg) (t_rows F_x)))),
     w ++ [c]).
Proof.
  intros sd dt c Hsg Hpos Hlen Hdev Hcl HF Hdt HdevF Hshape.
  unfold EDMPrecond_forward.
  rewrite (reshape_col_fin _ _ Hsg), Hdev.
  unfold bind_M at 1. unfold lift at 1. rewrite Hcl.
  fold sd.
  assert (Hsel : select_dtype (edm_use_fp16 self) (edm_use_bf16 self)
                   force_fp32 (to_dtype float32 x) = dt) by reflexivity.
  rewrite Hsel.
  unfold tpow2, tsqrt, tadd_s, sadd_t, sdiv_t, tmul_s, tdiv_s, tlog, tdiv.
  rewrite !tmap_col. rewrite tbin_col_col.
  unfold bind_M at 1. unfold lift at 1. simpl promote.
  rewrite (col_ext_pos _ _ _ _ sg Hpos (c_skip_edm_ext sd)).
  rewrite (col_ext_pos _ _ _ _ sg Hpos (c_out_edm_ext sd)).
  rewrite (col_ext_pos _ _ _ _ sg Hpos (c_in_edm_ext sd)).
  rewrite (col_ext_pos _ _ _ _ sg Hpos c_noise_edm_ext).
  destruct x as [dx devx X], F_x as [dF devF FX]. simpl in *. subst devF dF.
  unfold to_dtype. simpl.
  erewrite precond_tail_ok; cycle 1.
  - simpl. unfold tmul. rewrite tbin_col_batch by done. reflexivity.
  - unfold to_dtype. simpl. rewrite flatten_col, scale_rows_fmap. exact HF.
  - reflexivity.
  - simpl. unfold tmul. rewrite tbin_col_batch by done. reflexivity.
  - simpl. unfold tmul, to_dtype. simpl.
    rewrite tbin_col_batch; [reflexivity|].
    rewrite Hlen. symmetry. by eapply Forall2_length.
  - simpl. unfold tadd. rewrite !scale_rows_fmap.
    rewrite tbin_batch_batch; [reflexivity|].
    apply same_shape_scale_rows; [by rewrite length_fmap|].
    apply same_shape_sym, same_shape_scale_rows; [|done].
    rewrite length_fmap, Hlen. symmetry. by eapply Forall2_length.
  - unfold to_dtype. simpl. rewrite flatten_col, scale_rows_fmap. reflexivity.
Qed.

(** C3.  [VPPrecond.forward] and [VEPrecond.forward] keep [x] itself as
    the skip term (c_skip = 1): for noise levels [sigma > 0], one per
    sample, and a backbone that answers in the dtype it was called with
    and in the shape of [x],
    - VP returns [x - sigma * F(x / sqrt(sigma^2 + 1), (M - 1) * sigma_inv(sigma))];
    - VE returns [x + sigma * F(x, ln(sigma / 2))], the input being passed
      unscaled. *)
Theorem VP_VE_forward_spec (x sigma : tensor) (class_labels : option tensor)
    (force_fp32 : bool) (kw : K) (sg : list R) (w : list (call K)) :
  entries sigma = Fin <$> sg →
  Forall (λ s, 0 < s) sg →
  length sg = length (t_rows x) →
  t_device sigma = t_device x →
  (∀ (self : VPPrecond) (cl : option tensor) (F_x : tensor),
     let dt := select_dtype (vp_use_fp16 self) (vp_use_bf16 self) force_fp32 x in
     let c := Call (Tensor dt (t_device x)
                      (div_rows (t_rows x) ((λ s, sqrt (s ^ 2 + 1)) <$> sg)))
                   (flatten (smul_t (IZR (vp_M self - 1))
                      (VPPrecond_sigma_inv self (col float32 (t_device x) Fin sg))))
                   cl kw in
     prepare_class_labels (vp_label_dim self) (to_dtype float32 x) class_labels
       = Ok cl →
     model c = Ok F_x →
     t_dtype F_x = dt → t_device F_x = t_device x →
     same_shape (t_rows F_x) (t_rows x) →
     VPPrecond_forward model self x sigma class_labels force_fp32 kw w
     = (Ok (Tensor float32 (t_device x)
              (sub_rows (t_rows x) (scale_rows sg (t_rows F_x)))),
        w ++ [c]))
  ∧
  (∀ (self : VEPrecond) (cl : option tensor) (F_x : tensor),
     let dt := select_dtype (ve_use_fp16 self) (ve_use_bf16 self) force_fp32 x in
     let c := Call (Tensor dt (t_device x) (t_rows x))
                   (Tensor float32 (t_device x) [(λ s, Fin (ln (s / 2))) <$> sg])
                   cl kw in
     prepare_class_labels (ve_label_dim self) (to_dtype float32 x) class_labels
       = Ok cl →
     model c = Ok F_x →
     t_dtype F_x = dt → t_device F_x = t_device x →
     same_shape (t_rows F_x) (t_rows x) →
     VEPrecond_forward model self x sigma class_labels force_fp32 kw w
     = (Ok (Tensor float32 (t_device x)
              (add_rows (t_rows x) (scale_rows sg (t_rows F_x)))),
        w ++ [c])).
Proof.
  intros Hsg Hpos Hlen Hdev. split.
  - intros self cl F_x dt c Hcl HF Hdt HdevF Hshape.
    unfold VPPrecond_forward.
    rewrite (reshape_col_fin _ _ Hsg), Hdev.
    unfold bind_M at 1. unfold lift at 1. rewrite Hcl.
    assert (Hsel : select_dtype (vp_use_fp16 self) (vp_use_bf16 self)
                     force_fp32 (to_dtype float32 x) = dt) by reflexivity.
    rewrite Hsel.
    destruct x as [dx devx X], F_x as [dF devF FX]. simpl in *. subst devF dF.
    unfold to_dtype. cbn [t_device t_rows t_dtype].
    assert (HlenF : length sg = length FX).
    { rewrite Hlen. symmetry. by eapply Forall2_length. }
    erewrite precond_tail_ok; cycle 1.
    + simpl. unfold tmul, tpow2, tsqrt, tadd_s, sdiv_t. rewrite !tmap_col.
              rewrite tbin_col_batch by done. reflexivity.
    + unfold to_dtype. simpl. rewrite c_in_vp_rows. exact HF.
    + reflexivity.
    + simpl. reflexivity.
    + unfold scale, tmul, tneg, to_dtype. rewrite tmap_col.
      cbn [t_device t_rows t_dtype].
      rewrite tbin_col_batch by done. reflexivity.
    + unfold tadd. rewrite smul_t_1. unfold to_dtype. simpl.
      rewrite tbin_batch_batch; [reflexivity|].
      apply same_shape_sym, same_shape_zip_with_l; [|done..].
      intros. by rewrite length_fmap.
    + unfold to_dtype. simpl. rewrite c_in_vp_rows.
      fold (add_rows X (zip_with (λ s r, emul (eneg (Fin s)) <$> r) sg FX)).
      rewrite add_neg_rows. reflexivity.
  - intros self cl F_x dt c Hcl HF Hdt HdevF Hshape.
    unfold VEPrecond_forward.
    rewrite (reshape_col_fin _ _ Hsg), Hdev.
    unfold bind_M at 1. unfold lift at 1. rewrite Hcl.
    assert (Hsel : select_dtype (ve_use_fp16 self) (ve_use_bf16 self)
                     force_fp32 (to_dtype float32 x) = dt) by reflexivity.
    rewrite Hsel.
    unfold tlog, smul_t at 1. rewrite !tmap_col.
    rewrite (col_ext_pos _ _ _ _ sg Hpos c_noise_ve_ext).
    destruct x as [dx devx X], F_x as [dF devF FX]. simpl in *. subst devF dF.
    unfold to_dtype. cbn [t_device t_rows t_dtype].
    assert (HlenF : length sg = length FX).
    { rewrite Hlen. symmetry. by eapply Forall2_length. }
    erewrite precond_tail_ok; cycle 1.
    + simpl. reflexivity.
    + rewrite smul_t_1. unfold to_dtype. simpl. rewrite flatten_col. exact HF.
    + reflexivity.
    + simpl. reflexivity.
    + simpl. unfold tmul, to_dtype. simpl.
      rewrite tbin_col_batch by done. reflexivity.
    + unfold tadd. rewrite smul_t_1. unfold to_dtype. simpl.
      rewrite tbin_batch_batch; [reflexivity|].
      apply same_shape_sym, same_shape_zip_with_l; [|done..].
      intros. by rewrite length_fmap.
    + rewrite smul_t_1. unfold to_dtype. simpl. rewrite flatten_col.
      rewrite (scale_rows_fmap (λ s, s)), list_fmap_id. reflexivity.
Qed.
End PrecondProps.

(** ** [EDMPrecond_CTM]: the noise label *)

Lemma tmap_tmap (f g : ext → ext) (t : tensor) :
  tmap f (tmap g t) = tmap (λ v, f (g v)) t.
Proof.
  destruct t as [d dev X]. unfold tmap. simpl. f_equal.
  induction X as [|r X IH]; simpl; [reflexivity|].
  f_equal; [|apply IH]. by rewrite <- list_fmap_compose.
Qed.

Lemma entries_tmap (f : ext → ext) (t : tensor) :
  entries (tmap f t) = f <$> entries t.
Proof.
  destruct t as [d dev X]. unfold entries, tmap. simpl.
  induction X as [|r X IH]; simpl; [reflexivity|].
  rewrite fmap_app. f_equal. apply IH.
Qed.

Lemma noise_label_point (r : R) :
  ediv (elog (eadd (esub (eexp (ediv (Fin r) (Fin 250))) (Fin 1e-44)) (Fin 1e-44)))
       (Fin 4)
  = Fin (r / 1000).
Proof.
  rewrite ediv_fin by lra. cbn [eexp esub eneg eadd].
  match goal with
  | |- context [elog (Fin ?a)] => replace a with (exp (r / 250)) by lra
  end.
  rewrite elog_fin by apply exp_pos. rewrite ln_exp.
  rewrite ediv_fin by lra. f_equal. lra.
Qed.

Lemma ctm_noise_label_tmap (t : tensor) :
  ctm_noise_label t
  = tmap (λ v, ediv (elog (eadd (esub (eexp (ediv v (Fin 250))) (Fin 1e-44))
                             (Fin 1e-44))) (Fin 4)) t.
Proof.
  unfold ctm_noise_label, unrescaling_t, tdiv_s, tlog, tadd_s, tsub_s, texp.
  by rewrite !tmap_tmap.
Qed.

Lemma entries_noise_label (t : tensor) :
  Forall is_fin (entries t) →
  entries (ctm_noise_label t) = (λ v, Fin (to_real v / 1000)) <$> entries t.
Proof.
  intros Hfin. rewrite ctm_noise_label_tmap, entries_tmap.
  induction Hfin as [|v l [r ->] _ IH]; simpl; [reflexivity|].
  f_equal; [apply noise_label_point | apply IH].
Qed.

Lemma flatten_noise_label (t : tensor) :
  Forall is_fin (entries t) → flatten (ctm_noise_label t) = thousandth t.
Proof.
  intros Hfin. unfold flatten, thousandth.
  rewrite entries_noise_label by done.
  rewrite ctm_noise_label_tmap. reflexivity.
Qed.

Lemma existsb_fmap_fin (p : ext → bool) (g : ext → R) (l : list ext) :
  (∀ r, p (Fin r) = false) → existsb p ((λ v, Fin (g v)) <$> l) = false.
Proof.
  intros Hp. induction l as [|v l IH]; [reflexivity|].
  cbn [fmap list_fmap existsb]. rewrite Hp. apply IH.
Qed.

Lemma mapM_nil_Ok {A B} (f : A → result B) (r : list B) :
  mapM f [] = Ok r → r = [].
Proof. intros H. by injection H. Qed.

Lemma mapM_cons_Ok {A B} (f : A → result B) (a : A) (l : list A) (r : list B) :
  mapM f (a :: l) = Ok r →
  ∃ b r', f a = Ok b ∧ mapM f l = Ok r' ∧ r = b :: r'.
Proof.
  cbn [mapM]. unfold mbind, result_bind, mret, result_ret.
  destruct (f a) as [b|]; [|done]. destruct (mapM f l) as [r'|]; [|done].
  intros H. injection H as <-. by eexists _, _.
Qed.


Lemma eye_index_length (n : nat) (y : list Z) (rows : list (list ext)) :
  eye_index n y = Ok rows → (length (concat rows) `mod` n = 0)%nat.
Proof.
  unfold eye_index. revert rows.
  induction y as [|i y IH]; intros rows Hrows.
  - apply mapM_nil_Ok in Hrows as ->. apply Nat.Div0.mod_0_l.
  - apply mapM_cons_Ok in Hrows as (b & r' & Hb & Hr' & ->).
    case_decide; [|done]. injection Hb as <-.
    simpl. rewrite length_app. unfold eye_row. rewrite length_fmap, length_seq.
    rewrite <- Nat.Div0.add_mod_idemp_l, Nat.Div0.mod_same. by apply IH.
Qed.


Section CTMProps.
Variable model : ctm_call → result tensor.

(** What [forward] does on the student path when the time arguments are
    finite; the two claims about that path are read off from it. *)
Lemma ctm_forward_student (self : EDMPrecond_CTM)
    (rescaled_x rescaled_t : tensor) (s : option tensor) (teacher : bool)
    (x_T : option tensor) (kw : gmap string (list Z)) (cl : option tensor)
    (w : list ctm_call) :
  ctm_teacher self = false →
  Forall is_fin (entries rescaled_t) →
  (∀ st, s = Some st → Forall is_fin (entries st)) →
  ctm_prepare_class_labels self rescaled_x kw = Ok cl →
  let c := CtmCall (to_dtype (ctm_dtype self) rescaled_x) (thousandth rescaled_t)
                   (thousandth <$> s) cl (to_dtype (ctm_dtype self) <$> x_T) in
  EDMPrecond_CTM_forward model self rescaled_x rescaled_t s teacher x_T kw w
  = (model c, w ++ [c]).
Proof.
  intros Hteach Ht Hs Hcl c. unfold EDMPrecond_CTM_forward.
  unfold bind_M at 1. unfold lift at 1. rewrite Hcl, Hteach.
  unfold bind_M, lift, any_isinf, any_isnan.
  rewrite entries_noise_label by done.
  rewrite !existsb_fmap_fin by done. simpl.
  unfold ctm_invoke. rewrite flatten_noise_label by done.
  assert (Hs' : flatten <$> (ctm_noise_label <$> s) = thousandth <$> s).
  { destruct s as [st|]; simpl; [|reflexivity].
    by rewrite flatten_noise_label by auto. }
  rewrite Hs'. reflexivity.
Qed.

(** C4.  On the student path of [EDMPrecond_CTM.forward], over exact
    reals, the noise label handed to the backbone is [rescaled_t / 1000]:
    for finite [rescaled_t] the two assertions on [t] pass, and the
    optional second time argument [s] is transformed in the same way. *)
Theorem ctm_noise_label_exact (self : EDMPrecond_CTM)
    (rescaled_x rescaled_t : tensor) (s : option tensor) (teacher : bool)
    (x_T : option tensor) (kw : gmap string (list Z)) (cl : option tensor)
    (w : list ctm_call) :
  ctm_teacher self = false →
  Forall is_fin (entries rescaled_t) →
  (∀ st, s = Some st → Forall is_fin (entries st)) →
  ctm_prepare_class_labels self rescaled_x kw = Ok cl →
  let t := ctm_noise_label rescaled_t in
  entries t = (λ v, Fin (to_real v / 1000)) <$> entries rescaled_t
  ∧ assert (negb (any_isinf t)) = Ok tt
  ∧ assert (negb (any_isnan t)) = Ok tt
  ∧ ∃ c, EDMPrecond_CTM_forward model self rescaled_x rescaled_t s teacher x_T kw w
         = (model c, w ++ [c])
       ∧ ctm_noise_labels c = thousandth rescaled_t
       ∧ ctm_noise_labels_s c = thousandth <$> s.
Proof.
  intros Hteach Ht Hs Hcl t. subst t.
  split; [by apply entries_noise_label|].
  unfold any_isinf, any_isnan. rewrite entries_noise_label by done.
  rewrite !existsb_fmap_fin by done.
  do 2 (split; [reflexivity|]).
  eexists. split; [by apply ctm_forward_student|]. split; reflexivity.
Qed.

(** C2, as the code has it.  On the student path [forward] hands
    [rescaled_x] to the backbone with its entries unchanged (cast to the
    working dtype) and returns the backbone's answer as it is: no input,
    skip or output coefficient is applied inside [forward]. *)
Theorem ctm_forward_passes_through (self : EDMPrecond_CTM)
    (rescaled_x rescaled_t : tensor) (s : option tensor) (teacher : bool)
    (x_T : option tensor) (kw : gmap string (list Z)) (cl : option tensor)
    (w : list ctm_call) :
  ctm_teacher self = false →
  Forall is_fin (entries rescaled_t) →
  (∀ st, s = Some st → Forall is_fin (entries st)) →
  ctm_prepare_class_labels self rescaled_x kw = Ok cl →
  ∃ c, EDMPrecond_CTM_forward model self rescaled_x rescaled_t s teacher x_T kw w
       = (model c, w ++ [c])
     ∧ ctm_x c = to_dtype (ctm_dtype self) rescaled_x
     ∧ t_rows (ctm_x c) = t_rows rescaled_x.
Proof.
  intros Hteach Ht Hs Hcl.
  eexists. split; [by apply ctm_forward_student|]. split; reflexivity.
Qed.


End CTMProps.

(** ** [EDMPrecond_CTM]: two concrete calls *)

Lemma ex_c_in_lt_1 : ex_c_in < 1.
Proof.
  unfold ex_c_in. replace (0 / 250) with 0 by lra. rewrite exp_0.
  assert (H : 1 < sqrt ((1 - 1e-44) * (1 - 1e-44) + 0.5 ^ 2)).
  { rewrite <- sqrt_1 at 1. apply sqrt_lt_1; lra. }
  apply Rmult_lt_reg_r with (sqrt ((1 - 1e-44) * (1 - 1e-44) + 0.5 ^ 2)); [lra|].
  unfold Rdiv. rewrite Rmult_assoc, Rinv_l by lra. lra.
Qed.

(** C2, counterexample.  With [sigma_data = 0.5], [rescaled_t = 0] and the
    backbone that returns its input, [get_c_in] gives a coefficient below 1,
    yet the backbone receives [rescaled_x] itself, not [c_in * rescaled_x],
    and [forward] returns the backbone's answer as it is. *)
Lemma ctm_forward_does_not_scale :
  ∃ c_in scaled,
    get_c_in ex_student (unrescaling_t ex_t) = Ok c_in
    ∧ tmul (reshape_col c_in) ex_x = Ok scaled
    ∧ EDMPrecond_CTM_forward ex_backbone ex_student ex_x ex_t None false None ∅ []
      = (Ok ex_x, [CtmCall ex_x (thousandth ex_t) None None None])
    ∧ scaled ≠ ex_x.
Proof.
  exists (Tensor float32 cpu [[Fin ex_c_in]]),
         (Tensor float32 cpu [[Fin (ex_c_in * 1)]]).
  split; [|split; [|split]].
  - unfold get_c_in, ex_student, ex_t. cbn [ctm_inner_parametrization ctm_sigma_data].
    rewrite decide_True by reflexivity. f_equal.
    unfold sdiv_t, tpow_half, tadd_s, tpow2, unrescaling_t, tsub_s, texp, tdiv_s.
    rewrite !tmap_tmap. unfold tmap. cbn [t_dtype t_device t_rows fmap list_fmap].
    do 3 f_equal.
    rewrite ediv_fin by lra. cbn [eexp esub eneg eadd epow2 emul].
    unfold epow_half. rewrite esqrt_fin.
    + rewrite ediv_fin; [reflexivity|].
      apply Rgt_not_eq, sqrt_lt_R0.
      replace (0 / 250) with 0 by lra. rewrite exp_0. lra.
    + replace (0 / 250) with 0 by lra. rewrite exp_0. lra.
  - reflexivity.
  - apply (ctm_forward_student ex_backbone ex_student ex_x ex_t None false None ∅ None []).
    + reflexivity.
    + repeat constructor. by exists 0.
    + intros st Hst. discriminate Hst.
    + reflexivity.
  - intros H. injection H as H. pose proof ex_c_in_lt_1. lra.
Qed.


(** ** [iDDPMPrecond]: the noise-level table *)

Section Table.
Variables (C_1 C_2 : R) (M : nat).
Hypothesis C_1_pos : 0 < C_1.
Hypothesis C_1_le_1 : C_1 <= 1.
Hypothesis C_2_nonneg : 0 <= C_2.

Lemma theta_bounds (j : nat) :
  (1 ≤ M)%nat → (j ≤ M)%nat → 0 <= theta C_2 M j <= PI / 2.
Proof.
  intros HM Hj. unfold theta.
  assert (HM' : 1 <= INR M) by (apply (le_INR 1); lia).
  assert (Hj' : INR j <= INR M) by (by apply le_INR).
  assert (Hj0 : 0 <= INR j) by apply pos_INR.
  pose proof PI_RGT_0 as Hpi.
  assert (Hq : 0 <= INR j / INR M <= 1).
  { split.
    - apply Rmult_le_pos; [done|]. left. apply Rinv_0_lt_compat. lra.
    - apply Rmult_le_reg_r with (INR M); [lra|].
      unfold Rdiv. rewrite Rmult_assoc, Rinv_l by lra. lra. }
  assert (Hc : 0 < / (C_2 + 1) <= 1).
  { split; [apply Rinv_0_lt_compat; lra|].
    rewrite <- Rinv_1. apply Rinv_le_contravar; lra. }
  assert (Hh : 0.5 = / 2) by lra. rewrite Hh.
  replace (/ 2 * PI * INR j / INR M / (C_2 + 1))
    with (PI / 2 * ((INR j / INR M) * / (C_2 + 1))) by (field; lra).
  assert (Hp : 0 <= INR j / INR M * / (C_2 + 1) <= 1) by nra.
  nra.
Qed.

Lemma theta_pos (j : nat) : (1 ≤ j)%nat → (j ≤ M)%nat → 0 < theta C_2 M j.
Proof.
  intros Hj HM. unfold theta.
  assert (Hj' : 0 < INR j) by (apply lt_0_INR; lia).
  assert (HM' : 0 < INR M) by (apply lt_0_INR; lia).
  pose proof PI_RGT_0 as Hpi.
  apply Rdiv_lt_0_compat; [|lra].
  apply Rdiv_lt_0_compat; [|lra]. nra.
Qed.

Lemma theta_mono (j : nat) :
  (1 ≤ j)%nat → (j ≤ M)%nat → theta C_2 M (j - 1) <= theta C_2 M j.
Proof.
  intros Hj HM. unfold theta.
  assert (Hle : INR (j - 1) <= INR j) by (apply le_INR; lia).
  assert (HM' : 0 < INR M) by (apply lt_0_INR; lia).
  pose proof PI_RGT_0 as Hpi.
  assert (Ha : 0 < / INR M) by (by apply Rinv_0_lt_compat).
  assert (Hc : 0 < / (C_2 + 1)) by (apply Rinv_0_lt_compat; lra).
  unfold Rdiv.
  apply Rmult_le_compat_r; [lra|]. apply Rmult_le_compat_r; [lra|]. nra.
Qed.

Lemma alpha_bar_fin (j : nat) :
  (1 ≤ M)%nat → alpha_bar C_2 M j = Fin (alpha_bar_R C_2 M j).
Proof.
  intros HM. unfold alpha_bar, alpha_bar_R, theta.
  assert (HM' : 0 < INR M) by (apply lt_0_INR; lia).
  cbn [emul]. rewrite !ediv_fin by lra. reflexivity.
Qed.

Lemma alpha_bar_R_pos (j : nat) :
  (1 ≤ j)%nat → (j ≤ M)%nat → 0 < alpha_bar_R C_2 M j.
Proof.
  intros Hj HM. unfold alpha_bar_R.
  assert (0 < sin (theta C_2 M j)); [|nra].
  pose proof (theta_bounds j ltac:(lia) HM). pose proof (theta_pos j Hj HM).
  pose proof PI_RGT_0. apply sin_gt_0; lra.
Qed.

Lemma alpha_bar_R_mono (j : nat) :
  (1 ≤ j)%nat → (j ≤ M)%nat →
  0 <= alpha_bar_R C_2 M (j - 1) <= alpha_bar_R C_2 M j.
Proof.
  intros Hj HM. unfold alpha_bar_R.
  pose proof (theta_bounds j ltac:(lia) HM) as Hb.
  pose proof (theta_bounds (j - 1) ltac:(lia) ltac:(lia)) as Hb'.
  pose proof (theta_mono j Hj HM) as Hm. pose proof PI_RGT_0 as Hpi.
  assert (H0 : 0 <= sin (theta C_2 M (j - 1))) by (apply sin_ge_0; lra).
  assert (H1 : sin (theta C_2 M (j - 1)) <= sin (theta C_2 M j))
    by (apply sin_incr_1; lra).
  nra.
Qed.

(** The clipped ratio lies in (0, 1]. *)
Lemma clipped_ratio_bounds (j : nat) :
  (1 ≤ j)%nat → (j ≤ M)%nat →
  0 < Rmax (alpha_bar_R C_2 M (j - 1) / alpha_bar_R C_2 M j) C_1 <= 1.
Proof.
  intros Hj HM. pose proof (alpha_bar_R_pos j Hj HM) as Hp.
  pose proof (alpha_bar_R_mono j Hj HM) as [H0 H1].
  split.
  - eapply Rlt_le_trans; [exact C_1_pos | apply Rmax_r].
  - apply Rmax_lub; [|done].
    apply Rmult_le_reg_r with (alpha_bar_R C_2 M j); [done|].
    unfold Rdiv. rewrite Rmult_assoc, Rinv_l by lra. lra.
Qed.

Lemma u_next_ge (j : nat) (b : R) :
  (1 ≤ j)%nat → (j ≤ M)%nat → 0 <= b → b <= u_next C_1 C_2 M j b.
Proof.
  intros Hj HM Hb. unfold u_next.
  pose proof (clipped_ratio_bounds j Hj HM) as [Hc0 Hc1].
  set (c := Rmax _ _) in *.
  rewrite <- (sqrt_square b) at 1 by done.
  apply sqrt_le_1_alt.
  assert (b * b + 1 <= (b * b + 1) / c); [|lra].
  apply Rmult_le_reg_r with c; [done|].
  unfold Rdiv. rewrite Rmult_assoc, Rinv_l by lra. nra.
Qed.

Lemma u_step_fin (ur : list R) (j : nat) (b : R) :
  (1 ≤ j)%nat → (j ≤ M)%nat → 0 <= b → ur !! j = Some b →
  u_step C_1 C_2 M (Fin <$> ur) j
  = Fin <$> <[(j - 1)%nat := u_next C_1 C_2 M j b]> ur.
Proof.
  intros Hj HM Hb Hlk. unfold u_step.
  rewrite list_fmap_insert. f_equal.
  rewrite (list_lookup_total_correct (Fin <$> ur) j (Fin b))
    by (by rewrite list_lookup_fmap, Hlk).
  rewrite !alpha_bar_fin by lia.
  pose proof (alpha_bar_R_pos j Hj HM) as Hp.
  pose proof (clipped_ratio_bounds j Hj HM) as [Hc0 Hc1].
  pose proof (u_next_ge j b Hj HM Hb) as Hge.
  unfold epow2. cbn [emul eadd].
  rewrite (ediv_fin (alpha_bar_R C_2 M (j - 1))) by lra.
  cbn [eclip_min]. rewrite ediv_fin by lra.
  cbn [esub eneg eadd]. unfold u_next.
  rewrite esqrt_fin; [reflexivity|].
  assert (b * b + 1 <= (b * b + 1) /
            Rmax (alpha_bar_R C_2 M (j - 1) / alpha_bar_R C_2 M j) C_1); [|nra].
  set (c := Rmax _ _) in *.
  apply Rmult_le_reg_r with c; [done|].
  unfold Rdiv. rewrite Rmult_assoc, Rinv_l by lra. nra.
Qed.

Lemma table_inv_step (j : nat) (ur : list R) :
  (1 ≤ j)%nat → (j ≤ M)%nat → table_inv M j ur →
  ∃ ur', u_step C_1 C_2 M (Fin <$> ur) j = Fin <$> ur' ∧ table_inv M (j - 1) ur'.
Proof.
  intros Hj HM (Hlen & Hpos & HM0 & Hmono).
  destruct (lookup_lt_is_Some_2 ur j ltac:(lia)) as [b Hb].
  assert (Hb0 : 0 <= b).
  { eapply (Forall_lookup_1 _ _ _ _ Hpos Hb). }
  pose proof (u_next_ge j b Hj HM Hb0) as Hge.
  exists (<[(j - 1)%nat := u_next C_1 C_2 M j b]> ur).
  split; [by apply u_step_fin|].
  split; [by rewrite length_insert|].
  split; [apply Forall_insert; [done|lra]|].
  split; [rewrite list_lookup_insert_ne by lia; done|].
  intros i a b' Hi Ha Hb'.
  destruct (decide (i = j - 1)%nat) as [->|Hne].
  - rewrite list_lookup_insert_eq in Ha by lia.
    rewrite list_lookup_insert_ne in Hb' by lia.
    replace (S (j - 1)) with j in Hb' by lia. simplify_eq. done.
  - rewrite list_lookup_insert_ne in Ha by lia.
    rewrite list_lookup_insert_ne in Hb' by lia.
    apply (Hmono i a b'); [lia|done..].
Qed.

Lemma table_inv_loop (n : nat) (ur : list R) :
  (n ≤ M)%nat → table_inv M n ur →
  ∃ ur', foldl (u_step C_1 C_2 M) (Fin <$> ur) (reverse (seq 1 n)) = Fin <$> ur'
         ∧ table_inv M 0 ur'.
Proof.
  revert ur. induction n as [|n IH]; intros ur Hn Hinv.
  - exists ur. split; [reflexivity|done].
  - rewrite seq_S, reverse_snoc. cbn [foldl]. change (1 + n)%nat with (S n).
    destruct (table_inv_step (S n) ur ltac:(lia) Hn Hinv) as (ur1 & -> & Hinv1).
    replace (S n - 1)%nat with n in Hinv1 by lia.
    apply IH; [lia|done].
Qed.

Lemma table_inv_init : table_inv M M (replicate (M + 1) 0).
Proof.
  split; [by rewrite length_replicate|].
  split; [apply Forall_replicate; lra|].
  split; [apply lookup_replicate_2; lia|].
  intros i a b Hi Ha Hb.
  apply lookup_replicate in Ha as [-> _]. apply lookup_replicate in Hb as [-> _].
  lra.
Qed.

Lemma table_inv_chain (ur : list R) (i j : nat) (a b : R) :
  table_inv M 0 ur → (i ≤ j)%nat → ur !! i = Some a → ur !! j = Some b → b <= a.
Proof.
  intros (Hlen & Hpos & HM0 & Hmono) Hij. revert b.
  induction Hij as [|j Hij IH]; intros b Ha Hb.
  - simplify_eq. lra.
  - destruct (lookup_lt_is_Some_2 ur j) as [c Hc].
    { apply lookup_lt_Some in Hb. lia. }
    pose proof (IH c Ha Hc). pose proof (Hmono j c b ltac:(lia) Hc Hb). lra.
Qed.
End Table.

Lemma getitem_nonneg (l : list ext) (i : Z) (v : ext) :
  (0 ≤ i)%Z → l !! Z.to_nat i = Some v → getitem l i = Ok v.
Proof.
  intros Hi Hv. unfold getitem. pose proof (lookup_lt_Some _ _ _ Hv) as Hlt.
  cbv zeta. destruct (decide (i < 0)%Z) as [?|_]; [lia|].
  rewrite decide_True by lia. by rewrite Hv.
Qed.

Lemma getitem_last (l : list ext) (v : ext) :
  l !! (length l - 1)%nat = Some v → getitem l (-1) = Ok v.
Proof.
  intros Hv. unfold getitem. pose proof (lookup_lt_Some _ _ _ Hv) as Hlt.
  cbv zeta. destruct (decide (-1 < 0)%Z) as [_|?]; [|lia].
  rewrite decide_True by lia.
  replace (Z.to_nat (Z.of_nat (length l) + -1)) with (length l - 1)%nat by lia.
  by rewrite Hv.
Qed.

(** C9.  Over exact reals, for [0 < C_1 <= 1] and [C_2 >= 0], the table [u]
    built by [iDDPMPrecond.__init__] is finite and non-increasing:
    [u[M] = 0], every backward step gives [u[j - 1] >= u[j]], and
    [sigma_max = u[0] >= sigma_min = u[M - 1] >= 0]. *)
Theorem iDDPM_u_nonincreasing (C_1 C_2 : R) (M : nat) :
  0 < C_1 → C_1 <= 1 → 0 <= C_2 →
  ∃ (ur : list R) (smin smax : R),
    iDDPMPrecond_init C_1 C_2 M
    = Ok {| iddpm_C_1 := C_1; iddpm_C_2 := C_2; iddpm_M := M;
            iddpm_u := Fin <$> ur;
            iddpm_sigma_min := Fin smin; iddpm_sigma_max := Fin smax |}
    ∧ length ur = (M + 1)%nat
    ∧ ur !! M = Some 0
    ∧ (∀ j a b, (1 ≤ j ≤ M)%nat →
         ur !! (j - 1)%nat = Some a → ur !! j = Some b → b <= a)
    ∧ ur !! 0%nat = Some smax
    ∧ ur !! (M - 1)%nat = Some smin
    ∧ 0 <= smin <= smax.
Proof.
  intros HC1 HC1' HC2.
  destruct (table_inv_loop C_1 C_2 M HC1 HC1' HC2 M (replicate (M + 1) 0)
              ltac:(lia) (table_inv_init M)) as (ur & Hur & Hinv).
  rewrite fmap_replicate in Hur.
  pose proof Hinv as (Hlen & Hpos & HM0 & Hmono).
  destruct (lookup_lt_is_Some_2 ur 0 ltac:(lia)) as [smax Hmax].
  destruct (lookup_lt_is_Some_2 ur (M - 1) ltac:(lia)) as [smin Hmin].
  exists ur, smin, smax.
  split; [|split; [done|split; [done|split; [|split; [done|split; [done|]]]]]].
  - unfold iDDPMPrecond_init, u_table. rewrite Hur.
    assert (Hgmin : getitem (Fin <$> ur) (Z.of_nat M - 1) = Ok (Fin smin)).
    { destruct M as [|M'].
      - apply getitem_last. rewrite length_fmap, Hlen, list_lookup_fmap.
        change (0 + 1 - 1)%nat with (0 - 1)%nat. by rewrite Hmin.
      - apply getitem_nonneg; [lia|].
        replace (Z.to_nat (Z.of_nat (S M') - 1)) with (S M' - 1)%nat by lia.
        by rewrite list_lookup_fmap, Hmin. }
    rewrite Hgmin. cbn [mbind result_bind].
    rewrite (getitem_nonneg _ 0 (Fin smax)); [reflexivity|lia|].
    change (Z.to_nat 0) with 0%nat. by rewrite list_lookup_fmap, Hmax.
  - intros j a b Hj Ha Hb. apply (Hmono (j - 1)%nat a b); [lia|done|].
    by replace (S (j - 1)) with j by lia.
  - split.
    + by eapply (Forall_lookup_1 _ _ _ _ Hpos Hmin).
    + eapply (table_inv_chain M ur 0 (M - 1) smax smin); [done|lia|done..].
Qed.

(** ** [cm_train.main]: the target model *)

Lemma expand1_row_eq (r1 r2 : list ext) :
  length r1 = length r2 → expand1 (λ _ b, Ok b) r1 r2 = Ok r2.
Proof.
  intros Hlen. unfold expand1. rewrite decide_True by done.
  rewrite (mapM_Ok (λ p : ext * ext, p.2)). f_equal.
  apply snd_zip. lia.
Qed.

Lemma expand1_rows_eq (X Y : list (list ext)) :
  same_shape X Y → expand1 (expand1 (λ _ b, Ok b)) X Y = Ok Y.
Proof.
  intros Hs. unfold expand1 at 1.
  rewrite decide_True by (by eapply Forall2_length).
  induction Hs as [|r1 r2 X Y Hr _ IH]; [reflexivity|].
  cbn [zip zip_with mapM fst snd]. rewrite expand1_row_eq by done.
  cbn [mbind result_bind]. rewrite IH. reflexivity.
Qed.

Lemma copy__same_shape (dst src : tensor) :
  same_shape (t_rows dst) (t_rows src) →
  copy_ dst src = Ok (Tensor (t_dtype dst) (t_device dst) (t_rows src)).
Proof. intros Hs. unfold copy_. by rewrite expand1_rows_eq. Qed.

Lemma copy_param_same_shape (dst src : nat) (σ : gmap nat param) (pd ps : param) :
  σ !! dst = Some pd → σ !! src = Some ps →
  same_shape (t_rows (p_data pd)) (t_rows (p_data ps)) →
  copy_param dst src σ
  = Ok (<[dst := Param (Tensor (t_dtype (p_data pd)) (t_device (p_data pd))
                          (t_rows (p_data ps)))
                       (p_requires_grad pd)]> σ).
Proof.
  intros Hd Hs Hshape. unfold copy_param. rewrite Hd, Hs.
  by rewrite copy__same_shape.
Qed.

Lemma copy_all_spec (pairs : list (nat * nat)) (σ : gmap nat param) :
  NoDup pairs.*1 →
  (∀ d s, d ∈ pairs.*1 → s ∈ pairs.*2 → d ≠ s) →
  (∀ d s, (d, s) ∈ pairs → copy_ready σ d s) →
  ∃ σ', copy_all pairs σ = Ok σ'
        ∧ (∀ d s, (d, s) ∈ pairs →
             ∃ pd ps, σ' !! d = Some pd ∧ σ !! s = Some ps
                      ∧ t_rows (p_data pd) = t_rows (p_data ps))
        ∧ (∀ l, l ∉ pairs.*1 → σ' !! l = σ !! l).
Proof.
  revert σ. induction pairs as [|[d s] pairs IH]; intros σ Hnd Hdisj Hready.
  - exists σ. split; [reflexivity|]. split; [|done].
    intros d s Hin. by apply elem_of_nil in Hin.
  - cbn [fmap list_fmap fst snd] in *. apply NoDup_cons in Hnd as [Hd Hnd].
    destruct (Hready d s ltac:(left)) as (pd & ps & Hpd & Hps & Hshape).
    cbn [copy_all]. rewrite (copy_param_same_shape _ _ _ pd ps) by done.
    cbn [mbind result_bind].
    set (σ1 := <[d := _]> σ).
    assert (Hds : d ≠ s) by (apply Hdisj; left).
    destruct (IH σ1) as (σ' & Hrun & Hpost & Hframe).
    + done.
    + intros d' s' Hd' Hs'. apply Hdisj; by right.
    + intros d' s' Hin.
      destruct (Hready d' s' ltac:(by right)) as (pd' & ps' & ? & ? & ?).
      exists pd', ps'. unfold σ1.
      assert (d' ≠ d).
      { intros ->. apply Hd. apply list_elem_of_fmap. by exists (d, s'). }
      assert (s' ≠ d).
      { intros ->. eapply (Hdisj d d); [left|right|]; [|reflexivity].
        apply list_elem_of_fmap. by exists (d', d). }
      by rewrite !lookup_insert_ne by done.
    + exists σ'. split; [done|]. split.
      * intros d' s' Hin. apply elem_of_cons in Hin as [Heq|Hin].
        -- simplify_eq. rewrite Hframe by done. unfold σ1.
           rewrite lookup_insert_eq. by eexists _, _.
        -- destruct (Hpost d' s' Hin) as (pd' & ps' & Hd' & Hs' & Hrows).
           exists pd', ps'. split; [done|]. split; [|done].
           unfold σ1 in Hs'. rewrite lookup_insert_ne in Hs'; [done|].
           intros ->. eapply (Hdisj s' s'); [left|right|]; [|reflexivity].
           apply list_elem_of_fmap. by exists (d', s').
      * intros l Hl. apply not_elem_of_cons in Hl as [Hl1 Hl2].
        rewrite Hframe by done. unfold σ1. by rewrite lookup_insert_ne.
Qed.

(** C5.  After the initialisation loop of the target model, for two
    separate models of one architecture (the same number of parameters,
    with equal shapes position by position), each parameter of
    [target_model] holds the entries of the parameter of [model] at the
    same position, and the parameters of [model] are as before. *)
Theorem init_target_copies (target_params model_params : list nat)
    (σ : gmap nat param) :
  NoDup target_params →
  (∀ l, l ∈ target_params → l ∉ model_params) →
  length target_params = length model_params →
  (∀ i d s, target_params !! i = Some d → model_params !! i = Some s →
     copy_ready σ d s) →
  ∃ σ', init_target target_params model_params σ = Ok σ'
        ∧ (∀ i d, target_params !! i = Some d →
             ∃ s pd ps, model_params !! i = Some s
                        ∧ σ' !! d = Some pd ∧ σ' !! s = Some ps
                        ∧ t_rows (p_data pd) = t_rows (p_data ps))
        ∧ (∀ s, s ∈ model_params → σ' !! s = σ !! s).
Proof.
  intros Hnd Hdisj Hlen Hready. unfold init_target.
  destruct (copy_all_spec (zip target_params model_params) σ)
    as (σ' & Hrun & Hpost & Hframe).
  - by rewrite fst_zip by lia.
  - rewrite fst_zip, snd_zip by lia. intros d s Hd Hs ->. by eapply Hdisj.
  - intros d s Hin. apply list_elem_of_lookup in Hin as [i Hi].
    apply lookup_zip_with_Some in Hi as (d' & s' & Heq & Hd & Hs).
    simplify_eq. by eapply Hready.
  - rewrite fst_zip in Hframe by lia.
    exists σ'. split; [done|]. split.
    + intros i d Hd.
      destruct (lookup_lt_is_Some_2 model_params i) as [s Hs].
      { apply lookup_lt_Some in Hd. lia. }
      destruct (Hpost d s) as (pd & ps & Hpd & Hps & Hrows).
      { apply list_elem_of_lookup. exists i.
        apply lookup_zip_with_Some. by exists d, s. }
      exists s, pd, ps. split; [done|]. split; [done|]. split; [|done].
      rewrite Hframe; [done|]. intros Hin.
      eapply Hdisj; [exact Hin|]. by eapply list_elem_of_lookup_2.
    + intros s Hs. apply Hframe. intros Hin. by eapply Hdisj.
Qed.

(** ** [cm_train.main]: the teacher *)





Lemma requires_grad__lookup (b : bool) (params : list (string * nat))
    (σ : gmap nat param) (l : nat) :
  requires_grad_ b params σ !! l
  = if decide (l ∈ params.*2) then (λ q, Param (p_data q) b) <$> σ !! l
    else σ !! l.
Proof.
  induction params as [|[n p] params IH].
  - cbn. rewrite decide_False; [done|]. apply not_elem_of_nil.
  - change (requires_grad_ b ((n, p) :: params) σ)
      with (set_requires_grad b p (requires_grad_ b params σ)).
    change (((n, p) :: params).*2) with (p :: params.*2).
    unfold set_requires_grad.
    destruct (decide (p = l)) as [->|Hne].
    + rewrite lookup_alter_eq, IH.
      rewrite (decide_True (P := l ∈ l :: params.*2)) by left.
      case_decide; [|done].
      destruct (σ !! l); reflexivity.
    + rewrite lookup_alter_ne by done. rewrite IH.
      destruct (decide (l ∈ params.*2)) as [Hin|Hnin].
      * rewrite decide_True by (by right). done.
      * rewrite decide_False; [done|]. apply not_elem_of_cons. split; [congruence|done].
Qed.



(** ** [EDMPrecond_CTM.__init__]: the architecture switch *)





Section InitProps.
Variable load_ema : string → result backbone.
Variable other_globals : string → option (gmap string pyval → result backbone).





End InitProps.

(** ** [image_sample.main]: the sampling loop *)

Lemma ceil_div_spec (n b i : Z) :
  (1 ≤ b)%Z → (0 ≤ i)%Z → (i * b < n ↔ i < ceil_div n b)%Z.
Proof.
  intros Hb Hi. unfold ceil_div.
  pose proof (Z.div_mod (n + b - 1) b ltac:(lia)) as Hdm.
  pose proof (Z.mod_pos_bound (n + b - 1) b ltac:(lia)) as Hmod.
  split; intros H; nia.
Qed.

Lemma ceil_div_nonneg (n b : Z) : (1 ≤ b)%Z → (0 ≤ n)%Z → (0 ≤ ceil_div n b)%Z.
Proof. intros Hb Hn. unfold ceil_div. apply Z.div_pos; lia. Qed.

Section SamplingProps.
Variable karras_sample : Z → Z → result Z.

Lemma loop_body_ok (args : sample_args) (st : loop_state) :
  (1 ≤ batch_size args)%Z → labels_ok args →
  karras_sample (itr st) (batch_size args) = Ok (batch_size args) →
  loop_body karras_sample args st
  = Ok (LoopState (itr st + 1) (num_samples st + batch_size args)).
Proof.
  intros Hb Hok Hks. unfold loop_body.
  destruct (decide (batch_size args < 0)%Z) as [?|_]; [lia|].
  cbn [mbind result_bind].
  assert (Hlab : (if class_cond args
                  then if decide (0 ≤ train_classes args)%Z then Ok tt
                       else if decide (train_classes args = -2)%Z
                            then assert (bool_decide
                                   (batch_size args
                                      `mod` Z.of_nat (length fixed_classes) = 0)%Z)
                            else Ok tt
                  else Ok tt) = Ok tt).
  { destruct (class_cond args) eqn:Hcc; [|done].
    destruct (decide (0 ≤ train_classes args)%Z) as [?|_]; [done|].
    destruct (decide (train_classes args = -2)%Z) as [Htc|?]; [|done].
    destruct Hok as [?|[?|Hm]]; [congruence|done|].
    change (Z.of_nat (length fixed_classes)) with 32%Z.
    by rewrite bool_decide_eq_true_2. }
  rewrite Hlab. cbn [mbind result_bind]. rewrite Hks. reflexivity.
Qed.

Lemma sample_loop_run (args : sample_args) (k : nat) :
  (1 ≤ batch_size args)%Z → labels_ok args →
  (∀ i, karras_sample i (batch_size args) = Ok (batch_size args)) →
  let n := ceil_div (eval_num_samples args) (batch_size args) in
  ∀ (i : Z) (fuel : nat),
    (0 ≤ i)%Z → (i + Z.of_nat k = n)%Z → (k ≤ fuel)%nat →
    sample_loop karras_sample fuel args (LoopState i (i * batch_size args))
    = Some (Ok (LoopState n (n * batch_size args))).
Proof.
  intros Hb Hok Hks n. induction k as [|k IH]; intros i fuel Hi Hn Hfuel.
  - assert (i = n) as -> by lia.
    destruct fuel; cbn [sample_loop itr];
      (rewrite decide_False; [reflexivity|]);
      rewrite ceil_div_spec by lia; fold n; lia.
  - destruct fuel as [|fuel]; [lia|]. cbn [sample_loop itr].
    rewrite decide_True by (rewrite ceil_div_spec by lia; fold n; lia).
    rewrite loop_body_ok by auto. cbn [itr num_samples].
    replace (i * batch_size args + batch_size args)%Z
      with ((i + 1) * batch_size args)%Z by lia.
    apply IH; lia.
Qed.

End SamplingProps.


(** ** The theorems at concrete inputs *)

Lemma EDMPrecond_forward_spec_witness :
  EDMPrecond_forward ex_F ex_edm ex_x ex_sigma None false tt []
  = (Ok (Tensor float32 cpu
           (add_rows (scale_rows [c_skip_edm 0.5 1] [[Fin 1]])
              (scale_rows [c_out_edm 0.5 1]
                 (scale_rows [c_in_edm 0.5 1] [[Fin 1]])))),
     [Call (Tensor float32 cpu (scale_rows [c_in_edm 0.5 1] [[Fin 1]]))
           (Tensor float32 cpu [[Fin (c_noise_edm 1)]]) None tt]).
Proof.
  apply (EDMPrecond_forward_spec ex_F ex_edm ex_x ex_sigma None false tt [1] None
           (Tensor float32 cpu (scale_rows [c_in_edm 0.5 1] [[Fin 1]])) []).
  - reflexivity.
  - repeat constructor. lra.
  - reflexivity.
  - reflexivity.
  - reflexivity.
  - reflexivity.
  - reflexivity.
  - reflexivity.
  - repeat constructor.
Defined.

Lemma VP_VE_forward_spec_witness :
  VEPrecond_forward ex_F ex_ve ex_x ex_sigma None false tt []
  = (Ok (Tensor float32 cpu (add_rows [[Fin 1]] (scale_rows [1] [[Fin 1]]))),
     [Call ex_x (Tensor float32 cpu [[Fin (ln (1 / 2))]]) None tt])
  ∧ VPPrecond_forward ex_F ex_vp ex_x ex_sigma None false tt []
    = (Ok (Tensor float32 cpu
             (sub_rows [[Fin 1]]
                (scale_rows [1] (div_rows [[Fin 1]] [sqrt (1 ^ 2 + 1)])))),
       [Call (Tensor float32 cpu (div_rows [[Fin 1]] [sqrt (1 ^ 2 + 1)]))
             (flatten (smul_t (IZR (1000 - 1))
                         (VPPrecond_sigma_inv ex_vp (col float32 cpu Fin [1]))))
             None tt]).
Proof.
  destruct (VP_VE_forward_spec ex_F ex_x ex_sigma None false tt [1] [])
    as [Hvp Hve].
  - reflexivity.
  - repeat constructor. lra.
  - reflexivity.
  - reflexivity.
  - split.
    + apply (Hve ex_ve None ex_x); try reflexivity. repeat constructor.
    + apply (Hvp ex_vp None
               (Tensor float32 cpu (div_rows [[Fin 1]] [sqrt (1 ^ 2 + 1)])));
        try reflexivity. repeat constructor.
Defined.

Lemma ctm_noise_label_exact_witness :
  entries (ctm_noise_label ex_t) = [Fin (0 / 1000)]
  ∧ assert (negb (any_isinf (ctm_noise_label ex_t))) = Ok tt
  ∧ assert (negb (any_isnan (ctm_noise_label ex_t))) = Ok tt.
Proof.
  destruct (ctm_noise_label_exact ex_backbone ex_student ex_x ex_t None false None
              ∅ None []) as (H1 & H2 & H3 & _).
  - reflexivity.
  - repeat constructor. by exists 0.
  - intros st Hst. discriminate Hst.
  - reflexivity.
  - split; [exact H1|]. split; [exact H2 | exact H3].
Defined.

Lemma ctm_forward_passes_through_witness :
  ∃ c, EDMPrecond_CTM_forward ex_backbone ex_student ex_x ex_t None false None ∅ []
       = (ex_backbone c, [] ++ [c])
     ∧ ctm_x c = to_dtype (ctm_dtype ex_student) ex_x
     ∧ t_rows (ctm_x c) = t_rows ex_x.
Proof.
  apply (ctm_forward_passes_through ex_backbone ex_student ex_x ex_t None false
           None ∅ None []).
  - reflexivity.
  - repeat constructor. by exists 0.
  - intros st Hst. discriminate Hst.
  - reflexivity.
Defined.


Lemma iDDPM_u_nonincreasing_witness :
  ∃ (ur : list R) (smin smax : R),
    iDDPMPrecond_init 0.001 0.008 1000
    = Ok {| iddpm_C_1 := 0.001; iddpm_C_2 := 0.008; iddpm_M := 1000;
            iddpm_u := Fin <$> ur;
            iddpm_sigma_min := Fin smin; iddpm_sigma_max := Fin smax |}
    ∧ length ur = (1000 + 1)%nat
    ∧ ur !! 1000%nat = Some 0
    ∧ (∀ j a b, (1 ≤ j ≤ 1000)%nat →
         ur !! (j - 1)%nat = Some a → ur !! j = Some b → b <= a)
    ∧ ur !! 0%nat = Some smax
    ∧ ur !! (1000 - 1)%nat = Some smin
    ∧ 0 <= smin <= smax.
Proof.
  apply (iDDPM_u_nonincreasing 0.001 0.008 1000); lra.
Defined.

Lemma init_target_copies_witness :
  ∃ σ', init_target [0%nat] [1%nat] ex_store = Ok σ'
        ∧ (∀ i d, [0%nat] !! i = Some d →
             ∃ s pd ps, [1%nat] !! i = Some s
                        ∧ σ' !! d = Some pd ∧ σ' !! s = Some ps
                        ∧ t_rows (p_data pd) = t_rows (p_data ps))
        ∧ (∀ s, s ∈ [1%nat] → σ' !! s = ex_store !! s).
Proof.
  apply (init_target_copies [0%nat] [1%nat] ex_store).
  - apply NoDup_singleton.
  - intros l Hl Hl'. apply list_elem_of_singleton in Hl, Hl'. congruence.
  - reflexivity.
  - intros i d s Hd Hs. destruct i as [|i]; [|discriminate Hd].
    injection Hd as <-. injection Hs as <-.
    exists (ex_param 0), (ex_param 1).
    split; [reflexivity|]. split; [reflexivity|]. repeat constructor.
Defined.



(** ** [VPPrecond]: the noise schedule and its inverse *)

Lemma promote_idemp (d : dtype) : promote d d = d.
Proof. by destruct d. Qed.

Lemma zip_with_fmap_same {A} (op : ext → ext → ext) (f g : A → ext) (r : list A) :
  zip_with op (f <$> r) (g <$> r) = (λ v, op (f v) (g v)) <$> r.
Proof. induction r as [|v r IH]; [reflexivity|]. cbn. f_equal. apply IH. Qed.

Lemma tbin_tmap_same (op : ext → ext → ext) (f g : ext → ext) (t : tensor) :
  tbin op (tmap f t) (tmap g t) = Ok (tmap (λ v, op (f v) (g v)) t).
Proof.
  destruct t as [d dev X]. unfold tmap. cbn [t_dtype t_device t_rows].
  rewrite tbin_batch_batch.
  - rewrite promote_idemp. do 2 f_equal.
    induction X as [|r X IH]; [reflexivity|]. cbn. f_equal; [|apply IH].
    apply zip_with_fmap_same.
  - induction X as [|r X IH]; constructor; [|apply IH].
    by rewrite !length_fmap.
Qed.

Lemma tmap_fin_tensor (f : ext → ext) (g : R → R) d dev (X : list (list R))
    (P : R → Prop) :
  (∀ r, P r → f (Fin r) = Fin (g r)) → all_entries P X →
  tmap f (fin_tensor d dev X) = fin_tensor d dev (fmap (M:=list) g <$> X).
Proof.
  intros Hfg HX. unfold tmap, fin_tensor. cbn [t_dtype t_device t_rows]. f_equal.
  induction HX as [|r X Hr _ IH]; [reflexivity|]. cbn. f_equal; [|apply IH].
  induction Hr as [|v r Hv _ IHr]; [reflexivity|]. cbn. f_equal; [by apply Hfg|apply IHr].
Qed.

Lemma all_entries_fmap (P Q : R → Prop) (g : R → R) (X : list (list R)) :
  (∀ r, P r → Q (g r)) → all_entries P X → all_entries Q (fmap (M:=list) g <$> X).
Proof.
  intros Hg HX. induction HX as [|r X Hr _ IH]; constructor; [|apply IH].
  induction Hr; constructor; auto.
Qed.

Lemma rows_fmap_id_on (P : R → Prop) (g : R → R) (X : list (list R)) :
  (∀ r, P r → g r = r) → all_entries P X → fmap (M:=list) g <$> X = X.
Proof.
  intros Hg HX. induction HX as [|r X Hr _ IH]; [reflexivity|].
  cbn. f_equal; [|apply IH].
  induction Hr as [|v r Hv _ IHr]; [reflexivity|]. cbn. f_equal; [by apply Hg|apply IHr].
Qed.

Lemma rows_fmap_compose (f g : R → R) (X : list (list R)) :
  fmap (M:=list) f <$> (fmap (M:=list) g <$> X)
  = fmap (M:=list) (λ r, f (g r)) <$> X.
Proof.
  induction X as [|r X IH]; [reflexivity|]. cbn. f_equal; [|apply IH].
  by rewrite <- list_fmap_compose.
Qed.

Section Schedule.
Variables (beta_d beta_min : R).
Hypothesis beta_d_pos : 0 < beta_d.
Hypothesis beta_min_nonneg : 0 <= beta_min.

Lemma sigma_exponent_nonneg (t : R) :
  0 <= t → 0 <= 0.5 * beta_d * t ^ 2 + beta_min * t.
Proof. intros Ht. nra. Qed.

Lemma exp_minus_1_nonneg (x : R) : 0 <= x → 0 <= exp x - 1.
Proof. intros Hx. pose proof (exp_ineq1_le x). lra. Qed.

Lemma sigma_R_nonneg (t : R) : 0 <= sigma_R beta_d beta_min t.
Proof. unfold sigma_R. apply sqrt_pos. Qed.

Lemma sigma_inv_sigma_R (t : R) :
  0 <= t → sigma_inv_R beta_d beta_min (sigma_R beta_d beta_min t) = t.
Proof.
  intros Ht. unfold sigma_inv_R, sigma_R.
  pose proof (sigma_exponent_nonneg t Ht) as Hx.
  set (x := 0.5 * beta_d * t ^ 2 + beta_min * t) in *.
  pose proof (exp_minus_1_nonneg x Hx) as He.
  assert (Hsq : sqrt (exp x - 1) ^ 2 = exp x - 1).
  { simpl. rewrite Rmult_1_r. by apply sqrt_sqrt. }
  rewrite Hsq. replace (1 + (exp x - 1)) with (exp x) by lra. rewrite ln_exp.
  replace (beta_min ^ 2 + 2 * beta_d * x) with ((beta_d * t + beta_min) ^ 2)
    by (unfold x; lra).
  rewrite sqrt_pow2 by nra. field. lra.
Qed.

Lemma sigma_sigma_inv_R (s : R) :
  0 <= s → sigma_R beta_d beta_min (sigma_inv_R beta_d beta_min s) = s.
Proof.
  intros Hs. unfold sigma_R, sigma_inv_R.
  assert (HL : 0 <= ln (1 + s ^ 2)).
  { rewrite <- ln_1. destruct (Req_dec (s ^ 2) 0) as [->|Hne].
    - rewrite Rplus_0_r. lra.
    - left. apply ln_increasing; nra. }
  set (L := ln (1 + s ^ 2)) in *.
  assert (HD : 0 <= beta_min ^ 2 + 2 * beta_d * L) by nra.
  set (q := sqrt (beta_min ^ 2 + 2 * beta_d * L)).
  assert (Hq : q * q = beta_min ^ 2 + 2 * beta_d * L) by (by apply sqrt_sqrt).
  replace (0.5 * beta_d * ((q - beta_min) / beta_d) ^ 2
           + beta_min * ((q - beta_min) / beta_d)) with L.
  2:{ apply Rmult_eq_reg_l with (2 * beta_d); [|lra]. field_simplify; [|lra..].
      nra. }
  unfold L. rewrite exp_ln by nra.
  replace (1 + s ^ 2 - 1) with (s ^ 2) by lra. by apply sqrt_pow2.
Qed.

Lemma sigma_inv_R_nonneg (s : R) : 0 <= sigma_inv_R beta_d beta_min s.
Proof.
  unfold sigma_inv_R.
  assert (HL : 0 <= ln (1 + s ^ 2)).
  { rewrite <- ln_1. destruct (Req_dec (s ^ 2) 0) as [->|Hne].
    - rewrite Rplus_0_r. lra.
    - left. apply ln_increasing; nra. }
  assert (beta_min <= sqrt (beta_min ^ 2 + 2 * beta_d * ln (1 + s ^ 2))).
  { rewrite <- (sqrt_pow2 beta_min) at 1 by done. apply sqrt_le_1_alt. nra. }
  apply Rmult_le_pos; [lra|]. left. apply Rinv_0_lt_compat. lra.
Qed.

Lemma sigma_R_mono (t1 t2 : R) :
  0 <= t1 → t1 <= t2 → sigma_R beta_d beta_min t1 <= sigma_R beta_d beta_min t2.
Proof.
  intros H1 H12. unfold sigma_R. apply sqrt_le_1_alt.
  assert (Ha : 0 <= beta_d * (t2 ^ 2 - t1 ^ 2)) by (apply Rmult_le_pos; nra).
  assert (Hb : 0 <= beta_min * (t2 - t1)) by (apply Rmult_le_pos; lra).
  assert (H : 0.5 * beta_d * t1 ^ 2 + beta_min * t1
              <= 0.5 * beta_d * t2 ^ 2 + beta_min * t2) by lra.
  destruct H as [Hlt|Heq]; [|rewrite Heq; lra].
  apply exp_increasing in Hlt. lra.
Qed.

Lemma sigma_point_fin (t : R) :
  0 <= t →
  esqrt (esub (eexp (eadd (emul (Fin (0.5 * beta_d)) (epow2 (Fin t)))
                       (emul (Fin beta_min) (Fin t)))) (Fin 1))
  = Fin (sigma_R beta_d beta_min t).
Proof.
  intros Ht. unfold epow2. cbn [emul eadd eexp esub eneg].
  pose proof (sigma_exponent_nonneg t Ht) as Hx.
  replace (0.5 * beta_d * (t * t) + beta_min * t)
    with (0.5 * beta_d * t ^ 2 + beta_min * t) by lra.
  pose proof (exp_minus_1_nonneg _ Hx) as He.
  rewrite esqrt_fin by lra. reflexivity.
Qed.

Lemma sigma_inv_point_fin (s : R) :
  ediv (esub (esqrt (eadd (Fin (beta_min ^ 2))
                       (emul (Fin (2 * beta_d))
                          (elog (eadd (Fin 1) (epow2 (Fin s)))))))
          (Fin beta_min)) (Fin beta_d)
  = Fin (sigma_inv_R beta_d beta_min s).
Proof.
  unfold epow2. cbn [emul eadd].
  assert (HL : 0 <= ln (1 + s * s)).
  { rewrite <- ln_1. destruct (Req_dec (s * s) 0) as [->|Hne].
    - rewrite Rplus_0_r. lra.
    - left. apply ln_increasing; nra. }
  rewrite elog_fin by nra. cbn [emul eadd].
  rewrite esqrt_fin by nra. cbn [esub eneg eadd].
  rewrite ediv_fin by lra. unfold sigma_inv_R.
  replace (s ^ 2) with (s * s) by lra. reflexivity.
Qed.
End Schedule.

Lemma all_entries_singleton (P : R → Prop) (v : R) : P v → all_entries P [[v]].
Proof. intros Hv. constructor; [|constructor]. constructor; [done|constructor]. Qed.

Lemma VPPrecond_sigma_fin (self : VPPrecond) d dev (X : list (list R)) :
  0 < vp_beta_d self → 0 <= vp_beta_min self → all_entries (λ t, 0 <= t) X →
  VPPrecond_sigma self (fin_tensor d dev X)
  = Ok (fin_tensor d dev
          (fmap (M:=list) (sigma_R (vp_beta_d self) (vp_beta_min self)) <$> X)).
Proof.
  intros Hd Hm HX. unfold VPPrecond_sigma, tadd, smul_t, tpow2.
  rewrite tmap_tmap, tbin_tmap_same. cbn [mbind result_bind].
  unfold tsqrt, tsub_s, texp. rewrite !tmap_tmap. f_equal.
  apply (tmap_fin_tensor _ _ _ _ _ (λ t, 0 <= t)); [|done].
  intros t Ht. by apply sigma_point_fin.
Qed.

Lemma VPPrecond_sigma_inv_fin (self : VPPrecond) d dev (X : list (list R)) :
  0 < vp_beta_d self → 0 <= vp_beta_min self →
  VPPrecond_sigma_inv self (fin_tensor d dev X)
  = fin_tensor d dev
      (fmap (M:=list) (sigma_inv_R (vp_beta_d self) (vp_beta_min self)) <$> X).
Proof.
  intros Hd Hm. unfold VPPrecond_sigma_inv, tdiv_s, tsub_s, tsqrt, sadd_t, smul_t,
    tlog, tpow2.
  rewrite !tmap_tmap.
  apply (tmap_fin_tensor _ _ _ _ _ (λ _, True)).
  - intros s _. by apply sigma_inv_point_fin.
  - clear. induction X as [|r X IH]; constructor; [|apply IH].
    induction r; constructor; auto.
Qed.

(** X1.  [VPPrecond.sigma_inv] undoes [VPPrecond.sigma]: for
    [beta_d > 0], [beta_min >= 0] and times [t >= 0],
    [sigma_inv(sigma(t)) = t] entry by entry. *)
Theorem VPPrecond_sigma_inv_sigma (self : VPPrecond) d dev (X : list (list R)) :
  0 < vp_beta_d self → 0 <= vp_beta_min self → all_entries (λ t, 0 <= t) X →
  ∃ s, VPPrecond_sigma self (fin_tensor d dev X) = Ok s
       ∧ VPPrecond_sigma_inv self s = fin_tensor d dev X.
Proof.
  intros Hd Hm HX. eexists. split; [by apply VPPrecond_sigma_fin|].
  rewrite VPPrecond_sigma_inv_fin by done. unfold fin_tensor. do 2 f_equal.
  rewrite rows_fmap_compose.
  apply (rows_fmap_id_on (λ t, 0 <= t)); [|done].
  intros t Ht. by apply sigma_inv_sigma_R.
Qed.

(** X2.  [VPPrecond.sigma] undoes [VPPrecond.sigma_inv]: for
    [beta_d > 0], [beta_min >= 0] and noise levels [sigma >= 0],
    [sigma(sigma_inv(sigma)) = sigma] entry by entry. *)
Theorem VPPrecond_sigma_sigma_inv (self : VPPrecond) d dev (X : list (list R)) :
  0 < vp_beta_d self → 0 <= vp_beta_min self → all_entries (λ s, 0 <= s) X →
  VPPrecond_sigma self (VPPrecond_sigma_inv self (fin_tensor d dev X))
  = Ok (fin_tensor d dev X).
Proof.
  intros Hd Hm HX. rewrite VPPrecond_sigma_inv_fin by done.
  rewrite VPPrecond_sigma_fin; [|done..|].
  - unfold fin_tensor. do 3 f_equal. rewrite rows_fmap_compose.
    apply (rows_fmap_id_on (λ t, 0 <= t)); [|done].
    intros t Ht. by apply sigma_sigma_inv_R.
  - apply (all_entries_fmap (λ _, True)).
    + intros s _. by apply sigma_inv_R_nonneg.
    + clear. induction X as [|r X IH]; constructor; [|apply IH].
      induction r; constructor; auto.
Qed.

(** X3.  The range of noise levels fixed by [VPPrecond.__init__], over
    exact reals and where the float32 exponential does not overflow: for
    [beta_d > 0], [beta_min >= 0], [0.5 * beta_d + beta_min <= 88] and
    [0 <= epsilon_t <= 1], both [sigma_min = sigma(epsilon_t)] and
    [sigma_max = sigma(1)] are finite, [0 <= sigma_min <= sigma_max], and
    the exponential taken for [sigma_max], [sigma_max^2 + 1], is at most
    [e^88]. *)
Theorem VPPrecond_sigma_range_ordered (self : VPPrecond) (epsilon_t : R) :
  0 < vp_beta_d self → 0 <= vp_beta_min self →
  0.5 * vp_beta_d self + vp_beta_min self <= 88 →
  0 <= epsilon_t <= 1 →
  VPPrecond_sigma_range self epsilon_t
  = Ok (Fin (sigma_R (vp_beta_d self) (vp_beta_min self) epsilon_t),
        Fin (sigma_R (vp_beta_d self) (vp_beta_min self) 1))
  ∧ 0 <= sigma_R (vp_beta_d self) (vp_beta_min self) epsilon_t
      <= sigma_R (vp_beta_d self) (vp_beta_min self) 1
  ∧ sigma_R (vp_beta_d self) (vp_beta_min self) 1 ^ 2 + 1 <= exp 88.
Proof.
  intros Hd Hm Hrange [He0 He1]. split; [|split].
  - unfold VPPrecond_sigma_range.
    change (as_tensor epsilon_t) with (fin_tensor float32 cpu [[epsilon_t]]).
    change (as_tensor 1) with (fin_tensor float32 cpu [[1]]).
    rewrite (VPPrecond_sigma_fin self float32 cpu [[epsilon_t]])
      by first [done | by apply all_entries_singleton].
    rewrite (VPPrecond_sigma_fin self float32 cpu [[1]])
      by first [done | apply all_entries_singleton; lra].
    reflexivity.
  - split; [by apply sigma_R_nonneg|]. by apply sigma_R_mono.
  - unfold sigma_R.
    set (x := 0.5 * vp_beta_d self * 1 ^ 2 + vp_beta_min self * 1).
    assert (Hx0 : 0 <= x) by (unfold x; lra).
    assert (Hx : x <= 88) by (unfold x; lra).
    pose proof (exp_minus_1_nonneg x Hx0) as Hnn.
    assert (Hsq : sqrt (exp x - 1) ^ 2 = exp x - 1).
    { simpl. rewrite Rmult_1_r. by apply sqrt_sqrt. }
    rewrite Hsq.
    destruct (Rle_lt_or_eq_dec _ _ Hx) as [Hlt| ->]; [|lra].
    pose proof (exp_increasing _ _ Hlt). lra.
Qed.

Lemma VPPrecond_sigma_inv_sigma_witness :
  ∃ s, VPPrecond_sigma ex_vp (fin_tensor float32 cpu [[0; 1]]) = Ok s
       ∧ VPPrecond_sigma_inv ex_vp s = fin_tensor float32 cpu [[0; 1]].
Proof.
  apply (VPPrecond_sigma_inv_sigma ex_vp float32 cpu [[0; 1]]).
  - simpl. lra.
  - simpl. lra.
  - repeat constructor; lra.
Defined.

Lemma VPPrecond_sigma_sigma_inv_witness :
  VPPrecond_sigma ex_vp (VPPrecond_sigma_inv ex_vp (fin_tensor float32 cpu [[0; 2]]))
  = Ok (fin_tensor float32 cpu [[0; 2]]).
Proof.
  apply (VPPrecond_sigma_sigma_inv ex_vp float32 cpu [[0; 2]]).
  - simpl. lra.
  - simpl. lra.
  - repeat constructor; lra.
Defined.

Lemma VPPrecond_sigma_range_ordered_witness :
  VPPrecond_sigma_range ex_vp 1e-5
  = Ok (Fin (sigma_R 19.9 0.1 1e-5), Fin (sigma_R 19.9 0.1 1))
  ∧ 0 <= sigma_R 19.9 0.1 1e-5 <= sigma_R 19.9 0.1 1
  ∧ sigma_R 19.9 0.1 1 ^ 2 + 1 <= exp 88.
Proof.
  apply (VPPrecond_sigma_range_ordered ex_vp 1e-5).
  - simpl. lra.
  - simpl. lra.
  - simpl. lra.
  - lra.
Defined.

(** ** [EDMPrecond_CTM.get_c_in] *)

Lemma all_entries_True (X : list (list R)) : all_entries (λ _, True) X.
Proof. induction X as [|r X IH]; constructor; [|apply IH]. induction r; constructor; auto. Qed.

Lemma get_c_in_edm_point (sd s : R) :
  sd ≠ 0 →
  ediv (Fin 1) (epow_half (eadd (epow2 (Fin s)) (Fin (sd ^ 2)))) = Fin (c_in_edm sd s).
Proof.
  intros Hsd. unfold epow2, c_in_edm. cbn [emul eadd epow_half].
  assert (Hpos : 0 < s * s + sd ^ 2) by nra.
  rewrite esqrt_fin by lra.
  assert (0 < sqrt (s * s + sd ^ 2)) by (by apply sqrt_lt_R0).
  rewrite ediv_fin by lra. do 3 f_equal. lra.
Qed.

(** X4.  With the inner parametrization ['edm'] and [sigma_data <> 0],
    [get_c_in] is total on finite noise levels and gives the input
    coefficient of [EDMPrecond.forward], [1 / sqrt(sigma_data^2 + sigma^2)]. *)
Theorem get_c_in_edm (self : EDMPrecond_CTM) d dev (X : list (list R)) :
  ctm_inner_parametrization self = "edm"%string →
  ctm_sigma_data self ≠ 0 →
  get_c_in self (fin_tensor d dev X)
  = Ok (fin_tensor d dev (fmap (M:=list) (c_in_edm (ctm_sigma_data self)) <$> X)).
Proof.
  intros Hp Hsd. unfold get_c_in. rewrite Hp, decide_True by reflexivity. f_equal.
  unfold sdiv_t, tpow_half, tadd_s, tpow2. rewrite !tmap_tmap.
  apply (tmap_fin_tensor _ _ _ _ _ (λ _, True)); [|apply all_entries_True].
  intros s _. by apply get_c_in_edm_point.
Qed.

Lemma bridge_point_inf (sd sde cov s : R) :
  sd ≠ 0 →
  let a := ediv (epow2 (Fin s)) (epow2 PInf) in
  let b := esub (Fin 1) a in
  ediv (Fin 1)
    (esqrt
       (eadd
          (eadd
             (eadd (emul (epow2 a) (Fin (sde ^ 2))) (emul (epow2 b) (Fin (sd ^ 2))))
             (emul (emul (emul (Fin 2) a) b) (Fin cov)))
          (emul (emul (Fin (1 ^ 2)) (epow2 (Fin s))) b)))
  = Fin (c_in_edm sd s).
Proof.
  intros Hsd a b.
  assert (Ha : a = Fin (s * s * 0)) by reflexivity.
  subst b. rewrite Ha. clear a Ha. unfold epow2.
  cbn [emul eadd esub eneg].
  match goal with
  | |- ediv _ (esqrt (Fin ?A)) = _ => replace A with (sd ^ 2 + s ^ 2) by lra
  end.
  assert (Hpos : 0 < sd ^ 2 + s ^ 2) by nra.
  rewrite esqrt_fin by lra.
  assert (0 < sqrt (sd ^ 2 + s ^ 2)) by (by apply sqrt_lt_R0).
  rewrite ediv_fin by lra. reflexivity.
Qed.

(** X5.  With the inner parametrization ['ddbm'], the default
    [sigma_max = inf] and [sigma_data <> 0], the bridge coefficient
    collapses to the EDM one: on finite noise levels [get_c_in] gives
    [1 / sqrt(sigma_data^2 + sigma^2)], whatever [sigma_data_end] and
    [cov_xy] are. *)
Theorem get_c_in_ddbm_sigma_max_inf (self : EDMPrecond_CTM) d dev
    (X : list (list R)) (sde cov : R) :
  ctm_inner_parametrization self = "ddbm"%string →
  ctm_sigma_max self = PInf →
  ctm_sigma_data_end self = Some sde →
  ctm_cov_xy self = Some cov →
  ctm_sigma_data self ≠ 0 →
  get_c_in self (fin_tensor d dev X)
  = Ok (fin_tensor d dev (fmap (M:=list) (c_in_edm (ctm_sigma_data self)) <$> X)).
Proof.
  intros Hp Hmax Hsde Hcov Hsd. unfold get_c_in. rewrite Hp.
  destruct (decide ("ddbm" = "edm")%string) as [Hne|_]; [discriminate Hne|].
  destruct (decide ("ddbm" = "cm_ddbm")%string) as [Hne|_]; [discriminate Hne|].
  destruct (decide ("ddbm" = "ddbm")%string) as [_|Hne]; [|done].
  unfold bridge_c_in. rewrite Hsde, Hcov, Hmax.
  unfold tmul, tadd, smul_t, tmul_s, ssub_t, tpow2, sdiv_t, tsqrt.
  repeat (rewrite ?tmap_tmap, ?tbin_tmap_same; cbn [mbind result_bind]).
  f_equal.
  apply (tmap_fin_tensor _ _ _ _ _ (λ _, True)); [|apply all_entries_True].
  intros s _. by apply bridge_point_inf.
Qed.

(** X6.  With the default [sigma_min = 0], the parametrization ['cm_ddbm']
    gives the same coefficient as ['ddbm'] on finite noise levels: the
    shift [sigma - sigma_min] changes nothing. *)
Theorem get_c_in_cm_ddbm_sigma_min_0 (self : EDMPrecond_CTM) d dev
    (X : list (list R)) :
  ctm_inner_parametrization self = "cm_ddbm"%string →
  ctm_sigma_min self = Fin 0 →
  get_c_in self (fin_tensor d dev X)
  = get_c_in (with_parametrization self "ddbm") (fin_tensor d dev X).
Proof.
  intros Hp Hmin. unfold get_c_in. rewrite Hp.
  cbn [with_parametrization ctm_inner_parametrization].
  destruct (decide ("cm_ddbm" = "edm")%string) as [Hne|_]; [discriminate Hne|].
  destruct (decide ("cm_ddbm" = "cm_ddbm")%string) as [_|Hne]; [|done].
  destruct (decide ("ddbm" = "edm")%string) as [Hne|_]; [discriminate Hne|].
  destruct (decide ("ddbm" = "cm_ddbm")%string) as [Hne|_]; [discriminate Hne|].
  destruct (decide ("ddbm" = "ddbm")%string) as [_|Hne]; [|done].
  rewrite Hmin.
  rewrite (tmap_fin_tensor _ (λ r, r + - 0) _ _ _ (λ _, True));
    [|done|apply all_entries_True].
  rewrite (rows_fmap_id_on (λ _, True)); [reflexivity| |apply all_entries_True].
  intros r _. lra.
Qed.

(** X7.  What [get_c_in] refuses: an inner parametrization other than
    ['edm'], ['cm_ddbm'] and ['ddbm'] raises [NotImplementedError]; the two
    bridge parametrizations raise [TypeError] as long as [sigma_data_end]
    or [cov_xy] is left at its default [None]. *)
Theorem get_c_in_errors (self : EDMPrecond_CTM) (sigma : tensor) :
  (ctm_inner_parametrization self ≠ "edm"%string →
   ctm_inner_parametrization self ≠ "cm_ddbm"%string →
   ctm_inner_parametrization self ≠ "ddbm"%string →
   get_c_in self sigma = Raise NotImplementedError)
  ∧ (ctm_inner_parametrization self = "cm_ddbm"%string
     ∨ ctm_inner_parametrization self = "ddbm"%string →
     ctm_sigma_data_end self = None ∨ ctm_cov_xy self = None →
     get_c_in self sigma = Raise TypeError).
Proof.
  split.
  - intros H1 H2 H3. unfold get_c_in.
    destruct (decide (ctm_inner_parametrization self = "edm"%string)); [done|].
    destruct (decide (ctm_inner_parametrization self = "cm_ddbm"%string)); [done|].
    destruct (decide (ctm_inner_parametrization self = "ddbm"%string)); [done|].
    reflexivity.
  - intros Hp Hnone. unfold get_c_in.
    assert (Hb : ∀ s, bridge_c_in self s = Raise TypeError).
    { intros s. unfold bridge_c_in.
      destruct Hnone as [-> | ->]; [reflexivity|].
      by destruct (ctm_sigma_data_end self). }
    destruct Hp as [Hp|Hp]; rewrite Hp.
    + destruct (decide ("cm_ddbm" = "edm")%string) as [Hne|_]; [discriminate Hne|].
      destruct (decide ("cm_ddbm" = "cm_ddbm")%string) as [_|Hne]; [|done].
      apply Hb.
    + destruct (decide ("ddbm" = "edm")%string) as [Hne|_]; [discriminate Hne|].
      destruct (decide ("ddbm" = "cm_ddbm")%string) as [Hne|_]; [discriminate Hne|].
      destruct (decide ("ddbm" = "ddbm")%string) as [_|Hne]; [|done].
      apply Hb.
Qed.

Lemma get_c_in_edm_witness :
  get_c_in ex_student (fin_tensor float32 cpu [[1; 2]])
  = Ok (fin_tensor float32 cpu [[c_in_edm 0.5 1; c_in_edm 0.5 2]]).
Proof.
  apply (get_c_in_edm ex_student float32 cpu [[1; 2]]).
  - reflexivity.
  - simpl. lra.
Defined.

Lemma get_c_in_ddbm_sigma_max_inf_witness :
  get_c_in ex_bridge (fin_tensor float32 cpu [[1; 2]])
  = Ok (fin_tensor float32 cpu [[c_in_edm 0.5 1; c_in_edm 0.5 2]]).
Proof.
  apply (get_c_in_ddbm_sigma_max_inf ex_bridge float32 cpu [[1; 2]] 0.5 0).
  - reflexivity.
  - reflexivity.
  - reflexivity.
  - reflexivity.
  - simpl. lra.
Defined.

Lemma get_c_in_cm_ddbm_sigma_min_0_witness :
  get_c_in (with_parametrization ex_bridge "cm_ddbm") (fin_tensor float32 cpu [[1]])
  = get_c_in (with_parametrization (with_parametrization ex_bridge "cm_ddbm") "ddbm")
      (fin_tensor float32 cpu [[1]]).
Proof.
  apply (get_c_in_cm_ddbm_sigma_min_0 (with_parametrization ex_bridge "cm_ddbm")
           float32 cpu [[1]]).
  - reflexivity.
  - reflexivity.
Defined.

Lemma get_c_in_errors_witness :
  get_c_in (with_parametrization ex_student "vp") ex_t = Raise NotImplementedError
  ∧ get_c_in (with_parametrization ex_student "ddbm") ex_t = Raise TypeError.
Proof.
  destruct (get_c_in_errors (with_parametrization ex_student "vp") ex_t) as [H1 _].
  destruct (get_c_in_errors (with_parametrization ex_student "ddbm") ex_t) as [_ H2].
  split.
  - apply H1; discriminate.
  - apply H2; [right; reflexivity | left; reflexivity].
Defined.

(** ** [image_sample.main]: more on the sampling loop *)

Section SamplingMore.
Variable karras_sample : Z → Z → result Z.

(** X8.  The loop overshoots by less than one batch: under the conditions
    under which it runs through, the number of samples produced is at
    least [eval_num_samples] and less than [eval_num_samples + batch_size]. *)
Theorem sampling_loop_overshoot (args : sample_args) (fuel : nat) :
  (1 ≤ batch_size args)%Z →
  (0 ≤ eval_num_samples args)%Z →
  labels_ok args →
  (∀ i, karras_sample i (batch_size args) = Ok (batch_size args)) →
  (Z.to_nat (ceil_div (eval_num_samples args) (batch_size args)) ≤ fuel)%nat →
  ∃ st, sampling karras_sample fuel args = Some (Ok st)
        ∧ (eval_num_samples args ≤ num_samples st
           < eval_num_samples args + batch_size args)%Z.
Proof.
  intros Hb HN Hok Hks Hfuel.
  set (n := ceil_div (eval_num_samples args) (batch_size args)) in *.
  pose proof (ceil_div_nonneg _ _ Hb HN) as Hn. fold n in Hn.
  exists (LoopState n (n * batch_size args)). split.
  - unfold sampling.
    apply (sample_loop_run karras_sample args (Z.to_nat n) Hb Hok Hks 0 fuel);
      [lia| |lia].
    fold n. lia.
  - cbn [num_samples].
    pose proof (ceil_div_spec (eval_num_samples args) (batch_size args) n Hb Hn)
      as [H _].
    fold n in H.
    destruct (decide (n = 0%Z)) as [Hz|Hnz].
    + rewrite Hz in *. lia.
    + pose proof (ceil_div_spec (eval_num_samples args) (batch_size args) (n - 1)
                    Hb ltac:(lia)) as [_ H'].
      fold n in H'. lia.
Qed.

(** X9.  With [batch_size = 0] and [eval_num_samples > 0] the loop never
    ends normally: the condition [itr * 0 < eval_num_samples] stays true
    after every pass, so a run either raises inside a pass or goes on
    for ever, whatever the sampler does. *)
Theorem sampling_loop_never_completes (args : sample_args) (fuel : nat)
    (st : loop_state) :
  batch_size args = 0%Z →
  (0 < eval_num_samples args)%Z →
  sampling karras_sample fuel args ≠ Some (Ok st).
Proof.
  intros Hb HN. unfold sampling. generalize (LoopState 0 0).
  induction fuel as [|fuel IH]; intros st0; cbn [sample_loop].
  - rewrite decide_True by (rewrite Hb; lia). discriminate.
  - rewrite decide_True by (rewrite Hb; lia).
    destruct (loop_body karras_sample args st0) as [st1|e];
      [apply IH|discriminate].
Qed.
End SamplingMore.

Lemma sampling_loop_overshoot_witness :
  ∃ st, sampling ex_sampler 3 ex_sample_args_ok = Some (Ok st)
        ∧ (5 ≤ num_samples st < 5 + 2)%Z.
Proof.
  apply (sampling_loop_overshoot ex_sampler ex_sample_args_ok 3).
  - unfold ex_sample_args_ok. simpl. lia.
  - unfold ex_sample_args_ok. simpl. lia.
  - left. reflexivity.
  - intros i. reflexivity.
  - vm_compute. lia.
Defined.

Lemma sampling_loop_never_completes_witness :
  sampling ex_sampler 7
    {| batch_size := 0; eval_num_samples := 1; class_cond := true;
       train_classes := -2 |} ≠ Some (Ok (LoopState 7 0)).
Proof.
  apply (sampling_loop_never_completes ex_sampler).
  - reflexivity.
  - simpl. lia.
Defined.

(** ** [calculate_inception_stats]: the counting loop *)

Lemma Zsum_app (l k : list Z) : Zsum (l ++ k) = (Zsum l + Zsum k)%Z.
Proof. unfold Zsum. induction l as [|x l IH]; cbn [foldr app]; lia. Qed.

Lemma Zsum_nonneg (l : list Z) : Forall (λ x, 0 ≤ x)%Z l → (0 ≤ Zsum l)%Z.
Proof.
  induction 1 as [|x l Hx _ IH]; cbn [Zsum foldr]; [lia|].
  fold (Zsum l). lia.
Qed.

Lemma slice_sizes_from (batch_size n : Z) (len : nat) (k0 : Z) :
  (1 ≤ batch_size)%Z → (0 ≤ k0)%Z →
  (n ≤ (k0 + Z.of_nat len) * batch_size)%Z →
  ((k0 + Z.of_nat len - 1) * batch_size < n ∨ len = 0%nat)%Z →
  (k0 * batch_size ≤ n ∨ len = 0%nat)%Z →
  let sizes := (λ k, slice_len n (k * batch_size) ((k + 1) * batch_size))
                 <$> ((λ i, Z.of_nat i + k0)%Z <$> seq 0 len) in
  Zsum sizes = Z.max 0 (n - k0 * batch_size) ∧ Forall (λ x, 0 ≤ x)%Z sizes.
Proof.
  intros Hb. revert k0. induction len as [|len IH]; intros k0 Hk Hup Hlast Hlo; cbn zeta.
  - cbn. split; [nia|constructor].
  - cbn [seq fmap list_fmap]. rewrite <- seq_shift, <- !list_fmap_compose.
    destruct Hlast as [Hlast|?]; [|discriminate].
    destruct Hlo as [Hlo|?]; [|discriminate].
    destruct (IH (k0 + 1)%Z) as [Hs Hf]; [lia|nia| |..].
    { destruct len; [by right|left]. nia. }
    { destruct len; [by right|left]. nia. }
    cbn zeta in Hs, Hf.
    rewrite <- !list_fmap_compose in Hs, Hf.
    assert (Heq : (λ i, Z.of_nat i + (k0 + 1))%Z <$> seq 0 len
                  = ((λ i, Z.of_nat i + k0)%Z ∘ S) <$> seq 0 len).
    { apply list_fmap_ext. intros _ i _. cbn. lia. }
    unfold compose in Hs, Hf |- *.
    assert (Hl : (λ x : nat, slice_len n ((Z.of_nat x + (k0 + 1)) * batch_size)
                     ((Z.of_nat x + (k0 + 1) + 1) * batch_size))
                   <$> seq 0 len
                 = (λ x : nat, slice_len n ((Z.of_nat (S x) + k0) * batch_size)
                     ((Z.of_nat (S x) + k0 + 1) * batch_size)) <$> seq 0 len).
    { apply list_fmap_ext. intros _ i _. cbn beta.
      replace (Z.of_nat (S i) + k0)%Z with (Z.of_nat i + (k0 + 1))%Z by lia.
      reflexivity. }
    rewrite Hl in Hs, Hf.
    cbn [Zsum foldr]. fold (Zsum ((λ x : nat,
         slice_len n ((Z.of_nat (S x) + k0) * batch_size)
           ((Z.of_nat (S x) + k0 + 1) * batch_size)) <$> seq 0 len)).
    rewrite Hs.
    assert (Hfirst : slice_len n ((Z.of_nat 0 + k0) * batch_size)
                       ((Z.of_nat 0 + k0 + 1) * batch_size)
                     = Z.min batch_size (n - k0 * batch_size)).
    { unfold slice_len, slice_bound.
      replace (Z.of_nat 0 + k0)%Z with k0 by lia.
      destruct (decide ((k0 + 1) * batch_size < 0)%Z); [nia|].
      destruct (decide (k0 * batch_size < 0)%Z); [nia|]. nia. }
    rewrite Hfirst. split; [nia|].
    constructor; [nia|exact Hf].
Qed.

Lemma slice_sizes_spec (batch_size n : Z) :
  (1 ≤ batch_size)%Z → (0 ≤ n)%Z →
  Zsum (slice_sizes batch_size n ((n - 1) / batch_size)) = n
  ∧ Forall (λ x, 0 ≤ x)%Z (slice_sizes batch_size n ((n - 1) / batch_size)).
Proof.
  intros Hb Hn. unfold slice_sizes, seqZ.
  set (q := ((n - 1) / batch_size)%Z).
  assert (Hq : (q * batch_size ≤ n - 1 < (q + 1) * batch_size)%Z).
  { pose proof (Z.div_mod (n - 1) batch_size ltac:(lia)) as Hdm.
    pose proof (Z.mod_pos_bound (n - 1) batch_size ltac:(lia)) as Hm.
    fold q in Hdm. nia. }
  assert (Hq0 : (-1 ≤ q)%Z) by nia.
  destruct (slice_sizes_from batch_size n (Z.to_nat (q + 1)) 0 Hb ltac:(lia))
    as [Hs Hf].
  - rewrite Z2Nat.id by lia. lia.
  - destruct (decide (q + 1 = 0)%Z) as [Hz|Hz].
    + right. rewrite Hz. reflexivity.
    + left. rewrite Z2Nat.id by lia. nia.
  - left. lia.
  - cbn zeta in Hs, Hf. rewrite Hs. split; [lia|exact Hf].
Qed.

Lemma count_chunks_spec (N : Z) (sizes : list Z) :
  Forall (λ x, 0 ≤ x)%Z sizes →
  ∀ count used, (count ≤ N)%Z → Forall (λ x, 0 ≤ x)%Z used →
  ∃ used', count_chunks N sizes count used
           = (Z.min N (count + Zsum sizes), used')
           ∧ Zsum used' = (Zsum used + (Z.min N (count + Zsum sizes) - count))%Z
           ∧ Forall (λ x, 0 ≤ x)%Z used'.
Proof.
  induction 1 as [|m rest Hm Hrest IH]; intros count used Hc Hu;
    cbn [count_chunks Zsum foldr].
  - exists used. repeat split; [f_equal; lia|lia|exact Hu].
  - fold (Zsum rest). pose proof (Zsum_nonneg rest Hrest) as Hr.
    destruct (decide (count + m > N)%Z) as [Hgt|Hle].
    + rewrite decide_True by lia.
      eexists. repeat split; [f_equal; lia| |].
      * rewrite Zsum_app. cbn [Zsum foldr]. lia.
      * apply Forall_app. split; [exact Hu|]. constructor; [lia|constructor].
    + destruct (decide (count + m >= N)%Z) as [Hge|Hlt].
      * eexists. repeat split; [f_equal; lia| |].
        -- rewrite Zsum_app. cbn [Zsum foldr]. lia.
        -- apply Forall_app. split; [exact Hu|]. constructor; [lia|constructor].
      * destruct (IH (count + m)%Z (used ++ [m])) as (used' & He & Hs & Hf);
          [lia| |].
        { apply Forall_app. split; [exact Hu|]. constructor; [lia|constructor]. }
        exists used'. rewrite He. repeat split; [f_equal; lia| |exact Hf].
        rewrite Hs, Zsum_app. cbn [Zsum foldr]. lia.
Qed.

Lemma count_files_spec (N batch_size : Z) (files : list Z) :
  (1 ≤ batch_size)%Z →
  Forall (λ x, 0 ≤ x)%Z files →
  ∀ count used, (count ≤ N)%Z → Forall (λ x, 0 ≤ x)%Z used →
  ∃ used', count_files N batch_size files count used
           = OkE (Z.min N (count + Zsum files), used')
           ∧ Zsum used' = (Zsum used + (Z.min N (count + Zsum files) - count))%Z
           ∧ Forall (λ x, 0 ≤ x)%Z used'.
Proof.
  intros Hb. induction 1 as [|n rest Hn Hrest IH]; intros count used Hc Hu;
    cbn [count_files Zsum foldr].
  - exists used. repeat split; [do 2 f_equal; lia|lia|exact Hu].
  - fold (Zsum rest). pose proof (Zsum_nonneg rest Hrest) as Hr.
    unfold floordiv. rewrite decide_False by lia.
    destruct (slice_sizes_spec batch_size n Hb Hn) as [Hsum Hpos].
    destruct (count_chunks_spec N _ Hpos count used Hc Hu)
      as (used1 & He & Hs & Hf).
    rewrite He, Hsum in *.
    destruct (decide (Z.min N (count + n) >= N)%Z) as [Hge|Hlt].
    + exists used1. repeat split; [do 2 f_equal; lia| |exact Hf].
      rewrite Hs. lia.
    + destruct (IH (Z.min N (count + n)) used1) as (used' & He' & Hs' & Hf');
        [lia|exact Hf|].
      exists used'. rewrite He'. repeat split; [do 2 f_equal; lia| |exact Hf'].
      rewrite Hs', Hs. lia.
Qed.

(** X10.  The counting loop of [calculate_inception_stats]: for a positive
    [batch_size] and [num_samples >= 0], the statistics are taken over
    exactly [num_samples] images when the sample files hold at least that
    many, however the images are spread over the files; when they hold
    fewer, the final assertion fails. *)
Theorem calculate_inception_stats_count_spec (num_samples batch_size : Z)
    (files : list Z) :
  (1 ≤ batch_size)%Z →
  (0 ≤ num_samples)%Z →
  Forall (λ n, 0 ≤ n)%Z files →
  (num_samples ≤ Zsum files →
     ∃ used, calculate_inception_stats_count num_samples batch_size files
             = OkE (num_samples, used)
             ∧ Zsum used = num_samples ∧ Forall (λ r, 0 ≤ r)%Z used)%Z
  ∧ (Zsum files < num_samples →
     calculate_inception_stats_count num_samples batch_size files
     = RaiseE (Std AssertionError))%Z.
Proof.
  intros Hb HN Hfiles.
  destruct (count_files_spec num_samples batch_size files Hb Hfiles 0 [] HN
              ltac:(constructor)) as (used & He & Hs & Hf).
  unfold calculate_inception_stats_count. rewrite He. split; intros Hcmp.
  - exists used. rewrite decide_True by lia.
    repeat split; [do 2 f_equal; lia| |exact Hf].
    rewrite Hs. cbn [Zsum foldr]. lia.
  - rewrite decide_False by lia. reflexivity.
Qed.

Lemma calculate_inception_stats_count_spec_witness :
  (∃ used, calculate_inception_stats_count 5 2 [3; 0; 4]%Z
           = OkE (5%Z, used)
           ∧ Zsum used = 5%Z ∧ Forall (λ r, 0 ≤ r)%Z used)
  ∧ calculate_inception_stats_count 9 2 [3; 0; 4]%Z
    = RaiseE (Std AssertionError).
Proof.
  split.
  - apply (calculate_inception_stats_count_spec 5 2 [3; 0; 4]%Z);
      [lia|lia|repeat constructor; lia|vm_compute; discriminate].
  - apply (calculate_inception_stats_count_spec 9 2 [3; 0; 4]%Z);
      [lia|lia|repeat constructor; lia|vm_compute; reflexivity].
Defined.


(** ** Parameter names: [split], [join] and [filter_] *)

Lemma sapp_cons (c : Ascii.ascii) (s b : string) :
  String c s +:+ b = String c (s +:+ b).
Proof. reflexivity. Qed.

Lemma sapp_nil_l (s : string) : "" +:+ s = s.
Proof. reflexivity. Qed.

Lemma sapp_nil_r (s : string) : s +:+ "" = s.
Proof. induction s as [|c s IH]; [reflexivity|]. rewrite sapp_cons. f_equal. exact IH. Qed.

Lemma sapp_assoc (a b c : string) : (a +:+ b) +:+ c = a +:+ (b +:+ c).
Proof. induction a as [|x a IH]; [reflexivity|]. rewrite !sapp_cons. f_equal. exact IH. Qed.

Lemma string_drop_nil (k : nat) : string_drop k "" = "".
Proof. by destruct k. Qed.

Lemma string_drop_suffix (k : nat) (s : string) :
  ∃ pre, s = pre +:+ string_drop k s.
Proof.
  revert s. induction k as [|k IH]; intros s.
  - by exists ""%string.
  - destruct s as [|c s]; [by exists ""%string|].
    destruct (IH s) as [pre Hpre]. exists (String c pre). rewrite sapp_cons. cbn [string_drop]. by rewrite <- Hpre.
Qed.

Lemma prefix_drop (sep s : string) :
  String.prefix sep s = true → s = sep +:+ string_drop (String.length sep) s.
Proof.
  revert s. induction sep as [|a sep IH]; intros s H; [reflexivity|].
  destruct s as [|b s]; [discriminate|]. cbn in H.
  rewrite sapp_cons. cbn [String.length string_drop].
  destruct (Ascii.ascii_dec a b) as [->|]; [|discriminate].
  by rewrite <- (IH s H).
Qed.

Lemma prefix_app (sub s b : string) :
  String.prefix sub s = true → String.prefix sub (s +:+ b) = true.
Proof.
  revert s. induction sub as [|a sub IH]; intros s H; [by destruct (s +:+ b)|].
  destruct s as [|c s]; [discriminate|]. rewrite sapp_cons. cbn in H |- *.
  destruct (Ascii.ascii_dec a c); [by apply IH|discriminate].
Qed.

Lemma contains_app_l (sub s b : string) :
  contains sub s = true → contains sub (s +:+ b) = true.
Proof.
  induction s as [|c s IH]; cbn [contains]; intros H.
  - rewrite orb_false_r in H. destruct sub; [|discriminate].
    rewrite sapp_nil_l. destruct b; reflexivity.
  - apply orb_true_iff in H as [H|H].
    + pose proof (prefix_app sub (String c s) b H) as Hp.
      rewrite sapp_cons in Hp |- *. cbn [contains]. by rewrite Hp.
    + rewrite sapp_cons. cbn [contains]. rewrite (IH H). apply orb_true_r.
Qed.

Lemma contains_app_r (sub a s : string) :
  contains sub s = true → contains sub (a +:+ s) = true.
Proof.
  intros H. induction a as [|c a IH]; [exact H|].
  rewrite sapp_cons. cbn [contains]. rewrite IH. apply orb_true_r.
Qed.

Lemma split_go_cons (sep : string) (k : nat) (cur s : string) :
  ∃ x l, split_go sep k cur s = x :: l.
Proof.
  revert k cur. induction s as [|c s IH]; intros k cur; cbn [split_go].
  - by eexists _, _.
  - destruct k; [|apply IH].
    destruct (String.prefix sep (String c s)); [by eexists _, _|apply IH].
Qed.

Lemma join_cons (sep x y : string) (l : list string) :
  join sep (x :: y :: l) = x +:+ sep +:+ join sep (y :: l).
Proof. reflexivity. Qed.

Lemma join_split_go (sep : string) :
  sep ≠ ""%string →
  ∀ s k cur, join sep (split_go sep k cur s) = cur +:+ string_drop k s.
Proof.
  intros Hsep. induction s as [|c s IH]; intros k cur; cbn [split_go].
  - rewrite string_drop_nil, sapp_nil_r. reflexivity.
  - destruct k as [|k]; [|apply IH].
    destruct (String.prefix sep (String c s)) eqn:Hp.
    + destruct (split_go_cons sep (String.length sep - 1) "" s) as (y & l & Hl).
      pose proof (IH (String.length sep - 1)%nat ""%string) as Hj.
      rewrite Hl in Hj |- *. rewrite join_cons, Hj, sapp_nil_l.
      cbn [string_drop]. rewrite (prefix_drop _ _ Hp) at 1.
      destruct sep as [|a sep]; [done|].
      replace (String.length (String a sep) - 1)%nat with (String.length sep)
        by (cbn [String.length]; lia).
      cbn [String.length string_drop]. reflexivity.
    + rewrite IH. cbn [string_drop]. rewrite sapp_assoc, sapp_cons, sapp_nil_l.
      reflexivity.
Qed.

Lemma split_go_pieces (sep sub : string) :
  ∀ s k cur piece,
    piece ∈ split_go sep k cur s →
    contains sub piece = true →
    contains sub (cur +:+ string_drop k s) = true.
Proof.
  induction s as [|c s IH]; intros k cur piece Hin Hc; cbn [split_go] in Hin.
  - apply list_elem_of_singleton in Hin as ->.
    by rewrite string_drop_nil, sapp_nil_r.
  - destruct k as [|k]; [|exact (IH k cur piece Hin Hc)].
    cbn [string_drop].
    destruct (String.prefix sep (String c s)).
    + apply elem_of_cons in Hin as [->|Hin]; [by apply contains_app_l|].
      pose proof (IH _ _ _ Hin Hc) as H. rewrite sapp_nil_l in H.
      destruct (string_drop_suffix (String.length sep - 1) s) as [pre Hpre].
      apply contains_app_r.
      change (String c s) with (String c "" +:+ s). apply contains_app_r.
      rewrite Hpre. by apply contains_app_r.
    + pose proof (IH _ _ _ Hin Hc) as H. cbn [string_drop] in H.
      by rewrite sapp_assoc, sapp_cons, sapp_nil_l in H.
Qed.

Lemma prefix_single (a c : Ascii.ascii) (s : string) :
  String.prefix (String a "") (String c s)
  = if Ascii.ascii_dec a c then true else false.
Proof.
  cbn -[Ascii.ascii_dec]. destruct (Ascii.ascii_dec a c); [|reflexivity].
  by destruct s.
Qed.

Lemma split_dot_prefix (p n : string) :
  contains "." p = false →
  ∀ cur, split_go "." 0 cur (p +:+ "." +:+ n)
         = (cur +:+ p) :: split_go "." 0 "" n.
Proof.
  induction p as [|c p IH]; intros Hp cur.
  - rewrite sapp_nil_r, sapp_nil_l, sapp_cons, sapp_nil_l. cbn [split_go].
    rewrite prefix_single.
    destruct (Ascii.ascii_dec _ _) as [_|Hne]; [reflexivity|by destruct Hne].
  - cbn [contains] in Hp. apply orb_false_iff in Hp as [Hc Hp].
    rewrite sapp_cons. cbn [split_go].
    assert (Hpre : String.prefix "." (String c (p +:+ "." +:+ n)) = false).
    { rewrite prefix_single in Hc |- *. exact Hc. }
    rewrite Hpre, (IH Hp), sapp_assoc, sapp_cons, sapp_nil_l. reflexivity.
Qed.

(** X11.  Splitting a name at a non-empty separator and joining the pieces
    with the same separator gives the name back: ['.'.join(s.split('.'))]
    is [s]. *)
Theorem join_split (sep s : string) :
  sep ≠ ""%string → join sep (split sep s) = s.
Proof.
  intros Hsep. unfold split. by rewrite (join_split_go sep Hsep s 0 "").
Qed.

(** X12.  A teacher parameter named [p.n], with [p] free of dots, passes
    the name test for the student parameter named [n]: the teacher's
    wrapper prefix is dropped by [src_name.split('.')[1:]]. *)
Theorem name_match_drops_prefix (linear_probing : bool) (p n : string) :
  contains "." p = false →
  name_match linear_probing n (p +:+ "." +:+ n) = true.
Proof.
  intros Hp. unfold name_match.
  assert (Hin : n ∈ src_forms (p +:+ "." +:+ n)).
  { unfold src_forms, split. rewrite (split_dot_prefix p n Hp ""). cbn [tail].
    rewrite (join_split_go "." ltac:(discriminate) n 0 ""). cbn. left. }
  by rewrite (bool_decide_eq_true_2 _ Hin).
Qed.

(** X13.  [filter_] leaves a name without ['_train'] as it is, so for such
    a student parameter [linear_probing] does not change which teacher
    names match. *)
Theorem filter__without_train (dst_name : string) :
  contains "_train" dst_name = false →
  filter_ dst_name = dst_name
  ∧ ∀ src_name, name_match true dst_name src_name
                = name_match false dst_name src_name.
Proof.
  intros Hc.
  assert (Hf : filter_ dst_name = dst_name).
  { unfold filter_.
    match goal with |- join "." (?f <$> ?l) = _ =>
      assert (Hmap : f <$> l = l) end.
    { rewrite <- (list_fmap_id (split "." dst_name)) at 2.
      apply list_fmap_ext. intros i piece Hi. cbn beta.
      destruct (contains "_train" piece) eqn:Hpc; [|reflexivity].
      apply list_elem_of_lookup_2 in Hi.
      pose proof (split_go_pieces "." "_train" dst_name 0 "" piece Hi Hpc) as H.
      rewrite sapp_nil_l in H. cbn [string_drop] in H. congruence. }
    rewrite Hmap. apply join_split. discriminate. }
  split; [exact Hf|]. intros src_name. unfold name_match. rewrite Hf.
  cbn. destruct (bool_decide _); reflexivity.
Qed.

Lemma join_split_witness : join "." (split "." "model.enc.weight") = "model.enc.weight"%string.
Proof. apply join_split. discriminate. Defined.

Lemma name_match_drops_prefix_witness :
  name_match false "enc.weight" ("model" +:+ "." +:+ "enc.weight") = true.
Proof. apply name_match_drops_prefix. reflexivity. Defined.

Lemma filter__without_train_witness :
  filter_ "enc.weight" = "enc.weight"%string
  ∧ ∀ src_name, name_match true "enc.weight" src_name
                = name_match false "enc.weight" src_name.
Proof. apply filter__without_train. reflexivity. Defined.

(** ** [cm_train.main]: more on the copies *)

Lemma zip_fst_take {A B} (l : list A) (k : list B) :
  (zip l k).*1 = take (length k) l.
Proof.
  revert k. induction l as [|a l IH]; intros [|b k]; cbn; try reflexivity.
  by rewrite <- IH.
Qed.

(** X15.  The [zip] of the initialisation loop stops at the shorter
    list: when the two models differ in their number of parameters no
    error is raised, the common positions are copied and every parameter
    of [target_model] beyond them keeps its own values. *)
Theorem init_target_truncates (target_params model_params : list nat)
    (σ : gmap nat param) :
  NoDup target_params →
  (∀ l, l ∈ target_params → l ∉ model_params) →
  (∀ i d s, target_params !! i = Some d → model_params !! i = Some s →
     copy_ready σ d s) →
  ∃ σ', init_target target_params model_params σ = Ok σ'
        ∧ (∀ i d s, target_params !! i = Some d → model_params !! i = Some s →
             ∃ pd ps, σ' !! d = Some pd ∧ σ !! s = Some ps
                      ∧ t_rows (p_data pd) = t_rows (p_data ps))
        ∧ (∀ i d, target_params !! i = Some d →
             (length model_params ≤ i)%nat → σ' !! d = σ !! d).
Proof.
  intros Hnd Hdisj Hready. unfold init_target.
  assert (Hin1 : ∀ d, d ∈ (zip target_params model_params).*1 →
                      d ∈ target_params).
  { intros d. rewrite zip_fst_take. apply (subseteq_take _ _ d). }
  assert (Hin2 : ∀ s, s ∈ (zip target_params model_params).*2 →
                      s ∈ model_params).
  { intros s Hs. apply list_elem_of_fmap in Hs as ([d s'] & -> & Hs).
    apply list_elem_of_lookup in Hs as [i Hi].
    apply lookup_zip_with_Some in Hi as (d' & s'' & Heq & Hd & Hs).
    simplify_eq. by eapply list_elem_of_lookup_2. }
  destruct (copy_all_spec (zip target_params model_params) σ)
    as (σ' & Hrun & Hpost & Hframe).
  - rewrite zip_fst_take. eapply sublist_NoDup; first [exact Hnd|apply sublist_take].
  - intros d s Hd Hs ->. eapply Hdisj; [by apply Hin1|by apply Hin2].
  - intros d s Hin. apply list_elem_of_lookup in Hin as [i Hi].
    apply lookup_zip_with_Some in Hi as (d' & s' & Heq & Hd & Hs).
    simplify_eq. by eapply Hready.
  - exists σ'. split; [done|]. split.
    + intros i d s Hd Hs. apply Hpost. apply list_elem_of_lookup. exists i.
      apply lookup_zip_with_Some. by exists d, s.
    + intros i d Hd Hi. apply Hframe. rewrite zip_fst_take. intros Hin.
      apply list_elem_of_lookup in Hin as [j Hj].
      apply lookup_take_Some in Hj as [Hj Hlt].
      assert (i = j) by (eapply NoDup_lookup; eauto). lia.
Qed.

Lemma init_target_truncates_witness :
  ∃ σ', init_target [0; 1]%nat [2]%nat ex_store = Ok σ'
        ∧ (∀ i d s, [0; 1]%nat !! i = Some d → [2]%nat !! i = Some s →
             ∃ pd ps, σ' !! d = Some pd ∧ ex_store !! s = Some ps
                      ∧ t_rows (p_data pd) = t_rows (p_data ps))
        ∧ (∀ i d, [0; 1]%nat !! i = Some d →
             (length [2]%nat ≤ i)%nat → σ' !! d = ex_store !! d).
Proof.
  apply (init_target_truncates [0; 1]%nat [2]%nat ex_store).
  - by apply (bool_decide_unpack _).
  - intros l Hl Hm. apply list_elem_of_singleton in Hm as ->.
    apply elem_of_cons in Hl as [Hl|Hl]; [discriminate|].
    apply list_elem_of_singleton in Hl. discriminate.
  - intros i d s Hd Hs. destruct i as [|[|i]]; try discriminate.
    injection Hd as <-. injection Hs as <-.
    exists (ex_param 0), (ex_param 2). repeat split; try reflexivity.
    repeat constructor.
Defined.

(** ** [EDMPrecond_CTM.__init__]: calls that cannot succeed *)

Section InitErrors.
Variable load_ema : string → result backbone.
Variable other_globals : string → option (gmap string pyval → result backbone).

Lemma merge_kwargs_clash (explicit extra : gmap string pyval) (k : string) :
  is_Some (explicit !! k) → is_Some (extra !! k) →
  merge_kwargs explicit extra = Raise TypeError.
Proof.
  intros [v Hv] [w Hw]. unfold merge_kwargs.
  destruct (decide (explicit ##ₘ extra)) as [Hd|_]; [|reflexivity].
  exfalso. exact (proj1 (map_disjoint_spec explicit extra) Hd k v w Hv Hw).
Qed.

Lemma wrapper_keywords_plain (a : ctm_init_args) (k : string) :
  k ∈ wrapper_keywords → is_Some (plain_call_kwargs a !! k).
Proof.
  unfold wrapper_keywords. rewrite !elem_of_cons, elem_of_nil.
  intros [->|[->|[->|[->|[->|[->|[->|[]]]]]]]]; by eexists.
Qed.

Lemma wrapper_keywords_arch (a : ctm_init_args) (k : string) :
  k ∈ wrapper_keywords ∨ k ∈ arch_options →
  is_Some (arch_call_kwargs a !! k).
Proof.
  unfold wrapper_keywords, arch_options. rewrite !elem_of_cons, !elem_of_nil.
  intros [[->|[->|[->|[->|[->|[->|[->|[]]]]]]]]|[->|[->|[->|[->|[]]]]]];
    by eexists.
Qed.

Lemma construct_clash (model_type : string) (explicit extra : gmap string pyval)
    (k : string) :
  is_Some (globals other_globals model_type) →
  is_Some (explicit !! k) → is_Some (extra !! k) →
  construct other_globals model_type explicit extra = Raise TypeError.
Proof.
  intros [cls Hcls] He Hx. unfold construct. rewrite Hcls.
  by rewrite (merge_kwargs_clash explicit extra k He Hx).
Qed.

Lemma construct_DhariwalUNet_condition_mode (explicit extra : gmap string pyval) :
  is_Some (explicit !! "condition_mode"%string) →
  construct other_globals "DhariwalUNet" explicit extra = Raise TypeError.
Proof.
  intros He. unfold construct, globals.
  rewrite decide_False by discriminate. rewrite decide_True by reflexivity.
  unfold merge_kwargs.
  destruct (decide (explicit ##ₘ extra)) as [_|_]; [|reflexivity].
  cbn [mbind result_bind]. unfold DhariwalUNet_init, bind_args.
  destruct (decide (dom (explicit ∪ extra)
                      ⊆ list_to_set DhariwalUNet_required
                        ∪ dom DhariwalUNet_defaults)) as [Hsub|_];
    [|reflexivity].
  exfalso.
  assert (Hin : "condition_mode"%string ∈ dom (explicit ∪ extra)).
  { apply elem_of_dom, lookup_union_is_Some. by left. }
  apply Hsub in Hin.
  apply elem_of_union in Hin as [Hin|Hin].
  - apply elem_of_list_to_set in Hin. unfold DhariwalUNet_required in Hin.
    rewrite !elem_of_cons, elem_of_nil in Hin.
    destruct Hin as [?|[?|[?|[]]]]; discriminate.
  - apply elem_of_dom in Hin as [v Hv]. discriminate.
Qed.

(** X16.  A keyword that the wrapper writes out itself cannot also be
    passed through [**model_kwargs]: the constructor call then raises
    [TypeError] (keyword given twice), whatever class [model_type] names.
    This holds for the seven keywords of both calls and, under
    [arch = 'ddpmpp'] or ['ncsnpp'], also for the four arch options. *)
Theorem EDMPrecond_CTM_init_duplicate_keyword (a : ctm_init_args) (k : string) :
  a_teacher a = false →
  is_Some (globals other_globals (a_model_type a)) →
  is_Some (a_model_kwargs a !! k) →
  k ∈ wrapper_keywords
  ∨ (a_arch a ∈ ["ddpmpp"; "ncsnpp"]%string ∧ k ∈ arch_options) →
  EDMPrecond_CTM_init_model load_ema other_globals a = Raise TypeError.
Proof.
  intros Ht Hcls Hk Hkw. unfold EDMPrecond_CTM_init_model. rewrite Ht.
  destruct (bool_decide (a_arch a ∈ ["ddpmpp"; "ncsnpp"]%string)) eqn:Harch.
  - apply (construct_clash _ _ _ k Hcls); [|exact Hk].
    apply wrapper_keywords_arch. destruct Hkw as [?|[_ ?]]; [by left|by right].
  - apply (construct_clash _ _ _ k Hcls); [|exact Hk].
    apply wrapper_keywords_plain. destruct Hkw as [?|[Ha _]]; [done|].
    apply bool_decide_eq_false in Harch. contradiction.
Qed.

(** X17.  With [teacher] false, [model_type = 'DhariwalUNet'] never gives
    a model: both constructor calls pass [condition_mode], which
    [DhariwalUNet.__init__] does not take, so the call raises
    [TypeError] for every [arch] and every [model_kwargs]. *)
Theorem EDMPrecond_CTM_init_DhariwalUNet (a : ctm_init_args) :
  a_teacher a = false →
  a_model_type a = "DhariwalUNet"%string →
  EDMPrecond_CTM_init_model load_ema other_globals a = Raise TypeError.
Proof.
  intros Ht Hm. unfold EDMPrecond_CTM_init_model. rewrite Ht, Hm.
  destruct (bool_decide (a_arch a ∈ ["ddpmpp"; "ncsnpp"]%string)).
  - apply construct_DhariwalUNet_condition_mode.
    apply wrapper_keywords_arch. left. unfold wrapper_keywords.
    rewrite !elem_of_cons. tauto.
  - apply construct_DhariwalUNet_condition_mode.
    apply wrapper_keywords_plain. unfold wrapper_keywords.
    rewrite !elem_of_cons. tauto.
Qed.
End InitErrors.

Section InitArch.
Variable load_ema : string → result backbone.
Variable other_globals : string → option (gmap string pyval → result backbone).


End InitArch.






Lemma EDMPrecond_CTM_init_duplicate_keyword_witness :
  EDMPrecond_CTM_init_model ex_load_ema ex_other_globals ex_init_args_dup
  = Raise TypeError.
Proof.
  apply (EDMPrecond_CTM_init_duplicate_keyword ex_load_ema ex_other_globals
           ex_init_args_dup "resample_filter").
  - reflexivity.
  - by eexists.
  - by eexists.
  - right. split.
    + unfold ex_init_args_dup. cbn [a_arch]. left.
    + unfold arch_options. left.
Defined.

Lemma EDMPrecond_CTM_init_DhariwalUNet_witness :
  EDMPrecond_CTM_init_model ex_load_ema ex_other_globals ex_init_args_dhariwal
  = Raise TypeError.
Proof.
  apply (EDMPrecond_CTM_init_DhariwalUNet ex_load_ema ex_other_globals
           ex_init_args_dhariwal); reflexivity.
Defined.

(** ** [EDMPrecond_CTM.forward]: the class labels *)

Lemma chunks_concat (n : nat) (rows : list (list ext)) (fuel : nat) :
  (0 < n)%nat → Forall (λ r, length r = n) rows →
  (length rows ≤ fuel)%nat →
  chunks fuel n (concat rows) = rows.
Proof.
  intros Hn Hrows. revert fuel.
  induction Hrows as [|r rows Hr _ IH]; intros fuel Hfuel.
  - by destruct fuel.
  - cbn [concat]. destruct r as [|v r]; [cbn in Hr; lia|].
    destruct fuel as [|fuel]; [cbn in Hfuel; lia|].
    change (chunks (S fuel) n ((v :: r) ++ concat rows))
      with (take n ((v :: r) ++ concat rows)
            :: chunks fuel n (drop n ((v :: r) ++ concat rows))).
    assert (Ht : take n ((v :: r) ++ concat rows) = v :: r)
      by (rewrite <- Hr; apply take_app_length).
    assert (Hd : drop n ((v :: r) ++ concat rows) = concat rows)
      by (rewrite <- Hr; apply drop_app_length).
    rewrite Ht, Hd.
    rewrite IH; [reflexivity|]. cbn in Hfuel. lia.
Qed.

Lemma eye_row_one_hot (n : nat) (i k : Z) :
  (- Z.of_nat n ≤ i < Z.of_nat n)%Z →
  k = (if decide (i < 0)%Z then (Z.of_nat n + i)%Z else i) →
  (0 ≤ k < Z.of_nat n)%Z ∧ eye_row n (Z.to_nat k) = one_hot n i.
Proof.
  intros Hi ->.
  assert (Hmod : (i `mod` Z.of_nat n
                  = if decide (i < 0)%Z then Z.of_nat n + i else i)%Z).
  { destruct (decide (i < 0)%Z).
    - symmetry. apply (Z.mod_unique_pos _ _ (-1)); lia.
    - apply Z.mod_small. lia. }
  rewrite <- Hmod. split.
  - apply Z.mod_pos_bound. lia.
  - unfold eye_row, one_hot. apply list_fmap_ext. intros _ j _. cbn beta.
    assert (H0 : (0 ≤ i `mod` Z.of_nat n)%Z) by (apply Z.mod_pos_bound; lia).
    destruct (decide (Z.to_nat (i `mod` Z.of_nat n) = j)) as [He|He];
      destruct (decide (Z.of_nat j = i `mod` Z.of_nat n)%Z) as [He'|He'];
      try reflexivity; lia.
Qed.

(** X18.  With [label_dim = n > 0] and class indices ['y'] in
    [-n .. n-1], [EDMPrecond_CTM.forward] gives the backbone one one-hot
    row of [n] entries per index (a negative index counts from the end),
    in float32 and on the device of [self.eye]. *)
Theorem ctm_class_labels_one_hot (self : EDMPrecond_CTM) (rescaled_x : tensor)
    (model_kwargs : gmap string (list Z)) (y : list Z) :
  let n := ctm_label_dim self in
  n ≠ 0%nat →
  model_kwargs !! "y"%string = Some y →
  Forall (λ i, - Z.of_nat n ≤ i < Z.of_nat n)%Z y →
  ctm_prepare_class_labels self rescaled_x model_kwargs
  = Ok (Some (Tensor float32 (ctm_eye_device self) (one_hot n <$> y))).
Proof.
  intros n Hn Hy Hrange. unfold ctm_prepare_class_labels. fold n.
  rewrite decide_False by exact Hn.
  rewrite decide_False by (intros ->; by rewrite lookup_empty in Hy).
  rewrite Hy.
  assert (Heye : eye_index n y = Ok (one_hot n <$> y)).
  { unfold eye_index. rewrite <- (mapM_Ok (one_hot n) y). apply mapM_ext.
    eapply Forall_impl; [exact Hrange|]. intros i Hi. cbn beta zeta.
    destruct (eye_row_one_hot n i _ Hi eq_refl) as [Hk Hrow].
    rewrite decide_True by exact Hk. by rewrite Hrow. }
  rewrite Heye. cbn [mbind result_bind]. unfold reshape_rows, entries.
  cbn [t_rows t_dtype t_device].
  assert (Hlen : Forall (λ r, length r = n) (one_hot n <$> y)).
  { apply Forall_fmap, Forall_true. intros i. cbn.
    unfold one_hot. by rewrite length_fmap, length_seq. }
  rewrite decide_True by (by apply (eye_index_length n y)).
  cbn [mbind result_bind]. do 3 f_equal.
  apply chunks_concat; [lia|exact Hlen|].
  clear -Hlen Hn. induction Hlen as [|r rows Hr _ IH]; [cbn; lia|].
  cbn [concat length]. rewrite length_app. lia.
Qed.

Lemma ctm_class_labels_one_hot_witness :
  ctm_prepare_class_labels (with_label_dim ex_student 3) ex_x
    {[ "y"%string := [2; -1; 0]%Z ]}
  = Ok (Some (Tensor float32 cpu
                [[Fin 0; Fin 0; Fin 1]; [Fin 0; Fin 0; Fin 1];
                 [Fin 1; Fin 0; Fin 0]])).
Proof.
  apply (ctm_class_labels_one_hot (with_label_dim ex_student 3) ex_x
           {[ "y"%string := [2; -1; 0]%Z ]} [2; -1; 0]%Z).
  - discriminate.
  - reflexivity.
  - repeat constructor; cbn; lia.
Defined.

(** ** [EDMPrecond.forward]: the dtype check *)

Section PrecondErrors.
Context {K : Type} (model : call K → result tensor).

Lemma precond_tail_dtype dt c_skip c_out c_in c_noise x cl kw cx F_x w :
  scale c_in x = Ok cx →
  model (Call (to_dtype dt cx) (flatten c_noise) cl kw) = Ok F_x →
  t_dtype F_x ≠ dt →
  precond_tail model dt c_skip c_out c_in c_noise x cl kw w
  = (Raise AssertionError,
     w ++ [Call (to_dtype dt cx) (flatten c_noise) cl kw]).
Proof.
  intros Hcx HF Hdt. unfold precond_tail, bind_M, lift, invoke.
  rewrite Hcx, HF. rewrite bool_decide_eq_false_2 by done. reflexivity.
Qed.

(** X19.  [EDMPrecond.forward] checks the backbone's dtype: for noise
    levels [sigma > 0], one per sample, a backbone that answers in a
    dtype other than the one it was called with makes the call raise
    [AssertionError], after exactly one backbone invocation. *)
Theorem EDMPrecond_forward_dtype_check (self : EDMPrecond) (x sigma : tensor)
    (class_labels : option tensor) (force_fp32 : bool) (kw : K)
    (sg : list R) (cl : option tensor) (F_x : tensor) (w : list (call K)) :
  let sd := edm_sigma_data self in
  let dt := select_dtype (edm_use_fp16 self) (edm_use_bf16 self) force_fp32 x in
  let c := Call (Tensor dt (t_device x) (scale_rows (c_in_edm sd <$> sg) (t_rows x)))
                (Tensor float32 (t_device x) [(λ s, Fin (c_noise_edm s)) <$> sg])
                cl kw in
  entries sigma = Fin <$> sg →
  Forall (λ s, 0 < s) sg →
  length sg = length (t_rows x) →
  t_device sigma = t_device x →
  prepare_class_labels (edm_label_dim self) (to_dtype float32 x) class_labels
    = Ok cl →
  model c = Ok F_x →
  t_dtype F_x ≠ dt →
  EDMPrecond_forward model self x sigma class_labels force_fp32 kw w
  = (Raise AssertionError, w ++ [c]).
Proof.
  intros sd dt c Hsg Hpos Hlen Hdev Hcl HF Hdt.
  unfold EDMPrecond_forward.
  rewrite (reshape_col_fin _ _ Hsg), Hdev.
  unfold bind_M at 1. unfold lift at 1. rewrite Hcl.
  fold sd.
  assert (Hsel : select_dtype (edm_use_fp16 self) (edm_use_bf16 self)
                   force_fp32 (to_dtype float32 x) = dt) by reflexivity.
  rewrite Hsel.
  unfold tpow2, tsqrt, tadd_s, sadd_t, sdiv_t, tmul_s, tdiv_s, tlog, tdiv.
  rewrite !tmap_col. rewrite tbin_col_col.
  unfold bind_M at 1. unfold lift at 1. simpl promote.
  rewrite (col_ext_pos _ _ _ _ sg Hpos (c_in_edm_ext sd)).
  rewrite (col_ext_pos _ _ _ _ sg Hpos c_noise_edm_ext).
  destruct x as [dx devx X]. simpl in *.
  unfold to_dtype. simpl.
  erewrite precond_tail_dtype; cycle 1.
  - simpl. unfold tmul. rewrite tbin_col_batch by done. reflexivity.
  - unfold to_dtype. simpl. rewrite flatten_col, scale_rows_fmap. exact HF.
  - exact Hdt.
  - unfold to_dtype. simpl. rewrite flatten_col, scale_rows_fmap. reflexivity.
Qed.
End PrecondErrors.

Lemma EDMPrecond_forward_dtype_check_witness :
  EDMPrecond_forward ex_F_half ex_edm ex_x ex_sigma None false tt []
  = (Raise AssertionError,
     [Call (Tensor float32 cpu (scale_rows [c_in_edm 0.5 1] [[Fin 1]]))
           (Tensor float32 cpu [[Fin (c_noise_edm 1)]]) None tt]).
Proof.
  apply (EDMPrecond_forward_dtype_check ex_F_half ex_edm ex_x ex_sigma None
           false tt [1] None
           (Tensor float16 cpu (scale_rows [c_in_edm 0.5 1] [[Fin 1]])) []).
  - reflexivity.
  - repeat constructor. lra.
  - reflexivity.
  - reflexivity.
  - reflexivity.
  - reflexivity.
  - discriminate.
Defined.

(** ** [iDDPMPrecond.round_sigma] *)

Lemma mapM_Forall2 {A B} (f : A → result B) (P : A → B → Prop) (l : list A) :
  Forall (λ a, ∃ b, f a = Ok b ∧ P a b) l →
  ∃ r, mapM f l = Ok r ∧ Forall2 P l r.
Proof.
  induction 1 as [|a l (b & Hb & HP) _ (r & Hr & HF)].
  - exists []. split; [reflexivity|constructor].
  - exists (b :: r). split; [|by constructor].
    simpl. rewrite Hb. simpl. rewrite Hr. reflexivity.
Qed.

Lemma cdist1_fin (x v : R) : cdist1 (Fin x) (Fin v) = Fin (Rabs (v - x)).
Proof.
  unfold cdist1, esub, epow2. cbn [eneg eadd emul esqrt].
  destruct (Rlt_dec ((x + - v) * (x + - v)) 0) as [Hlt|_].
  { pose proof (Rle_0_sqr (x + - v)) as H. unfold Rsqr in H. lra. }
  f_equal. rewrite Rabs_minus_sym.
  change ((x + - v) * (x + - v)) with (Rsqr (x - v)). apply sqrt_Rsqr_abs.
Qed.

Lemma argmin_go_spec (dl : list R) :
  ∀ (b : R) (ib i : nat),
    let k := argmin_go (Fin b) ib i (Fin <$> dl) in
    (k = ib ∧ Forall (λ d, b <= d) dl)
    ∨ (∃ j d, k = (i + j)%nat ∧ dl !! j = Some d ∧ d < b
              ∧ (∀ j' d', dl !! j' = Some d' → d <= d')
              ∧ (∀ j' d', (j' < j)%nat → dl !! j' = Some d' → d < d')).
Proof.
  induction dl as [|d0 dl IH]; intros b ib i; cbn zeta.
  - left. split; [reflexivity|constructor].
  - cbn [fmap list_fmap argmin_go ext_ltb].
    destruct (Rlt_dec d0 b) as [Hlt|Hge].
    + right. destruct (IH d0 i (S i)) as [[Hk Hall]|(j & d & Hk & Hd & Hlt' & Hmin & Hfst)].
      * exists 0%nat, d0. split; [rewrite Hk; lia|]. split; [reflexivity|].
        split; [exact Hlt|]. split.
        -- intros [|j'] d' Hd'; cbn in Hd'; [injection Hd' as <-; lra|].
           exact (Forall_lookup_1 _ _ _ _ Hall Hd').
        -- intros j' d' Hj'. lia.
      * exists (S j), d. split; [rewrite Hk; lia|]. split; [exact Hd|].
        split; [lra|]. split.
        -- intros [|j'] d' Hd'; cbn in Hd'; [injection Hd' as <-; lra|].
           by eapply Hmin.
        -- intros [|j'] d' Hj' Hd'; cbn in Hd'; [injection Hd' as <-; lra|].
           eapply Hfst; [|exact Hd']. lia.
    + destruct (IH b ib (S i)) as [[Hk Hall]|(j & d & Hk & Hd & Hlt' & Hmin & Hfst)].
      * left. split; [exact Hk|]. constructor; [lra|exact Hall].
      * right. exists (S j), d. split; [rewrite Hk; lia|]. split; [exact Hd|].
        split; [exact Hlt'|]. split.
        -- intros [|j'] d' Hd'; cbn in Hd'; [injection Hd' as <-; lra|].
           by eapply Hmin.
        -- intros [|j'] d' Hj' Hd'; cbn in Hd'; [injection Hd' as <-; lra|].
           eapply Hfst; [|exact Hd']. lia.
Qed.

Lemma argmin_fin_spec (dl : list R) :
  dl ≠ [] →
  ∃ k d, argmin (Fin <$> dl) = Ok k ∧ dl !! k = Some d
         ∧ (∀ j d', dl !! j = Some d' → d <= d')
         ∧ (∀ j d', (j < k)%nat → dl !! j = Some d' → d < d').
Proof.
  destruct dl as [|d0 dl]; [done|]. intros _. cbn [fmap list_fmap argmin].
  destruct (argmin_go_spec dl d0 0 1)
    as [[Hk Hall]|(j & d & Hk & Hd & Hlt & Hmin & Hfst)]; cbn zeta in Hk.
  - exists 0%nat, d0. rewrite Hk. split; [reflexivity|]. split; [reflexivity|].
    split.
    + intros [|j] d' Hd'; cbn in Hd'; [injection Hd' as <-; lra|].
      exact (Forall_lookup_1 _ _ _ _ Hall Hd').
    + intros j d' Hj. lia.
  - exists (S j), d. rewrite Hk. split; [reflexivity|]. split; [exact Hd|].
    split.
    + intros [|j'] d' Hd'; cbn in Hd'; [injection Hd' as <-; lra|].
      by eapply Hmin.
    + intros [|j'] d' Hj' Hd'; cbn in Hd'; [injection Hd' as <-; lra|].
      eapply Hfst; [|exact Hd']. lia.
Qed.

(** The table of a wrapper built by [__init__] is finite, non-negative
    and non-increasing, and [sigma_max] is its first entry. *)
Lemma iDDPMPrecond_init_table (C_1 C_2 : R) (M : nat) (self : iDDPMPrecond) :
  0 < C_1 → C_1 <= 1 → 0 <= C_2 →
  iDDPMPrecond_init C_1 C_2 M = Ok self →
  ∃ ur smax, iddpm_u self = Fin <$> ur ∧ table_inv M 0 ur
             ∧ iddpm_sigma_max self = Fin smax ∧ ur !! 0%nat = Some smax.
Proof.
  intros HC1 HC1' HC2 Hinit.
  destruct (table_inv_loop C_1 C_2 M HC1 HC1' HC2 M (replicate (M + 1) 0)
              ltac:(lia) (table_inv_init M)) as (ur & Hur & Hinv).
  rewrite fmap_replicate in Hur.
  pose proof Hinv as (Hlen & _).
  destruct (lookup_lt_is_Some_2 ur 0 ltac:(lia)) as [smax Hmax].
  exists ur, smax.
  unfold iDDPMPrecond_init, u_table in Hinit. rewrite Hur in Hinit.
  destruct (getitem (Fin <$> ur) (Z.of_nat M - 1)) as [smin|]; [|discriminate].
  cbn [mbind result_bind] in Hinit.
  rewrite (getitem_nonneg _ 0 (Fin smax)) in Hinit;
    [|lia|change (Z.to_nat 0) with 0%nat; by rewrite list_lookup_fmap, Hmax].
  cbn [mbind result_bind] in Hinit. injection Hinit as <-.
  cbn [iddpm_u iddpm_sigma_max]. done.
Qed.

Lemma table_inv_nonempty (M : nat) (ur : list R) : table_inv M 0 ur → ur ≠ [].
Proof. intros (Hlen & _) ->. cbn in Hlen. lia. Qed.

Lemma Forall2_compose {A B C} (P : A → B → Prop) (Q : B → C → Prop)
    (l : list A) (k : list B) (m : list C) :
  Forall2 P l k → Forall2 Q k m →
  Forall2 (λ a c, ∃ b, P a b ∧ Q b c) l m.
Proof.
  intros H. revert m. induction H as [|a b l k HP _ IH]; intros m HQ.
  - inversion HQ. constructor.
  - inversion HQ as [|? c ? m' Hq Hm]; subst. constructor; [by exists b|].
    by apply IH.
Qed.

Lemma Forall2_compose2 {A B C} (P : A → B → Prop) (Q : B → C → Prop)
    (X : list (list A)) (I : list (list B)) (Y : list (list C)) :
  Forall2 (Forall2 P) X I → Forall2 (Forall2 Q) I Y →
  Forall2 (Forall2 (λ a c, ∃ b, P a b ∧ Q b c)) X Y.
Proof.
  intros H1 H2. pose proof (Forall2_compose _ _ _ _ _ H1 H2) as H.
  eapply Forall2_impl; [exact H|]. intros r s (ks & Hr & Hs).
  by eapply Forall2_compose.
Qed.

Lemma nearest_index_spec (self : iDDPMPrecond) (ur : list R) (x : R) :
  iddpm_u self = Fin <$> ur → ur ≠ [] →
  ∃ k y, nearest_index self (Fin x) = Ok k ∧ ur !! k = Some y
         ∧ (∀ j v, ur !! j = Some v → Rabs (y - x) <= Rabs (v - x))
         ∧ (∀ j v, (j < k)%nat → ur !! j = Some v →
              Rabs (y - x) < Rabs (v - x)).
Proof.
  intros Hu Hne. unfold nearest_index. rewrite Hu.
  rewrite <- list_fmap_compose.
  rewrite (list_fmap_ext (cdist1 (Fin x) ∘ Fin)
             (Fin ∘ (λ v, Rabs (v - x))) ur)
    by (intros; cbn; apply cdist1_fin).
  rewrite list_fmap_compose.
  destruct (argmin_fin_spec ((λ v, Rabs (v - x)) <$> ur))
    as (k & d & Hk & Hd & Hmin & Hfst).
  { intros H. apply fmap_nil_inv in H. contradiction. }
  rewrite list_lookup_fmap in Hd.
  destruct (ur !! k) as [y|] eqn:Hy; [|discriminate]. injection Hd as <-.
  exists k, y. split; [exact Hk|]. split; [exact Hy|]. split.
  - intros j v Hv. apply (Hmin j). by rewrite list_lookup_fmap, Hv.
  - intros j v Hj Hv. apply (Hfst j); [exact Hj|].
    by rewrite list_lookup_fmap, Hv.
Qed.

Lemma fmap_Fin_inj (r r' : list R) : Fin <$> r = Fin <$> r' → r = r'.
Proof.
  revert r'. induction r as [|x r IH]; intros [|x' r'] H; try discriminate.
  - reflexivity.
  - cbn in H. injection H as -> H. f_equal. by apply IH.
Qed.

Lemma round_sigma_fin (self : iDDPMPrecond) (ur : list R) (d : dtype)
    (dev : device) (X : list (list R)) :
  iddpm_u self = Fin <$> ur → ur ≠ [] →
  ∃ (I : list (list nat)) (Y : list (list R)),
    round_sigma_index self (fin_tensor d dev X) = Ok I
    ∧ round_sigma self (fin_tensor d dev X) = Ok (fin_tensor d dev Y)
    ∧ Forall2 (Forall2 (λ x k, ∃ y, ur !! k = Some y
                 ∧ (∀ j v, ur !! j = Some v → Rabs (y - x) <= Rabs (v - x))
                 ∧ (∀ j v, (j < k)%nat → ur !! j = Some v →
                      Rabs (y - x) < Rabs (v - x)))) X I
    ∧ Forall2 (Forall2 (λ k y, ur !! k = Some y)) I Y.
Proof.
  intros Hu Hne.
  set (P := λ (x : R) (k : nat), ∃ y, ur !! k = Some y
              ∧ (∀ j v, ur !! j = Some v → Rabs (y - x) <= Rabs (v - x))
              ∧ (∀ j v, (j < k)%nat → ur !! j = Some v →
                   Rabs (y - x) < Rabs (v - x))).
  assert (Hrow : ∀ r : list R,
            ∃ ks, mapM (nearest_index self) (Fin <$> r) = Ok ks
                  ∧ Forall2 P r ks).
  { intros r.
    destruct (mapM_Forall2 (nearest_index self)
                (λ (e : ext) (k : nat), ∀ x, e = Fin x → P x k) (Fin <$> r))
      as (ks & Hks & HF).
    - apply Forall_fmap, Forall_true. intros x. cbn.
      destruct (nearest_index_spec self ur x Hu Hne) as (k & y & Hk & Hy & H1 & H2).
      exists k. split; [exact Hk|]. intros x' [= <-]. by exists y.
    - exists ks. split; [exact Hks|].
      apply Forall2_fmap_l in HF. eapply Forall2_impl; [exact HF|].
      intros x k H. by apply H. }
  assert (Hrows : ∃ I, mapM (mapM (nearest_index self))
                         (fmap (M:=list) Fin <$> X) = Ok I
                       ∧ Forall2 (Forall2 P) X I).
  { destruct (mapM_Forall2 (mapM (nearest_index self))
                (λ (er : list ext) (ks : list nat),
                   ∀ r, er = Fin <$> r → Forall2 P r ks)
                (fmap (M:=list) Fin <$> X)) as (I & HI & HF).
    - apply Forall_fmap, Forall_true. intros r. cbn.
      destruct (Hrow r) as (ks & Hks & HP). exists ks. split; [exact Hks|].
      intros r' Heq. apply fmap_Fin_inj in Heq. by subst.
    - exists I. split; [exact HI|].
      apply Forall2_fmap_l in HF. eapply Forall2_impl; [exact HF|].
      intros r ks H. by apply H. }
  destruct Hrows as (I & HI & HP).
  exists I, (fmap (M:=list) (λ k, default 0 (ur !! k)) <$> I).
  unfold round_sigma, round_sigma_index, fin_tensor. cbn [t_rows t_dtype t_device].
  rewrite HI. cbn [mbind result_bind].
  split; [reflexivity|]. split; [|split; [exact HP|]].
  - do 2 f_equal. rewrite <- list_fmap_compose.
    assert (Hin : Forall (Forall (λ k, is_Some (ur !! k))) I).
    { clear -HP. induction HP as [|r ks X I Hr _ IH]; constructor; [|exact IH].
      clear -Hr. induction Hr as [|x k r ks (y & Hy & _) _ IH];
        constructor; [by eexists|exact IH]. }
    clear -Hin Hu. induction Hin as [|ks I Hks _ IH]; [reflexivity|].
    cbn [fmap list_fmap]. f_equal; [|exact IH].
    unfold compose. rewrite <- list_fmap_compose.
    clear -Hks Hu. induction Hks as [|k ks [y Hy] _ IH]; [reflexivity|].
    cbn [fmap list_fmap]. f_equal; [|exact IH].
    cbn. rewrite Hu, Hy. cbn.
    apply list_lookup_total_correct. by rewrite list_lookup_fmap, Hy.
  - clear -HP. induction HP as [|r ks X I Hr _ IH]; constructor; [|exact IH].
    clear -Hr. induction Hr as [|x k r ks (y & Hy & _) _ IH];
      constructor; [by rewrite Hy|exact IH].
Qed.

Lemma Forall2_lookup_unique (ur : list R) (I : list (list nat))
    (Y Y' : list (list R)) :
  Forall2 (Forall2 (λ k y, ur !! k = Some y)) I Y →
  Forall2 (Forall2 (λ k y, ur !! k = Some y)) I Y' →
  Y = Y'.
Proof.
  intros H. revert Y'. induction H as [|ks r I Y Hr _ IH]; intros Y' H'.
  - by inversion H'.
  - inversion H' as [|? r' ? Y'' Hr' HY']; subst. f_equal; [|by apply IH].
    clear -Hr Hr'. revert r' Hr'.
    induction Hr as [|k y ks r Hy _ IH]; intros r' Hr'.
    + by inversion Hr'.
    + inversion Hr' as [|? y' ? r'' Hy' Hr'']; subst.
      f_equal; [congruence|by apply IH].
Qed.

(** X20.  [round_sigma] rounds to the nearest table entry: for a wrapper
    built with [0 < C_1 <= 1] and [C_2 >= 0] and finite noise levels, the
    result has the dtype, the device and the shape of [sigma], and each of
    its entries is an entry of [u] that no other entry of [u] is closer
    to the given noise level than. *)
Theorem round_sigma_nearest (C_1 C_2 : R) (M : nat) (self : iDDPMPrecond)
    (d : dtype) (dev : device) (X : list (list R)) :
  0 < C_1 → C_1 <= 1 → 0 <= C_2 →
  iDDPMPrecond_init C_1 C_2 M = Ok self →
  ∃ Y, round_sigma self (fin_tensor d dev X) = Ok (fin_tensor d dev Y)
       ∧ Forall2 (Forall2 (nearest_in (iddpm_u self))) X Y.
Proof.
  intros HC1 HC1' HC2 Hinit.
  destruct (iDDPMPrecond_init_table C_1 C_2 M self HC1 HC1' HC2 Hinit)
    as (ur & smax & Hu & Hinv & _).
  destruct (round_sigma_fin self ur d dev X Hu (table_inv_nonempty M ur Hinv))
    as (I & Y & _ & Hrs & HP & HQ).
  exists Y. split; [exact Hrs|].
  eapply Forall2_impl; [exact (Forall2_compose2 _ _ _ _ _ HP HQ)|].
  intros r s Hrs'. eapply Forall2_impl; [exact Hrs'|].
  intros x y (k & (y' & Hy' & Hmin & _) & Hy). cbn beta in Hy.
  assert (y' = y) by congruence. subst y'. split.
  - rewrite Hu. apply list_elem_of_fmap. exists y. split; [reflexivity|].
    by eapply list_elem_of_lookup_2.
  - intros v Hv. rewrite Hu in Hv.
    apply list_elem_of_fmap in Hv as (v' & [= <-] & Hv).
    apply list_elem_of_lookup in Hv as [j Hj]. by eapply Hmin.
Qed.

(** X21.  [round_sigma] is idempotent: rounding a rounded tensor of noise
    levels gives the same tensor again. *)
Theorem round_sigma_idempotent (C_1 C_2 : R) (M : nat) (self : iDDPMPrecond)
    (d : dtype) (dev : device) (X : list (list R)) (t : tensor) :
  0 < C_1 → C_1 <= 1 → 0 <= C_2 →
  iDDPMPrecond_init C_1 C_2 M = Ok self →
  round_sigma self (fin_tensor d dev X) = Ok t →
  round_sigma self t = Ok t.
Proof.
  intros HC1 HC1' HC2 Hinit Ht.
  destruct (iDDPMPrecond_init_table C_1 C_2 M self HC1 HC1' HC2 Hinit)
    as (ur & smax & Hu & Hinv & _).
  pose proof (table_inv_nonempty M ur Hinv) as Hne.
  destruct (round_sigma_fin self ur d dev X Hu Hne)
    as (I & Y & _ & Hrs & _ & HQ).
  rewrite Hrs in Ht. injection Ht as <-.
  destruct (round_sigma_fin self ur d dev Y Hu Hne)
    as (I' & Y' & _ & Hrs' & HP' & HQ').
  rewrite Hrs'. do 3 f_equal.
  pose proof (Forall2_compose2 _ _ _ _ _ HQ HP') as H1.
  pose proof (Forall2_compose2 _ _ _ _ _ H1 HQ') as H2.
  apply (Forall2_lookup_unique ur I); [|exact HQ].
  eapply Forall2_impl; [exact H2|]. intros r s Hrs2.
  eapply Forall2_impl; [exact Hrs2|].
  intros k y' (k' & (y & Hy & (y2 & Hy2 & Hmin & _)) & Hy'). cbn beta in *.
  assert (y2 = y') by congruence. subst y2.
  pose proof (Hmin k y Hy) as Hle.
  replace (y - y) with 0 in Hle by lra. rewrite Rabs_R0 in Hle.
  pose proof (Rabs_pos (y' - y)) as Hpos.
  destruct (Req_dec (y' - y) 0) as [He|Hn].
  - replace y' with y by lra. exact Hy.
  - pose proof (Rabs_pos_lt _ Hn). lra.
Qed.

(** X22.  The index [round_sigma(sigma, return_index=True)] returns lies
    in [0 .. M] (so that [c_noise = M - 1 - index] of [forward] can be
    [-1]), and a noise level at or above [sigma_max] gets index 0. *)
Theorem round_sigma_index_range (C_1 C_2 : R) (M : nat) (self : iDDPMPrecond)
    (d : dtype) (dev : device) (X : list (list R)) :
  0 < C_1 → C_1 <= 1 → 0 <= C_2 →
  iDDPMPrecond_init C_1 C_2 M = Ok self →
  ∃ I, round_sigma_index self (fin_tensor d dev X) = Ok I
       ∧ Forall2 (Forall2 (λ x k,
           (k ≤ M)%nat
           ∧ ∀ smax, iddpm_sigma_max self = Fin smax → smax <= x →
                     k = 0%nat)) X I.
Proof.
  intros HC1 HC1' HC2 Hinit.
  destruct (iDDPMPrecond_init_table C_1 C_2 M self HC1 HC1' HC2 Hinit)
    as (ur & smax & Hu & Hinv & Hsmax & Hu0).
  destruct (round_sigma_fin self ur d dev X Hu (table_inv_nonempty M ur Hinv))
    as (I & Y & HI & _ & HP & _).
  exists I. split; [exact HI|].
  eapply Forall2_impl; [exact HP|]. intros r ks Hr.
  eapply Forall2_impl; [exact Hr|].
  intros x k (y & Hy & _ & Hfst). cbn beta. split.
  - pose proof Hinv as (Hlen & _). apply lookup_lt_Some in Hy. lia.
  - intros smax' Hs' Hx. rewrite Hsmax in Hs'. injection Hs' as <-.
    destruct k as [|k]; [reflexivity|]. exfalso.
    pose proof (Hfst 0%nat smax ltac:(lia) Hu0) as Hlt.
    pose proof (table_inv_chain M ur 0 (S k) smax y Hinv ltac:(lia) Hu0 Hy) as Hle.
    rewrite !Rabs_left1 in Hlt by lra. lra.
Qed.

(** ** [VPPrecond.forward] at a noise level of the schedule *)

Lemma sigma_R_pos (beta_d beta_min t : R) :
  0 < beta_d → 0 <= beta_min → 0 < t → 0 < sigma_R beta_d beta_min t.
Proof.
  intros Hd Hm Ht. unfold sigma_R. apply sqrt_lt_R0.
  assert (Hx : 0 < 0.5 * beta_d * t ^ 2 + beta_min * t).
  { assert (0 < beta_d * (t * t)) by (apply Rmult_lt_0_compat; nra).
    assert (0 <= beta_min * t) by (apply Rmult_le_pos; lra). nra. }
  assert (Hne : 0.5 * beta_d * t ^ 2 + beta_min * t <> 0) by lra.
  pose proof (exp_ineq1 _ Hne). lra.
Qed.


Section VPSchedule.
Context {K : Type} (model : call K → result tensor).

End VPSchedule.


(** ** [cm_train.main]: which student parameters are frozen *)

Lemma copy_param_inv (d s : nat) (σ σ1 : gmap nat param) :
  copy_param d s σ = Ok σ1 →
  ∃ pd t, σ !! d = Some pd ∧ σ1 = <[d := Param t (p_requires_grad pd)]> σ.
Proof.
  unfold copy_param. destruct (σ !! d) as [pd|]; [|discriminate].
  destruct (σ !! s) as [ps|]; [|discriminate].
  destruct (copy_ (p_data pd) (p_data ps)) as [t|]; [|discriminate].
  cbn [mbind result_bind]. intros [= <-]. by exists pd, t.
Qed.

Lemma teacher_scan_requires_grad (lp : bool) (dn : string) (d : nat)
    (teacher : list (string * nat)) (σ σ' : gmap nat param) :
  teacher_scan lp dn d teacher σ = Ok σ' →
  (∀ l, l ≠ d → σ' !! l = σ !! l)
  ∧ (∀ pd, σ !! d = Some pd →
       ∃ pd', σ' !! d = Some pd'
              ∧ p_requires_grad pd'
                = if lp && exact_first lp dn teacher then false
                  else p_requires_grad pd).
Proof.
  induction teacher as [|[sn s] teacher IH]; cbn [teacher_scan exact_first].
  - intros [= <-]. split; [done|]. intros pd Hpd. exists pd.
    split; [done|]. by rewrite andb_false_r.
  - destruct (bool_decide (dn ∈ src_forms sn)).
    + destruct (copy_param d s σ) as [σ1|] eqn:Hc; [|discriminate].
      cbn [mbind result_bind]. intros [= <-].
      apply copy_param_inv in Hc as (pd0 & t & Hpd0 & ->).
      rewrite andb_true_r. split.
      * intros l Hl. destruct lp.
        -- unfold set_requires_grad. rewrite lookup_alter_ne by done.
           by rewrite lookup_insert_ne.
        -- by rewrite lookup_insert_ne.
      * intros pd Hpd. assert (pd0 = pd) by congruence. subst pd0.
        destruct lp.
        -- unfold set_requires_grad. rewrite lookup_alter_eq, lookup_insert_eq.
           by eexists.
        -- rewrite lookup_insert_eq. by eexists.
    + destruct (lp && bool_decide (filter_ dn ∈ src_forms sn)).
      * intros Hc. apply copy_param_inv in Hc as (pd0 & t & Hpd0 & ->).
        rewrite andb_false_r. split.
        -- intros l Hl. by rewrite lookup_insert_ne.
        -- intros pd Hpd. assert (pd0 = pd) by congruence. subst pd0.
           rewrite lookup_insert_eq. by eexists.
      * exact IH.
Qed.

Lemma student_scan_requires_grad (lp : bool)
    (student teacher : list (string * nat)) :
  NoDup student.*2 →
  ∀ σ σ', student_scan lp student teacher σ = Ok σ' →
    (∀ l, l ∉ student.*2 → σ' !! l = σ !! l)
    ∧ (∀ dn d pd, (dn, d) ∈ student → σ !! d = Some pd →
         ∃ pd', σ' !! d = Some pd'
                ∧ p_requires_grad pd'
                  = if lp && exact_first lp dn teacher then false
                    else p_requires_grad pd).
Proof.
  induction student as [|[dn d] student IH]; intros Hnd σ σ';
    cbn [student_scan].
  - intros [= <-]. split; [done|]. intros ??? Hin. by apply elem_of_nil in Hin.
  - cbn [fmap list_fmap snd] in Hnd. apply NoDup_cons in Hnd as [Hd Hnd].
    destruct (teacher_scan lp dn d teacher σ) as [σ1|] eqn:Hts; [|discriminate].
    cbn [mbind result_bind]. intros Hss.
    destruct (teacher_scan_requires_grad _ _ _ _ _ _ Hts) as [Hframe1 Hrg1].
    destruct (IH Hnd σ1 σ' Hss) as [Hframe Hrg].
    cbn [fmap list_fmap snd]. split.
    + intros l Hl. apply not_elem_of_cons in Hl as [Hl1 Hl2].
      rewrite Hframe by done. by apply Hframe1.
    + intros dn' d' pd Hin Hpd. apply elem_of_cons in Hin as [Heq|Hin].
      * injection Heq as -> ->. rewrite Hframe by done. by apply Hrg1.
      * apply (Hrg dn' d' pd Hin). rewrite Hframe1; [done|].
        intros ->. apply Hd. apply list_elem_of_fmap. by exists (dn', d).
Qed.

(** X24.  Which student parameters the teacher branch freezes: after the
    loops and [teacher_model.requires_grad_(False)], a student parameter
    has [requires_grad] false if [linear_probing] is set and the first
    teacher parameter matching it does so by the first [if] (its own
    name is matched); in every other case (no [linear_probing], no match,
    or a match through [filter_] only) its flag is as before. *)
Theorem setup_teacher_requires_grad (teacher_model_path : string)
    (self_learn linear_probing : bool) (student teacher : list (string * nat))
    (σ σ' : gmap nat param) (b : bool) :
  NoDup student.*2 →
  (∀ d s, d ∈ student.*2 → s ∈ teacher.*2 → d ≠ s) →
  setup_teacher teacher_model_path self_learn linear_probing student teacher σ
    = Ok (σ', b) →
  ∀ dn d pd, (dn, d) ∈ student → σ !! d = Some pd →
    ∃ pd', σ' !! d = Some pd'
           ∧ p_requires_grad pd'
             = if b && linear_probing
                  && exact_first linear_probing dn teacher
               then false else p_requires_grad pd.
Proof.
  intros Hnd Hdisj Hrun dn d pd Hin Hpd. unfold setup_teacher in Hrun.
  destruct (bool_decide (0 < String.length teacher_model_path)%nat
            && negb self_learn).
  - destruct (student_scan linear_probing student teacher σ) as [σ1|] eqn:Hss;
      [|discriminate].
    cbn [mbind result_bind] in Hrun. injection Hrun as <- <-.
    destruct (student_scan_requires_grad _ _ _ Hnd _ _ Hss) as [_ Hrg].
    destruct (Hrg dn d pd Hin Hpd) as (pd' & Hpd' & Hflag).
    exists pd'. rewrite requires_grad__lookup.
    rewrite decide_False; [by split|].
    intros Ht. eapply (Hdisj d d); [|exact Ht|reflexivity].
    apply list_elem_of_fmap. by exists (dn, d).
  - injection Hrun as <- <-. exists pd. by split.
Qed.

Lemma setup_teacher_requires_grad_witness :
  ∃ pd', <[0%nat := Param (Tensor float32 cpu [[Fin 1]]) false]>
           (<[1%nat := Param (Tensor float32 cpu [[Fin 1]]) false]>
              (<[2%nat := Param (Tensor float32 cpu [[Fin 2]]) false]>
                 (∅ : gmap nat param)))
         !! 0%nat = Some pd'
         ∧ p_requires_grad pd'
           = if true && true && exact_first true "w" ex_teacher_params
             then false else p_requires_grad (ex_param 0).
Proof.
  apply (setup_teacher_requires_grad "teacher.pt" false true ex_student_params
           ex_teacher_params ex_store _ true).
  - by apply (bool_decide_unpack _).
  - intros d s Hd Hs ->. revert Hd Hs. unfold ex_student_params, ex_teacher_params.
    cbn. rewrite !elem_of_cons, !elem_of_nil. intros [->|[]] [?|[?|[]]]; discriminate.
  - vm_compute. reflexivity.
  - left.
  - reflexivity.
Defined.

(** ** Batch size, class labels, group count *)

(** X25.  The batch size of the training run: for data names starting
    with ['edges2'] it is [args.batch_size] as given, also when that is
    [-1]; otherwise [batch_size = -1] stands for the per-process share
    [global_batch_size // world_size], which uses up [global_batch_size]
    to less than one sample per process, and the warning is logged
    exactly when something is left over. *)
Theorem train_batch_size_spec (args_batch_size global_batch_size world_size : Z)
    (data_name : string) :
  (1 ≤ world_size)%Z →
  ∃ batch_size warning,
    train_batch_size args_batch_size global_batch_size world_size data_name
    = OkE (batch_size, warning)
    ∧ (String.prefix "edges2" data_name = true → batch_size = args_batch_size)
    ∧ (String.prefix "edges2" data_name = false → args_batch_size = (-1)%Z →
         (world_size * batch_size ≤ global_batch_size
          < world_size * batch_size + world_size)%Z
         ∧ (warning = None ↔ (world_size * batch_size)%Z = global_batch_size)
         ∧ (warning ≠ None → warning = Some (world_size * batch_size)%Z))
    ∧ (String.prefix "edges2" data_name = false → args_batch_size ≠ (-1)%Z →
         batch_size = args_batch_size ∧ warning = None).
Proof.
  intros Hw. unfold train_batch_size, floordiv.
  rewrite (decide_False (P := world_size = 0%Z)) by lia.
  pose proof (Z.div_mod global_batch_size world_size ltac:(lia)) as Hdm.
  pose proof (Z.mod_pos_bound global_batch_size world_size ltac:(lia)) as Hm.
  destruct (decide (args_batch_size = -1)%Z) as [Ha|Ha].
  - eexists _, _. split; [reflexivity|].
    destruct (String.prefix "edges2" data_name).
    + split; [done|]. split; [discriminate|discriminate].
    + split; [discriminate|]. split; [|done]. intros _ _.
      split; [lia|].
      destruct (decide (global_batch_size `mod` world_size ≠ 0)%Z) as [Hne|He].
      * split; [|done]. split; [discriminate|lia].
      * split; [|done]. split; [lia|done].
  - eexists _, _. split; [reflexivity|].
    destruct (String.prefix "edges2" data_name).
    + split; [done|]. split; [discriminate|discriminate].
    + split; [discriminate|]. split; [done|]. done.
Qed.

Lemma train_batch_size_spec_witness :
  ∃ batch_size warning,
    train_batch_size (-1) 10 4 "cifar10" = OkE (batch_size, warning)
    ∧ (String.prefix "edges2" "cifar10" = true → batch_size = (-1)%Z)
    ∧ (String.prefix "edges2" "cifar10" = false → (-1)%Z = (-1)%Z →
         (4 * batch_size ≤ 10 < 4 * batch_size + 4)%Z
         ∧ (warning = None ↔ (4 * batch_size)%Z = 10%Z)
         ∧ (warning ≠ None → warning = Some (4 * batch_size)%Z))
    ∧ (String.prefix "edges2" "cifar10" = false → (-1)%Z ≠ (-1)%Z →
         batch_size = (-1)%Z ∧ warning = None).
Proof. apply (train_batch_size_spec (-1) 10 4 "cifar10"). lia. Defined.

Lemma length_bind_replicate (n : nat) (l : list Z) :
  length (x ← l; replicate n x) = (length l * n)%nat.
Proof.
  induction l as [|x l IH]; [reflexivity|].
  cbn [mbind list_bind]. change (length ((replicate n x) ++ (x0 ← l; replicate n x0))
    = (S (length l) * n)%nat).
  rewrite length_app, length_replicate, IH. lia.
Qed.

(** X26.  The class labels of the branch [train_classes == -2]: for a
    non-negative batch size the label vector has [batch_size] entries
    exactly when [batch_size] is a multiple of 32, which is what the
    assertion before it asks for; otherwise it would be shorter. *)
Theorem fixed_class_labels_length (batch_size : Z) :
  (0 ≤ batch_size)%Z →
  (Z.of_nat (length (fixed_class_labels batch_size)) ≤ batch_size)%Z
  ∧ (Z.of_nat (length (fixed_class_labels batch_size)) = batch_size
     ↔ (batch_size `mod` 32 = 0)%Z).
Proof.
  intros Hb. unfold fixed_class_labels. rewrite length_bind_replicate.
  change (length fixed_classes) with 32%nat.
  change (Z.of_nat 32) with 32%Z.
  pose proof (Z.div_mod batch_size 32 ltac:(lia)) as Hdm.
  pose proof (Z.mod_pos_bound batch_size 32 ltac:(lia)) as Hm.
  assert (Hq : (0 ≤ batch_size / 32)%Z) by (apply Z.div_pos; lia).
  rewrite Nat2Z.inj_mul, Z2Nat.id by lia.
  change (Z.of_nat 32) with 32%Z. lia.
Qed.

Lemma fixed_class_labels_length_witness :
  (Z.of_nat (length (fixed_class_labels 64)) ≤ 64)%Z
  ∧ (Z.of_nat (length (fixed_class_labels 64)) = 64%Z ↔ (64 `mod` 32 = 0)%Z).
Proof. apply (fixed_class_labels_length 64). lia. Defined.

(** X27.  [GroupNorm.__init__] never makes more groups than asked for, and
    never so many that a group would have fewer than
    [min_channels_per_group] channels on average; there is at least one
    group exactly when one was asked for and the channels suffice. *)
Theorem GroupNorm_num_groups_spec (num_channels num_groups min_channels_per_group : Z) :
  (1 ≤ min_channels_per_group)%Z →
  ∃ g, GroupNorm_num_groups num_channels num_groups min_channels_per_group = OkE g
       ∧ (g ≤ num_groups)%Z
       ∧ (g * min_channels_per_group ≤ num_channels)%Z
       ∧ ((1 ≤ g)%Z ↔ (1 ≤ num_groups ∧ min_channels_per_group ≤ num_channels)%Z).
Proof.
  intros Hm. unfold GroupNorm_num_groups, floordiv.
  rewrite decide_False by lia. eexists. split; [reflexivity|].
  pose proof (Z.div_mod num_channels min_channels_per_group ltac:(lia)) as Hdm.
  pose proof (Z.mod_pos_bound num_channels min_channels_per_group ltac:(lia)) as Hb.
  set (q := (num_channels / min_channels_per_group)%Z) in *.
  split; [lia|]. split; [nia|]. split.
  - intros Hg. split; [lia|]. assert (1 ≤ q)%Z by lia. nia.
  - intros [Hn Hc]. assert (1 ≤ q)%Z by nia. lia.
Qed.

Lemma GroupNorm_num_groups_spec_witness :
  ∃ g, GroupNorm_num_groups 100 32 4 = OkE g
       ∧ (g ≤ 32)%Z ∧ (g * 4 ≤ 100)%Z
       ∧ ((1 ≤ g)%Z ↔ (1 ≤ 32 ∧ 4 ≤ 100)%Z).
Proof. apply (GroupNorm_num_groups_spec 100 32 4). lia. Defined.

(** ** [round_sigma] on the table [[3, 1, 0]] *)

Lemma alpha_bar_R_0_2 :
  alpha_bar_R 0 2 0 = 0 ∧ alpha_bar_R 0 2 1 = 1 / 2 ∧ alpha_bar_R 0 2 2 = 1.
Proof.
  unfold alpha_bar_R, theta. cbn [INR]. repeat split.
  - replace (0.5 * PI * 0 / (1 + 1) / (0 + 1)) with 0 by lra.
    rewrite sin_0. lra.
  - replace (0.5 * PI * 1 / (1 + 1) / (0 + 1)) with (PI / 4) by lra.
    rewrite sin_PI4.
    assert (Hs : sqrt 2 * sqrt 2 = 2) by (apply sqrt_sqrt; lra).
    assert (Hp : 0 < sqrt 2) by (apply sqrt_lt_R0; lra).
    field_simplify; [|lra]. rewrite <- Rsqr_pow2. unfold Rsqr. rewrite Hs. lra.
  - replace (0.5 * PI * (1 + 1) / (1 + 1) / (0 + 1)) with (PI / 2) by lra.
    rewrite sin_PI2. lra.
Qed.

Lemma u_next_0_2 :
  u_next 0.2 0 2 2 0 = 1 ∧ u_next 0.2 0 2 1 1 = 3.
Proof.
  destruct alpha_bar_R_0_2 as (H0 & H1 & H2). unfold u_next.
  change (2 - 1)%nat with 1%nat. change (1 - 1)%nat with 0%nat.
  rewrite H0, H1, H2. split.
  - replace (1 / 2 / 1) with 0.5 by lra.
    rewrite Rmax_left by lra.
    replace ((0 * 0 + 1) / 0.5 - 1) with 1 by lra. apply sqrt_1.
  - replace (0 / (1 / 2)) with 0 by lra.
    rewrite Rmax_right by lra.
    replace ((1 * 1 + 1) / 0.2 - 1) with (3 * 3) by lra.
    apply sqrt_square. lra.
Qed.

Lemma ex_iddpm3_init : iDDPMPrecond_init 0.2 0 2 = Ok ex_iddpm3.
Proof.
  destruct u_next_0_2 as [Hu1 Hu0].
  assert (Htab : u_table 0.2 0 2 = [Fin 3; Fin 1; Fin 0]).
  { unfold u_table. cbn [seq reverse rev_append foldl replicate Nat.add].
    change [Fin 0; Fin 0; Fin 0] with (Fin <$> [0; 0; 0]).
    rewrite (u_step_fin 0.2 0 2 ltac:(lra) ltac:(lra) ltac:(lra) [0; 0; 0] 2 0)
      by first [lia | lra | reflexivity].
    rewrite Hu1. change (2 - 1)%nat with 1%nat. cbn [insert list_insert].
    rewrite (u_step_fin 0.2 0 2 ltac:(lra) ltac:(lra) ltac:(lra) [0; 1; 0] 1 1)
      by first [lia | lra | reflexivity].
    rewrite Hu0. reflexivity. }
  unfold iDDPMPrecond_init. rewrite Htab. reflexivity.
Qed.

Ltac rabs_decide :=
  match goal with
  | |- context [Rlt_dec (Rabs ?a) (Rabs ?b)] =>
      let H := fresh "H" in
      destruct (Rlt_dec (Rabs a) (Rabs b)) as [H|H];
      try (exfalso; revert H; unfold Rabs;
           destruct (Rcase_abs a), (Rcase_abs b); lra);
      clear H
  end.

(** [round_sigma] on the table [[3, 1, 0]]: 5 and 2 go to 3 (2 is as far
    from 3 as from 1, and the first of the two is taken), 1.5 to 1 and
    0.25 to 0. *)
Lemma ex_iddpm3_round_sigma :
  round_sigma_index ex_iddpm3 (fin_tensor float32 cpu [[5; 2; 1.5; 0.25]])
  = Ok [[0; 0; 1; 2]%nat]
  ∧ round_sigma ex_iddpm3 (fin_tensor float32 cpu [[5; 2; 1.5; 0.25]])
    = Ok (fin_tensor float32 cpu [[3; 3; 1; 0]]).
Proof.
  assert (Hidx : round_sigma_index ex_iddpm3
                   (fin_tensor float32 cpu [[5; 2; 1.5; 0.25]])
                 = Ok [[0; 0; 1; 2]%nat]).
  { unfold round_sigma_index, fin_tensor, nearest_index, ex_iddpm3.
    cbn [t_rows fmap list_fmap iddpm_u mapM].
    rewrite !cdist1_fin. cbn [argmin argmin_go ext_ltb].
    repeat rabs_decide. reflexivity. }
  split; [exact Hidx|]. unfold round_sigma. rewrite Hidx. reflexivity.
Qed.

Lemma round_sigma_nearest_witness :
  (∃ Y, round_sigma ex_iddpm3 (fin_tensor float32 cpu [[5; 2; 1.5; 0.25]])
        = Ok (fin_tensor float32 cpu Y)
        ∧ Forall2 (Forall2 (nearest_in (iddpm_u ex_iddpm3)))
            [[5; 2; 1.5; 0.25]] Y)
  ∧ round_sigma ex_iddpm3 (fin_tensor float32 cpu [[5; 2; 1.5; 0.25]])
    = Ok (fin_tensor float32 cpu [[3; 3; 1; 0]]).
Proof.
  split; [|exact (proj2 ex_iddpm3_round_sigma)].
  apply (round_sigma_nearest 0.2 0 2 ex_iddpm3 float32 cpu [[5; 2; 1.5; 0.25]]);
    [lra|lra|lra|exact ex_iddpm3_init].
Defined.

Lemma round_sigma_idempotent_witness :
  round_sigma ex_iddpm3 (fin_tensor float32 cpu [[3; 3; 1; 0]])
  = Ok (fin_tensor float32 cpu [[3; 3; 1; 0]]).
Proof.
  apply (round_sigma_idempotent 0.2 0 2 ex_iddpm3 float32 cpu
           [[5; 2; 1.5; 0.25]]);
    [lra|lra|lra|exact ex_iddpm3_init|exact (proj2 ex_iddpm3_round_sigma)].
Defined.

Lemma round_sigma_index_range_witness :
  (∃ I, round_sigma_index ex_iddpm3
          (fin_tensor float32 cpu [[5; 2; 1.5; 0.25]]) = Ok I
        ∧ Forall2 (Forall2 (λ x k,
            (k ≤ 2)%nat
            ∧ ∀ smax, iddpm_sigma_max ex_iddpm3 = Fin smax → smax <= x →
                      k = 0%nat)) [[5; 2; 1.5; 0.25]] I)
  ∧ round_sigma_index ex_iddpm3 (fin_tensor float32 cpu [[5; 2; 1.5; 0.25]])
    = Ok [[0; 0; 1; 2]%nat].
Proof.
  split; [|exact (proj1 ex_iddpm3_round_sigma)].
  apply (round_sigma_index_range 0.2 0 2 ex_iddpm3 float32 cpu
           [[5; 2; 1.5; 0.25]]);
    [lra|lra|lra|exact ex_iddpm3_init].
Defined.
